(** * Coin collector: server-authoritative simulation and client interpolation

    A shallow embedding of the server, [game-server.js] (class
    [GameServer]), and of the terminal client (class [GameClient]).

    - JavaScript numbers are IEEE-754 binary64 values: the primitive type
      [float], whose operations are the processor's.
    - [Date.now()] and [Math.random()] are inputs of the operations that call
      them.
    - Timestamps and coin ids are results of [Date.now()], an integer number of
      milliseconds: they are kept in [Z] and converted to a number where the
      code does floating-point arithmetic on them.
    - Scores and player ids are counters that start at a small integer and
      only grow by one: they are kept in [Z].
    - The client process is the state of a [GameClient] with what it has
      written to the socket and to the terminal; key presses, timers that
      fire, socket events and render ticks are the events of its runs. *)

From Stdlib Require Import ZArith List String Ascii Bool Lia Floats Sorted.
From Stdlib Require Import DecimalString.
From Stdlib Require Uint63.
Import ListNotations.

Local Open Scope Z_scope.
Local Set Warnings "-register-all".

(** ** JavaScript values *)

Module JS.

Definition number := float.

Definition isNaN (a : number) : bool := negb (a =? a)%float.

Definition is_pos_zero (a : number) : bool :=
  PrimFloat.Leibniz.eqb a PrimFloat.zero.

Definition is_neg_zero (a : number) : bool :=
  PrimFloat.Leibniz.eqb a PrimFloat.neg_zero.

(** [Math.min(a, b)]: NaN when an argument is NaN, and -0 is below +0. *)
Definition Math_min (a b : number) : number :=
  if isNaN a || isNaN b then PrimFloat.nan
  else if is_neg_zero b && is_pos_zero a then b
  else if (b <? a)%float then b else a.

(** [Math.max(a, b)]: NaN when an argument is NaN, and +0 is above -0. *)
Definition Math_max (a b : number) : number :=
  if isNaN a || isNaN b then PrimFloat.nan
  else if is_pos_zero b && is_neg_zero a then b
  else if (a <? b)%float then b else a.

Definition Math_sqrt (a : number) : number := PrimFloat.sqrt a.

(** [a !== b] on numbers. *)
Definition strict_neq (a b : number) : bool := negb (a =? b)%float.

(** The number that holds the integer [z]; exact for [|z| < 2^53]. *)
Definition number_of_Z (z : Z) : number :=
  match z with
  | Z0 => PrimFloat.zero
  | Zpos _ => of_uint63 (Uint63Axioms.of_Z z)
  | Zneg _ => (- of_uint63 (Uint63Axioms.of_Z (- z)))%float
  end.

(** What [JSON.parse] returns. An object is the list of its own
    properties. *)
Inductive json : Type :=
| JNull
| JBool (b : bool)
| JNum (n : number)
| JStr (s : string)
| JArr (items : list json)
| JObj (props : list (string * json)).

(** A value read from a property: [None] is [undefined]. *)
Definition jsval := option json.
Definition undefined : jsval := None.

Inductive error := TypeError | SyntaxError.

(** The completion of a statement: it returns, or it throws. *)
Inductive completion (A : Type) : Type :=
| Normal (a : A)
| Throw (e : error) (a : A).
Arguments Normal {A} a.
Arguments Throw {A} e a.

(** The state a statement leaves, however it completes. *)
Definition outcome {A : Type} (c : completion A) : A :=
  match c with
  | Normal a => a
  | Throw _ a => a
  end.

Fixpoint lookup (k : string) (props : list (string * json)) : jsval :=
  match props with
  | [] => undefined
  | (k', v) :: rest => if String.eqb k k' then Some v else lookup k rest
  end.

(** [v.k], for the property names this program reads ([type], [inputs],
    [up], [down], [left], [right]): none of them is defined on a prototype
    of a primitive wrapper, of [Array] or of [Object], so only an object's
    own property gives a value. Reading a property of [null] or
    [undefined] throws. *)
Definition getProp (v : jsval) (k : string) : option jsval :=
  match v with
  | None | Some JNull => None
  | Some (JObj props) => Some (lookup k props)
  | Some _ => Some undefined
  end.

(** The condition of [if (v)]. *)
Definition truthy (v : jsval) : bool :=
  match v with
  | None | Some JNull => false
  | Some (JBool b) => b
  | Some (JNum n) => negb ((n =? 0)%float || isNaN n)
  | Some (JStr s) => negb (String.eqb s EmptyString)
  | Some (JArr _) | Some (JObj _) => true
  end.

(** [v === s] for a string literal [s]. *)
Definition strict_eq_str (v : jsval) (s : string) : bool :=
  match v with
  | Some (JStr s') => String.eqb s' s
  | _ => false
  end.

(** The text of a WebSocket frame, as [JSON.parse] sees it: [None] when it
    is not JSON. *)
Definition text := option json.

Definition JSON_parse (m : text) : option json := m.

(** [Math.floor(a)]: NaN, the infinities and the zeros are returned as they
    are, and so is a number whose exponent is not negative, which is an
    integer. *)
Definition Math_floor (a : number) : number :=
  match Prim2SF a with
  | S754_finite s m e =>
      if e <? 0
      then number_of_Z (Z.shiftr (if s then Zneg m else Zpos m) (- e))
      else a
  | _ => a
  end.

(** The array index that a number names: [a[x]] with [x] a non-negative
    integer, or -0, reads and writes the element of that index. *)
Definition index (a : number) : nat :=
  match Prim2SF a with
  | S754_finite false m e => Z.to_nat (Z.shiftl (Zpos m) e)
  | _ => 0%nat
  end.

(** [String(z)] for an integer, as a template literal inserts it. *)
Definition toString (z : Z) : string := NilZero.string_of_int (Z.to_int z).

End JS.

Import JS.

(** ** Records shared by server and client *)

Record coin := { c_id : Z; c_x : number; c_y : number }.

(** What [serializePlayer] returns, and what the client finds in
    [message.players]. *)
Record playerView :=
  { v_id : Z; v_x : number; v_y : number; v_score : Z; v_color : string }.

(** The content of a frame the server writes to a socket: the text that
    [JSON.stringify] produced. *)
Inductive frame :=
| InitFrame (playerId : Z) (pl : playerView)
| StateFrame (timestamp : Z) (pls : list playerView) (cs : list coin).

(** ** game-server.js *)

Module GameServer.

Definition TICK_RATE : Z := 60.
Definition COIN_SPAWN_INTERVAL : Z := 3000.
Definition MAP_SIZE : number := 800%float.
Definition PLAYER_SIZE : number := 30%float.
Definition COIN_SIZE : number := 20%float.
Definition PLAYER_SPEED : number := 3%float.
Definition NETWORK_LATENCY : Z := 180.

(** A player object. Its socket is named by the player id, which is
    allocated once per connection. *)
Record player :=
  { p_id : Z; p_x : number; p_y : number; p_score : Z; p_color : string;
    p_inputs : jsval }.

(** [this.players] is a [Map]: iteration is in insertion order. *)
Definition playerMap := list (Z * player).

Record server :=
  { players : playerMap;
    coins : list coin;
    nextPlayerId : Z;
    gameStarted : bool;
    lastCoinSpawn : Z }.

Definition constructor (now : Z) : server :=
  {| players := []; coins := []; nextPlayerId := 1; gameStarted := false;
     lastCoinSpawn := now |}.

Fixpoint map_get (k : Z) (m : playerMap) : option player :=
  match m with
  | [] => None
  | (k', p) :: rest => if k =? k' then Some p else map_get k rest
  end.

Fixpoint map_set (k : Z) (p : player) (m : playerMap) : playerMap :=
  match m with
  | [] => [(k, p)]
  | (k', p') :: rest =>
      if k =? k' then (k, p) :: rest else (k', p') :: map_set k p rest
  end.

Definition map_delete (k : Z) (m : playerMap) : playerMap :=
  filter (fun kp => negb (k =? fst kp)) m.

Definition set_players (s : server) (m : playerMap) : server :=
  {| players := m; coins := coins s; nextPlayerId := nextPlayerId s;
     gameStarted := gameStarted s; lastCoinSpawn := lastCoinSpawn s |}.

Definition set_coins (s : server) (cs : list coin) : server :=
  {| players := players s; coins := cs; nextPlayerId := nextPlayerId s;
     gameStarted := gameStarted s; lastCoinSpawn := lastCoinSpawn s |}.

Definition set_inputs (p : player) (v : jsval) : player :=
  {| p_id := p_id p; p_x := p_x p; p_y := p_y p; p_score := p_score p;
     p_color := p_color p; p_inputs := v |}.

Definition set_position (p : player) (x y : number) : player :=
  {| p_id := p_id p; p_x := x; p_y := y; p_score := p_score p;
     p_color := p_color p; p_inputs := p_inputs p |}.

Definition incr_score (p : player) : player :=
  {| p_id := p_id p; p_x := p_x p; p_y := p_y p; p_score := p_score p + 1;
     p_color := p_color p; p_inputs := p_inputs p |}.

(** *** spawnCoin *)

Definition spawnCoin (now : Z) (rx ry : number) (s : server) : server :=
  set_coins s
    (coins s ++ [ {| c_id := now;
                     c_x := (rx * (MAP_SIZE - COIN_SIZE))%float;
                     c_y := (ry * (MAP_SIZE - COIN_SIZE))%float |} ]).

(** *** serializePlayer *)

Definition serializePlayer (p : player) : playerView :=
  {| v_id := p_id p; v_x := p_x p; v_y := p_y p; v_score := p_score p;
     v_color := p_color p |}.

(** *** handleMessage *)

(** The body of the [try] block. *)
Definition handleMessage_try (playerId : Z) (message : text) (s : server)
  : completion server :=
  match JSON_parse message with
  | None => Throw SyntaxError s
  | Some data =>
      match map_get playerId (players s) with
      | None => Normal s
      | Some player =>
          match getProp (Some data) "type" with
          | None => Throw TypeError s
          | Some ty =>
              if strict_eq_str ty "input" then
                match getProp (Some data) "inputs" with
                | None => Throw TypeError s
                | Some v =>
                    Normal (set_players s
                              (map_set playerId (set_inputs player v)
                                 (players s)))
                end
              else Normal s
          end
      end
  end.

(** [try { ... } catch (e) { console.error(...) }] *)
Definition handleMessage (playerId : Z) (message : text) (s : server)
  : completion server :=
  match handleMessage_try playerId message s with
  | Normal s' => Normal s'
  | Throw _ s' => Normal s'
  end.

(** *** update *)

(** The four reads [player.inputs.up], [.down], [.left], [.right], each
    used as a condition. The first read throws when [player.inputs] is
    [null] or [undefined]. *)
Definition readFlags (inputs : jsval) : option (bool * bool * bool * bool) :=
  match getProp inputs "up", getProp inputs "down",
        getProp inputs "left", getProp inputs "right" with
  | Some u, Some d, Some l, Some r =>
      Some (truthy u, truthy d, truthy l, truthy r)
  | _, _, _, _ => None
  end.

Definition displacement (flags : bool * bool * bool * bool)
  : number * number :=
  let '(up, down, lft, rgt) := flags in
  let dx := 0%float in
  let dy := 0%float in
  let dy := if up then (dy - PLAYER_SPEED)%float else dy in
  let dy := if down then (dy + PLAYER_SPEED)%float else dy in
  let dx := if lft then (dx - PLAYER_SPEED)%float else dx in
  let dx := if rgt then (dx + PLAYER_SPEED)%float else dx in
  if strict_neq dx 0%float && strict_neq dy 0%float then
    let factor := Math_sqrt 2%float in
    ((dx / factor)%float, (dy / factor)%float)
  else (dx, dy).

Definition clamp (a : number) : number :=
  Math_max 0%float (Math_min (MAP_SIZE - PLAYER_SIZE)%float a).

Definition move (p : player) (d : number * number) : player :=
  set_position p (clamp (p_x p + fst d)%float) (clamp (p_y p + snd d)%float).

(** The AABB test of [checkCoinCollisions]. *)
Definition overlaps (p : player) (c : coin) : bool :=
  (p_x p <? c_x c + COIN_SIZE)%float
  && (c_x c <? p_x p + PLAYER_SIZE)%float
  && (p_y p <? c_y c + COIN_SIZE)%float
  && (c_y c <? p_y p + PLAYER_SIZE)%float.

(** [splice(i, 1)] *)
Fixpoint splice1 (i : nat) (cs : list coin) : list coin :=
  match i, cs with
  | _, [] => []
  | O, _ :: rest => rest
  | S i', c :: rest => c :: splice1 i' rest
  end.

(** The loop [for (i = n - 1; i >= 0; i--)] of [checkCoinCollisions], with
    [n] iterations left. Reading [coin.x] of an index past the end would
    throw. *)
Fixpoint checkCoinCollisions_from (n : nat) (p : player) (cs : list coin)
  : option (player * list coin) :=
  match n with
  | O => Some (p, cs)
  | S i =>
      match nth_error cs i with
      | None => None
      | Some c =>
          if overlaps p c
          then checkCoinCollisions_from i (incr_score p) (splice1 i cs)
          else checkCoinCollisions_from i p cs
      end
  end.

Definition checkCoinCollisions (p : player) (cs : list coin)
  : option (player * list coin) :=
  checkCoinCollisions_from (List.length cs) p cs.

(** One iteration of the loop over [this.players]. *)
Definition updatePlayer (p : player) (cs : list coin)
  : option (player * list coin) :=
  match readFlags (p_inputs p) with
  | None => None
  | Some flags => checkCoinCollisions (move p (displacement flags)) cs
  end.

(** The loop over [this.players]: [done] holds the entries already
    visited, in reverse. An exception leaves the loop with the state
    written so far. *)
Fixpoint update_loop (todo : playerMap) (done : playerMap) (cs : list coin)
  : completion (playerMap * list coin) :=
  match todo with
  | [] => Normal (rev done, cs)
  | (k, p) :: rest =>
      match updatePlayer p cs with
      | None => Throw TypeError (rev_append done todo, cs)
      | Some (p', cs') => update_loop rest ((k, p') :: done) cs'
      end
  end.

Definition install (s : server) (r : playerMap * list coin) : server :=
  set_coins (set_players s (fst r)) (snd r).

Definition update (s : server) : completion server :=
  match update_loop (players s) [] (coins s) with
  | Normal r => Normal (install s r)
  | Throw e r => Throw e (install s r)
  end.

(** *** sendWithLatency and broadcastGameState *)

(** The server allocates one coin array ([this.coins = []] in the
    constructor) and never assigns the field again: [push] and [splice]
    change that array in place. [ThisCoins] is a reference to it. *)
Inductive coinsRef := ThisCoins.

(** The object handed to [sendWithLatency]. In a state message [players]
    is a fresh array of fresh objects, and [coins] is [this.coins]
    itself. *)
Inductive outgoing :=
| InitMessage (playerId : Z) (pl : playerView)
| StateMessage (timestamp : Z) (pls : list playerView) (cs : coinsRef).

(** [JSON.stringify(data)], which reads the coin array as it is when the
    call is made. *)
Definition JSON_stringify (s : server) (data : outgoing) : frame :=
  match data with
  | InitMessage playerId pl => InitFrame playerId pl
  | StateMessage timestamp pls ThisCoins => StateFrame timestamp pls (coins s)
  end.

(** The body of a pending [setTimeout]. *)
Inductive task :=
| SendTask (conn : Z) (data : outgoing)
| ReceiveTask (playerId : Z) (message : text).

(** A pending [setTimeout]: its callback, and the reading of [Date.now()]
    at which its delay will have elapsed. *)
Record timer := { due : Z; job : task }.

(** The server process: its [GameServer] object, the pending timeouts, the
    sockets whose [readyState] is [OPEN], and the frames written so far
    (latest last). *)
Record world :=
  { srv : server;
    timers : list timer;
    openSockets : list Z;
    written : list (Z * frame) }.

Definition boot (now : Z) : world :=
  {| srv := constructor now; timers := []; openSockets := []; written := [] |}.

Definition set_srv (w : world) (s : server) : world :=
  {| srv := s; timers := timers w; openSockets := openSockets w;
     written := written w |}.

Definition setTimeout (now : Z) (j : task) (w : world) : world :=
  {| srv := srv w;
     timers := timers w ++ [ {| due := now + NETWORK_LATENCY; job := j |} ];
     openSockets := openSockets w; written := written w |}.

Definition sendWithLatency (now : Z) (conn : Z) (data : outgoing) (w : world)
  : world :=
  setTimeout now (SendTask conn data) w.

Definition buildState (now : Z) (s : server) : outgoing :=
  StateMessage now (map (fun kp => serializePlayer (snd kp)) (players s))
    ThisCoins.

Definition broadcastGameState (now : Z) (w : world) : world :=
  let state := buildState now (srv w) in
  fold_left (fun w' kp => sendWithLatency now (p_id (snd kp)) state w')
    (players (srv w)) w.

(** *** handleConnection *)

Definition startGame (s : server) : server :=
  {| players := players s; coins := coins s; nextPlayerId := nextPlayerId s;
     gameStarted := true; lastCoinSpawn := lastCoinSpawn s |}.

(** The object literal [player] of [handleConnection]: [rx] and [ry] are
    the results of [Math.random()] for the position, and [color] is the
    string built from the third one. *)
Definition newPlayer (playerId : Z) (rx ry : number) (color : string)
  : player :=
  {| p_id := playerId;
     p_x := (rx * (MAP_SIZE - PLAYER_SIZE))%float;
     p_y := (ry * (MAP_SIZE - PLAYER_SIZE))%float;
     p_score := 0;
     p_color := color;
     p_inputs :=
       Some (JObj [("up"%string, JBool false); ("down"%string, JBool false);
                   ("left"%string, JBool false);
                   ("right"%string, JBool false)]) |}.

(** The changes [handleConnection] makes to the [GameServer] object;
    [cx] and [cy] are the numbers [spawnCoin] draws when the game
    starts. *)
Definition register (now : Z) (rx ry : number) (color : string)
  (cx cy : number) (s : server) : server :=
  let playerId := nextPlayerId s in
  let s1 :=
    {| players := map_set playerId (newPlayer playerId rx ry color) (players s);
       coins := coins s;
       nextPlayerId := playerId + 1; gameStarted := gameStarted s;
       lastCoinSpawn := lastCoinSpawn s |} in
  if (2 <=? Z.of_nat (List.length (players s1))) && negb (gameStarted s1)
  then spawnCoin now cx cy (startGame s1)
  else s1.

Definition handleConnection (now : Z) (rx ry : number) (color : string)
  (cx cy : number) (w : world) : world :=
  let playerId := nextPlayerId (srv w) in
  let player := newPlayer playerId rx ry color in
  sendWithLatency now playerId (InitMessage playerId (serializePlayer player))
    {| srv := register now rx ry color cx cy (srv w); timers := timers w;
       openSockets := openSockets w ++ [playerId]; written := written w |}.

(** *** The callbacks of the event loop *)

Definition isOpen (conn : Z) (w : world) : bool :=
  existsb (Z.eqb conn) (openSockets w).

(** [ws.on('message')] *)
Definition onMessage (now : Z) (playerId : Z) (message : text) (w : world)
  : world :=
  if isOpen playerId w then setTimeout now (ReceiveTask playerId message) w
  else w.

(** [ws.on('close')] *)
Definition onClose (now : Z) (playerId : Z) (w : world) : world :=
  let w1 :=
    {| srv := set_players (srv w) (map_delete playerId (players (srv w)));
       timers := timers w;
       openSockets := filter (fun c => negb (playerId =? c)) (openSockets w);
       written := written w |} in
  broadcastGameState now w1.

(** The first [setInterval] of [startGameLoop]. *)
Definition onTick (now : Z) (w : world) : completion world :=
  if gameStarted (srv w) then
    match update (srv w) with
    | Normal s' => Normal (broadcastGameState now (set_srv w s'))
    | Throw e s' => Throw e (set_srv w s')
    end
  else Normal w.

(** The second [setInterval] of [startGameLoop]. *)
Definition onCoinTimer (now : Z) (rx ry : number) (s : server) : server :=
  if gameStarted s && (Z.of_nat (List.length (coins s)) <? 5)
  then spawnCoin now rx ry s
  else s.

Fixpoint take_nth {A : Type} (n : nat) (l : list A) : option (A * list A) :=
  match n, l with
  | _, [] => None
  | O, a :: rest => Some (a, rest)
  | S n', a :: rest =>
      match take_nth n' rest with
      | Some (b, rest') => Some (b, a :: rest')
      | None => None
      end
  end.

Definition runTask (j : task) (w : world) : world :=
  match j with
  | SendTask conn data =>
      if isOpen conn w then
        {| srv := srv w; timers := timers w; openSockets := openSockets w;
           written := written w ++ [(conn, JSON_stringify (srv w) data)] |}
      else w
  | ReceiveTask playerId message =>
      match handleMessage playerId message (srv w) with
      | Normal s' => set_srv w s'
      | Throw _ s' => set_srv w s'
      end
  end.

(** The [n]-th pending timeout fires. The callback reads no clock, and Node
    runs it when its own timer says so, which can be before [Date.now()]
    has advanced by the delay: [now], the reading of [Date.now()] when it
    runs, is not compared with [due]. *)
Definition onTimeout (now : Z) (n : nat) (w : world) : world :=
  match take_nth n (timers w) with
  | Some (t, rest) =>
      runTask (job t)
        {| srv := srv w; timers := rest; openSockets := openSockets w;
           written := written w |}
  | None => w
  end.

Inductive event :=
| Connection (now : Z) (rx ry : number) (color : string) (cx cy : number)
| Message (now : Z) (playerId : Z) (message : text)
| Close (now : Z) (playerId : Z)
| Tick (now : Z)
| CoinTimer (now : Z) (rx ry : number)
| TimerFires (now : Z) (n : nat).

Definition step (e : event) (w : world) : completion world :=
  match e with
  | Connection now rx ry color cx cy =>
      Normal (handleConnection now rx ry color cx cy w)
  | Message now playerId message => Normal (onMessage now playerId message w)
  | Close now playerId => Normal (onClose now playerId w)
  | Tick now => onTick now w
  | CoinTimer now rx ry => Normal (set_srv w (onCoinTimer now rx ry (srv w)))
  | TimerFires now n => Normal (onTimeout now n w)
  end.

(** An exception that no handler catches ends the process. *)
Fixpoint run (es : list event) (w : world) : completion world :=
  match es with
  | [] => Normal w
  | e :: rest =>
      match step e w with
      | Normal w' => run rest w'
      | Throw err w' => Throw err w'
      end
  end.

End GameServer.

(** ** game-client.js *)

Module GameClient.

Definition INTERPOLATION_DELAY : Z := 100.

(** An element of [this.serverStates]. *)
Record snapshot :=
  { timestamp : Z; players : list playerView; coins : list coin }.

Record client := { myPlayerId : option Z; serverStates : list snapshot }.

Definition constructor : client :=
  {| myPlayerId := None; serverStates := [] |}.

(** *** handleMessage *)

Definition handleMessage (now : Z) (message : frame) (c : client) : client :=
  match message with
  | InitFrame playerId _ =>
      {| myPlayerId := Some playerId; serverStates := serverStates c |}
  | StateFrame ts pls cs =>
      let pushed :=
        serverStates c
        ++ [ {| timestamp := ts; players := pls; coins := cs |} ] in
      let cutoff := now - 1000 in
      {| myPlayerId := myPlayerId c;
         serverStates := filter (fun s => timestamp s >? cutoff) pushed |}
  end.

(** *** interpolateState *)

(** What [interpolateState] returns: a buffered snapshot, which has a
    [timestamp], or an object with [players] and [coins] only. *)
Record renderState :=
  { r_timestamp : option Z; r_players : list playerView; r_coins : list coin }.

Definition ofSnapshot (s : snapshot) : renderState :=
  {| r_timestamp := Some (timestamp s); r_players := players s;
     r_coins := coins s |}.

Definition emptyState : renderState :=
  {| r_timestamp := None; r_players := []; r_coins := [] |}.

(** The [for] loop with its [break]: the first index [i] such that
    [states[i].timestamp <= renderTime] and
    [states[i + 1].timestamp >= renderTime]. *)
Fixpoint findBracket (renderTime : Z) (states : list snapshot)
  : option (snapshot * snapshot) :=
  match states with
  | before :: ((after :: _) as rest) =>
      if (timestamp before <=? renderTime) && (timestamp after >=? renderTime)
      then Some (before, after)
      else findBracket renderTime rest
  | _ => None
  end.

(** [after.players.find(p => p.id === id)] *)
Definition findPlayer (id : Z) (pls : list playerView) : option playerView :=
  find (fun p => v_id p =? id) pls.

Definition factor (renderTime : Z) (before after : snapshot) : number :=
  (number_of_Z (renderTime - timestamp before)
   / number_of_Z (timestamp after - timestamp before))%float.

Definition interpolatePlayer (t : number) (after : snapshot)
  (beforePlayer : playerView) : playerView :=
  match findPlayer (v_id beforePlayer) (players after) with
  | None => beforePlayer
  | Some afterPlayer =>
      {| v_id := v_id beforePlayer;
         v_x := (v_x beforePlayer
                 + (v_x afterPlayer - v_x beforePlayer) * t)%float;
         v_y := (v_y beforePlayer
                 + (v_y afterPlayer - v_y beforePlayer) * t)%float;
         v_score := v_score afterPlayer;
         v_color := v_color beforePlayer |}
  end.

Definition interpolate (renderTime : Z) (before after : snapshot)
  : renderState :=
  let t := factor renderTime before after in
  {| r_timestamp := None;
     r_players := map (interpolatePlayer t after) (players before);
     r_coins := coins after |}.

Definition interpolateState (now : Z) (c : client) : renderState :=
  let renderTime := now - INTERPOLATION_DELAY in
  let states := serverStates c in
  if (List.length states <? 2)%nat then
    match states with
    | s :: _ => ofSnapshot s
    | [] => emptyState
    end
  else
    match findBracket renderTime states with
    | Some (before, after) => interpolate renderTime before after
    | None =>
        match nth_error states (List.length states - 1) with
        | Some s => ofSnapshot s
        | None => emptyState
        end
    end.

(** *** setupInput and sendInput *)

(** [this.inputs]: the handlers store nothing but [true] and [false] in its
    four fields. *)
Record inputs :=
  { i_up : bool; i_down : bool; i_left : bool; i_right : bool }.

Definition released : inputs :=
  {| i_up := false; i_down := false; i_left := false; i_right := false |}.

(** The [key] argument of a keypress; [name] is [undefined] for a key that
    has none. *)
Record key := { k_name : option string; k_ctrl : bool }.

(** [key.name === s] *)
Definition named (k : key) (s : string) : bool :=
  match k_name k with
  | Some n => String.eqb n s
  | None => false
  end.

Definition nl : string := String (ascii_of_nat 10) EmptyString.

Definition esc : string := String (ascii_of_nat 27) EmptyString.

(** The client process: the [GameClient] object, with
    [this.ws.readyState === WebSocket.OPEN] as [t_socketOpen]; the pending
    auto-release timeouts, by the time they are due; the frames sent to the
    server and the chunks given to [process.stdout.write], latest last; and
    whether [process.exit] was called. *)
Record terminal :=
  { t_client : client;
    t_inputs : inputs;
    t_lastRender : string;
    t_socketOpen : bool;
    t_releases : list Z;
    t_sent : list text;
    t_stdout : list string;
    t_exited : bool }.

(** [new GameClient()]: [setupInput] hides the cursor. *)
Definition start : terminal :=
  {| t_client := constructor; t_inputs := released;
     t_lastRender := EmptyString; t_socketOpen := false; t_releases := [];
     t_sent := []; t_stdout := [(esc ++ "[?25l")%string]; t_exited := false |}.

Definition with_inputs (t : terminal) (i : inputs) : terminal :=
  {| t_client := t_client t; t_inputs := i; t_lastRender := t_lastRender t;
     t_socketOpen := t_socketOpen t; t_releases := t_releases t;
     t_sent := t_sent t; t_stdout := t_stdout t; t_exited := t_exited t |}.

Definition with_releases (t : terminal) (l : list Z) : terminal :=
  {| t_client := t_client t; t_inputs := t_inputs t;
     t_lastRender := t_lastRender t; t_socketOpen := t_socketOpen t;
     t_releases := l; t_sent := t_sent t; t_stdout := t_stdout t;
     t_exited := t_exited t |}.

Definition with_client (t : terminal) (c : client) : terminal :=
  {| t_client := c; t_inputs := t_inputs t; t_lastRender := t_lastRender t;
     t_socketOpen := t_socketOpen t; t_releases := t_releases t;
     t_sent := t_sent t; t_stdout := t_stdout t; t_exited := t_exited t |}.

(** [JSON.stringify({ type: 'input', inputs: this.inputs })], as
    [JSON.parse] reads it back. *)
Definition inputMessage (i : inputs) : text :=
  Some (JObj [("type"%string, JStr "input");
              ("inputs"%string,
               JObj [("up"%string, JBool (i_up i));
                     ("down"%string, JBool (i_down i));
                     ("left"%string, JBool (i_left i));
                     ("right"%string, JBool (i_right i))])]).

Definition sendInput (t : terminal) : terminal :=
  if t_socketOpen t then
    {| t_client := t_client t; t_inputs := t_inputs t;
       t_lastRender := t_lastRender t; t_socketOpen := t_socketOpen t;
       t_releases := t_releases t;
       t_sent := t_sent t ++ [inputMessage (t_inputs t)];
       t_stdout := t_stdout t; t_exited := t_exited t |}
  else t.

(** [cleanup]: the cursor is shown again, the socket is closed and the
    process exits. *)
Definition cleanup (t : terminal) : terminal :=
  {| t_client := t_client t; t_inputs := t_inputs t;
     t_lastRender := t_lastRender t; t_socketOpen := false;
     t_releases := t_releases t; t_sent := t_sent t;
     t_stdout := t_stdout t ++ [(esc ++ "[?25h")%string]; t_exited := true |}.

(** The four [if]s of the keypress handler that set a flag. *)
Definition press (k : key) (i : inputs) : inputs :=
  let i :=
    if named k "up" || named k "w"
    then {| i_up := true; i_down := i_down i; i_left := i_left i;
            i_right := i_right i |}
    else i in
  let i :=
    if named k "down" || named k "s"
    then {| i_up := i_up i; i_down := true; i_left := i_left i;
            i_right := i_right i |}
    else i in
  let i :=
    if named k "left" || named k "a"
    then {| i_up := i_up i; i_down := i_down i; i_left := true;
            i_right := i_right i |}
    else i in
  if named k "right" || named k "d"
  then {| i_up := i_up i; i_down := i_down i; i_left := i_left i;
          i_right := true |}
  else i.

(** [process.stdin.on('keypress', ...)]; [process.exit], which [cleanup]
    calls, does not return. *)
Definition keypress (now : Z) (k : key) (t : terminal) : terminal :=
  if k_ctrl k && named k "c" then cleanup t
  else if named k "q" then cleanup t
  else
    let t1 := sendInput (with_inputs t (press k (t_inputs t))) in
    with_releases t1 (t_releases t1 ++ [now + 150]).

(** The body of the timeout of the keypress handler. *)
Definition release (t : terminal) : terminal :=
  sendInput (with_inputs t released).

(** The [n]-th pending release fires, at whatever [Date.now()] reads
    then. *)
Definition onRelease (now : Z) (n : nat) (t : terminal) : terminal :=
  match GameServer.take_nth n (t_releases t) with
  | Some (_, rest) => release (with_releases t rest)
  | None => t
  end.

(** *** render *)

Definition mapSize : number := 40%float.

Definition scale : number := (mapSize / 800)%float.

(** [l[n] = v], for an index within the array. *)
Fixpoint assign {A : Type} (n : nat) (v : A) (l : list A) : list A :=
  match n, l with
  | _, [] => []
  | O, _ :: rest => v :: rest
  | S n', a :: rest => a :: assign n' v rest
  end.

(** [if (x >= 0 && x < mapSize && y >= 0 && y < mapSize) map[y][x] = ch] *)
Definition plot (x y : number) (ch : string) (map : list (list string))
  : list (list string) :=
  if (0 <=? x)%float && (x <? mapSize)%float
     && (0 <=? y)%float && (y <? mapSize)%float
  then assign (index y) (assign (index x) ch (nth (index y) map [])) map
  else map.

Definition dot : string := "·".

(** [Array(mapSize).fill().map(() => Array(mapSize).fill('·'))] *)
Definition blank : list (list string) := repeat (repeat dot 40) 40.

Definition drawCoin (map : list (list string)) (c : coin)
  : list (list string) :=
  plot (Math_floor (c_x c * scale)%float) (Math_floor (c_y c * scale)%float)
    "$" map.

(** [player.id === this.myPlayerId] *)
Definition isMe (me : option Z) (p : playerView) : bool :=
  match me with
  | Some id => v_id p =? id
  | None => false
  end.

Definition drawPlayer (me : option Z) (map : list (list string))
  (p : playerView) : list (list string) :=
  plot (Math_floor (v_x p * scale)%float) (Math_floor (v_y p * scale)%float)
    (if isMe me p then "@" else "P") map.

(** The array [map] after the two drawing loops. *)
Definition picture (me : option Z) (state : renderState)
  : list (list string) :=
  fold_left (drawPlayer me) (r_players state)
    (fold_left drawCoin (r_coins state) blank).

(** [s.repeat(n)] *)
Fixpoint repeatString (s : string) (n : nat) : string :=
  match n with
  | O => EmptyString
  | S n' => (s ++ repeatString s n')%string
  end.

Definition rowLine (row : list string) : string :=
  ("│" ++ String.concat EmptyString row ++ "│" ++ nl)%string.

Definition scoreLine (me : option Z) (p : playerView) : string :=
  ("  Player " ++ toString (v_id p) ++ ": " ++ toString (v_score p)
   ++ (if isMe me p then " ← YOU" else EmptyString) ++ nl)%string.

(** The string [output] that [render] builds. *)
Definition output (me : option Z) (state : renderState) : string :=
  ("┌" ++ repeatString "─" 40 ++ "┐" ++ nl
   ++ String.concat EmptyString (map rowLine (picture me state))
   ++ "└" ++ repeatString "─" 40 ++ "┘" ++ nl
   ++ nl ++ "SCORES:" ++ nl
   ++ String.concat EmptyString (map (scoreLine me) (r_players state))
   ++ nl ++ "Controls: W/A/S/D or Arrow Keys | Q to Quit")%string.

Definition render (state : renderState) (t : terminal) : terminal :=
  let out := output (myPlayerId (t_client t)) state in
  if negb (String.eqb out (t_lastRender t)) then
    {| t_client := t_client t; t_inputs := t_inputs t; t_lastRender := out;
       t_socketOpen := t_socketOpen t; t_releases := t_releases t;
       t_sent := t_sent t;
       t_stdout := t_stdout t ++ [(esc ++ "[H" ++ esc ++ "[2J")%string; out];
       t_exited := t_exited t |}
  else t.

(** *** startRenderLoop *)

(** The body of the interval: a state without players is not rendered. *)
Definition onRenderTick (now : Z) (t : terminal) : terminal :=
  let state := interpolateState now (t_client t) in
  match r_players state with
  | [] => t
  | _ :: _ => render state t
  end.

(** *** connect *)

(** [this.ws.on('open')] *)
Definition onOpen (t : terminal) : terminal :=
  {| t_client := t_client t; t_inputs := t_inputs t;
     t_lastRender := t_lastRender t; t_socketOpen := true;
     t_releases := t_releases t; t_sent := t_sent t; t_stdout := t_stdout t;
     t_exited := t_exited t |}.

(** [this.ws.on('message')] *)
Definition onFrame (now : Z) (message : frame) (t : terminal) : terminal :=
  with_client t (handleMessage now message (t_client t)).

(** *** The callbacks of the event loop *)

Inductive clientEvent :=
| Keypress (now : Z) (k : key)
| ReleaseFires (now : Z) (n : nat)
| SocketOpens
| FrameArrives (now : Z) (message : frame)
| SocketCloses
| SocketFails
| RenderTick (now : Z).

(** One callback; nothing runs once the process has exited. *)
Definition clientStep (e : clientEvent) (t : terminal) : terminal :=
  if t_exited t then t
  else
    match e with
    | Keypress now k => keypress now k t
    | ReleaseFires now n => onRelease now n t
    | SocketOpens => onOpen t
    | FrameArrives now message => onFrame now message t
    | SocketCloses => cleanup t
    | SocketFails => cleanup t
    | RenderTick now => onRenderTick now t
    end.

Definition play (es : list clientEvent) (t : terminal) : terminal :=
  fold_left (fun t e => clientStep e t) es t.

End GameClient.

(** * Vocabulary of the statements *)

Import GameServer.

(** ** Numbers *)

(** A number that is neither NaN nor an infinity. *)
Definition SFfinite (a : spec_float) : bool :=
  match a with
  | S754_zero _ | S754_finite _ _ _ => true
  | _ => false
  end.

(** [0 <= a <= MAP_SIZE - PLAYER_SIZE] *)
Definition inBounds (a : number) : Prop :=
  (0 <=? a)%float = true /\ (a <=? MAP_SIZE - PLAYER_SIZE)%float = true.

(** [x] is between [a] and [b], whichever is larger. *)
Definition between (a b x : number) : bool :=
  ((a <=? x) && (x <=? b))%float || ((b <=? x) && (x <=? a))%float.

(** The length of a displacement. *)
Definition magnitude (d : number * number) : number :=
  PrimFloat.sqrt (fst d * fst d + snd d * snd d)%float.

(** Equality of numbers within [2^-50], which is below [1e-15]. *)
Definition within_tolerance (a b : number) : bool :=
  (abs (a - b) <=? 0x1p-50)%float.

(** What the second half of [binary_round_aux] builds from a rounded
    mantissa [m] at exponent [e]. *)
Definition pack (m e : Z) : spec_float :=
  let '(mrs, e') := shr_fexp prec emax m e loc_Exact in
  match shr_m mrs with
  | Z0 => S754_zero false
  | Zpos p => if e' <=? emax - prec then S754_finite false p e'
              else S754_infinity false
  | Zneg _ => S754_nan
  end.

(** A positive number that is at most one: its exponent is below that of
    one, or it is one. *)
Definition atMostOne (a : spec_float) : Prop :=
  exists m e,
    a = S754_finite false m e
    /\ (e < -52 \/ (e = -52 /\ Zpos m = 2 ^ 52)).

(** [P * 2^ex <= M * 2^E], with both sides scaled to integers. *)
Definition leq_val (P ex M E : Z) : Prop :=
  P * 2 ^ (ex - Z.min ex E) <= M * 2 ^ (E - Z.min ex E).

(** A number that is zero, or positive and at most [M * 2^E]: its exponent
    is below [E], or it is [E] and the mantissa is at most [M]. *)
Definition atMost (M E : Z) (a : spec_float) : Prop :=
  a = S754_zero false \/ a = S754_zero true
  \/ exists m e,
      a = S754_finite false m e
      /\ (e < E \/ (e = E /\ Zpos m <= M))
      /\ -1074 <= e /\ Zpos m < 2 ^ 53.

(** A result of [Math.random()]: at least 0 and below 1. *)
Definition inUnit (r : number) : Prop :=
  (0 <=? r)%float = true /\ (r <? 1)%float = true.

Definition unitDraw (rx ry : number) : Prop := inUnit rx /\ inUnit ry.

(** [0 <= a <= MAP_SIZE - COIN_SIZE] *)
Definition inCoinBounds (a : number) : Prop :=
  (0 <=? a)%float = true /\ (a <=? MAP_SIZE - COIN_SIZE)%float = true.

(** What is left of the mantissa [P] after [k] bits were shifted out of it:
    the mantissa [shr_m], the last bit shifted out, [shr_r], and whether a
    one was shifted out before it, [shr_s]. [rem] is twice what the bits
    shifted out before the last are worth. *)
Definition shifted (P k : Z) (mrs : shr_record) : Prop :=
  0 <= shr_m mrs
  /\ exists rem,
       0 <= rem < 2 ^ k
       /\ 2 * P
          = 2 * shr_m mrs * 2 ^ k + (if shr_r mrs then 2 ^ k else 0) + rem
       /\ (shr_s mrs = true <-> 0 < rem).

(** [N] is the integer nearest to [P / 2^k], and the even one of the two
    when [P / 2^k] is half way between two integers. *)
Definition nearestEven (P k N : Z) : Prop :=
  0 <= N
  /\ 2 * N * 2 ^ k - 2 ^ k <= 2 * P <= 2 * N * 2 ^ k + 2 ^ k
  /\ (2 * P = 2 * N * 2 ^ k - 2 ^ k \/ 2 * P = 2 * N * 2 ^ k + 2 ^ k ->
      Z.even N = true).

(** A rounded mantissa [N] at the exponent [E] of the format: at most
    [2^53], and at least [2^52] unless [E] is the least exponent. *)
Definition roundedPair (N E : Z) : Prop :=
  0 <= N <= 2 ^ 53 /\ -1074 <= E /\ (E = -1074 \/ 2 ^ 52 <= N).

(** A number that is not negative: a zero with the sign of the positive
    numbers, a positive number, or the positive infinity. *)
Definition SFnonneg (a : spec_float) : Prop :=
  a = S754_zero false \/ (exists m e, a = S754_finite false m e)
  \/ a = S754_infinity false.

(** The value of a finite number, as a signed mantissa and an exponent. *)
Definition valueOf (a : spec_float) : Z * Z :=
  match a with
  | S754_finite s m e => (cond_Zopp s (Zpos m), e)
  | _ => (0, 0)
  end.

(** [u <= v], as values. *)
Definition valueLe (u v : Z * Z) : Prop :=
  leq_val (fst u) (snd u) (fst v) (snd v).

(** The exact sum and the exact product of two values. *)
Definition addValue (u v : Z * Z) : Z * Z :=
  let k := Z.min (snd u) (snd v) in
  (fst u * 2 ^ (snd u - k) + fst v * 2 ^ (snd v - k), k).

Definition mulValue (u v : Z * Z) : Z * Z :=
  (fst u * fst v, snd u + snd v).

(** The same number, up to the sign of a zero. *)
Definition sameNumber (a b : spec_float) : Prop :=
  a = b \/ exists s s', a = S754_zero s /\ b = S754_zero s'.

(** [a] is the value [u] rounded to the format. *)
Definition represents (a : spec_float) (u : Z * Z) : Prop :=
  sameNumber a (binary_normalize prec emax (fst u) (snd u) false).

(** A zero or a finite number of the format. *)
Definition SFnumber (a : spec_float) : Prop :=
  SFfinite a = true /\ valid_binary a = true.

(** The opposite of a value. *)
Definition oppValue (v : Z * Z) : Z * Z := (- fst v, snd v).

(** [a] and [b] are not negative, and neither is more than twice the
    other. *)
Definition withinFactorTwo (a b : number) : bool :=
  ((0 <=? a) && (a <=? 2 * b) && (0 <=? b) && (b <=? 2 * a))%float.

(** [x] is within the step from [b] to [a], a step that is finite: between
    [b] and [b + (a - b)], the end of the step as the code computes it; and
    so between [b] and [a] when that end is [a], as it is when [a] and [b]
    are not negative and neither is more than twice the other. *)
Definition withinStep (b a x : number) : Prop :=
  SFfinite (Prim2SF (a - b)) = true ->
  between b (b + (a - b))%float x = true
  /\ ((b + (a - b))%float = a -> between b a x = true)
  /\ (withinFactorTwo a b = true -> between b a x = true).

(** ** Players and coins *)

Definition positionIsNumber (p : player) : Prop :=
  isNaN (p_x p) = false /\ isNaN (p_y p) = false.

Definition positionInBounds (p : player) : Prop :=
  inBounds (p_x p) /\ inBounds (p_y p).

(** The position of every player is a number. *)
Definition numbersOnly (s : server) : Prop :=
  Forall (fun kp => positionIsNumber (snd kp)) (players s).

(** [p] with [k] added to its score. *)
Definition add_score (p : player) (k : Z) : player :=
  {| p_id := p_id p; p_x := p_x p; p_y := p_y p; p_score := p_score p + k;
     p_color := p_color p; p_inputs := p_inputs p |}.

Definition misses (p : player) (c : coin) : bool := negb (overlaps p c).

(** How many of the coins [cs] the box of [p] overlaps. *)
Definition hits (p : player) (cs : list coin) : Z :=
  Z.of_nat (List.length (filter (overlaps p) cs)).

(** How many coins of [cs] satisfy [f]. *)
Definition count (f : coin -> bool) (cs : list coin) : Z :=
  Z.of_nat (List.length (filter f cs)).

(** The key of the first player, in the order of the map, whose box
    overlaps [c]. *)
Definition winner (m : playerMap) (c : coin) : option Z :=
  option_map fst (find (fun kp => overlaps (snd kp) c) m).

Definition wonBy (m : playerMap) (k : Z) (c : coin) : bool :=
  match winner m c with
  | Some k' => k' =? k
  | None => false
  end.

Definition unclaimed (m : playerMap) (c : coin) : bool :=
  match winner m c with
  | Some _ => false
  | None => true
  end.

(** The loop over the players, when no read of [player.inputs] throws. *)
Fixpoint sweep (todo : playerMap) (cs : list coin)
  : option (playerMap * list coin) :=
  match todo with
  | [] => Some ([], cs)
  | (k, p) :: rest =>
      match readFlags (p_inputs p) with
      | None => None
      | Some flags =>
          let q := move p (displacement flags) in
          match sweep rest (filter (misses q) cs) with
          | Some (qs, cs') => Some ((k, add_score q (hits q cs)) :: qs, cs')
          | None => None
          end
      end
  end.

(** [kp'] is [kp] after a tick: the same key, and a score no lower. *)
Definition ticked (kp kp' : Z * player) : Prop :=
  fst kp' = fst kp /\ p_score (snd kp) <= p_score (snd kp').

(** [kp'] is the entry [kp] with, at most, another position and another
    score. *)
Definition samePlayer (kp kp' : Z * player) : Prop :=
  fst kp' = fst kp
  /\ p_id (snd kp') = p_id (snd kp)
  /\ p_color (snd kp') = p_color (snd kp)
  /\ p_inputs (snd kp') = p_inputs (snd kp).

(** [kp'] is the entry [kp] with, at most, other stored inputs, and with
    the same ones when its key is not [k]. *)
Definition sameButInputs (k : Z) (kp kp' : Z * player) : Prop :=
  fst kp' = fst kp
  /\ p_id (snd kp') = p_id (snd kp)
  /\ p_x (snd kp') = p_x (snd kp)
  /\ p_y (snd kp') = p_y (snd kp)
  /\ p_score (snd kp') = p_score (snd kp)
  /\ p_color (snd kp') = p_color (snd kp)
  /\ (fst kp <> k -> p_inputs (snd kp') = p_inputs (snd kp)).

(** The sum of the scores of the players of [m]. *)
Definition totalScore (m : playerMap) : Z :=
  fold_right (fun kp acc => p_score (snd kp) + acc) 0 m.

(** The corner of the coin is within [0, MAP_SIZE - COIN_SIZE] on both
    axes. *)
Definition coinInMap (c : coin) : Prop :=
  inCoinBounds (c_x c) /\ inCoinBounds (c_y c).

(** ** Runs of the server *)

Definition keys (m : playerMap) : list Z := map fst m.

(** What holds of the [GameServer] object at every point of a run: the map
    has one entry per key, every key was allocated before [nextPlayerId], no
    score is negative, a game that has not started has at most one player
    and no coin, and at most five coins are live. *)
Definition wellFormed (s : server) : Prop :=
  NoDup (keys (players s))
  /\ Forall (fun kp => fst kp < nextPlayerId s /\ 0 <= p_score (snd kp))
       (players s)
  /\ (gameStarted s = false ->
      (List.length (players s) <= 1)%nat /\ coins s = [])
  /\ (List.length (coins s) <= 5)%nat.

(** Closes an equation between two results of the collision loop that
    differ in the way the score is written. *)
Ltac same_score :=
  match goal with
  | |- Some (add_score _ ?a, _) = Some (add_score _ ?b, _) =>
      replace a with b by lia; reflexivity
  end.

(** Splits a goal [wellFormed s] into its four parts. *)
Ltac wf_split := refine (conj _ (conj _ (conj _ _))); simpl.

(** The value of [Date.now()] when the event is handled. *)
Definition eventTime (e : event) : Z :=
  match e with
  | Connection now _ _ _ _ _ => now
  | Message now _ _ => now
  | Close now _ => now
  | Tick now => now
  | CoinTimer now _ _ => now
  | TimerFires now _ => now
  end.

(** At some point of the run from [boot now0] through [es], two players or
    more were registered. *)
Definition everTwo (now0 : Z) (es : list event) : Prop :=
  exists es1 es2 w1,
    es = es1 ++ es2
    /\ run es1 (boot now0) = Normal w1
    /\ (2 <= List.length (players (srv w1)))%nat.

(** Players only gain points, and a key is not given twice: a player of
    [s'] whose key was allocated before [s] was there in [s], with a score
    no higher. *)
Definition scoresGrow (s s' : server) : Prop :=
  nextPlayerId s <= nextPlayerId s'
  /\ forall k p',
      k < nextPlayerId s -> map_get k (players s') = Some p' ->
      exists p, map_get k (players s) = Some p /\ p_score p <= p_score p'.

(** What one event, handled at time [now], can do to the [GameServer]
    object; [ok] is what is known of the two numbers [Math.random()] gives
    for the position of a new player. *)
Inductive serverStep (ok : number -> number -> Prop) (now : Z) (s : server)
  : server -> Prop :=
| ss_same : serverStep ok now s s
| ss_register rx ry color cx cy :
    ok rx ry -> serverStep ok now s (register now rx ry color cx cy s)
| ss_leave k : serverStep ok now s (set_players s (map_delete k (players s)))
| ss_update : gameStarted s = true -> serverStep ok now s (outcome (update s))
| ss_coin rx ry : serverStep ok now s (onCoinTimer now rx ry s)
| ss_input k player v :
    map_get k (players s) = Some player ->
    serverStep ok now s
      (set_players s (map_set k (set_inputs player v) (players s))).

(** The numbers drawn for the position of a new player satisfy [ok]. *)
Definition drawsSatisfy (ok : number -> number -> Prop) (e : event) : Prop :=
  match e with
  | Connection _ rx ry _ _ _ => ok rx ry
  | _ => True
  end.

Definition anyDraw (rx ry : number) : Prop := True.

(** [Math.random()] gives a number that is neither NaN nor an infinity. *)
Definition finiteDraw (rx ry : number) : Prop :=
  SFfinite (Prim2SF rx) = true /\ SFfinite (Prim2SF ry) = true.

(** A frame that does not list the coin [c]. *)
Definition frameLacks (c : coin) (cf : Z * frame) : Prop :=
  match snd cf with
  | InitFrame _ _ => True
  | StateFrame _ _ cs => ~ In c cs
  end.

Definition isConnection (e : event) : bool :=
  match e with
  | Connection _ _ _ _ _ _ => true
  | _ => false
  end.

(** How many connections the run [es] accepts. *)
Definition connections (es : list event) : Z :=
  Z.of_nat (List.length (filter isConnection es)).

(** The numbers drawn for the position of a new coin satisfy [ok]. *)
Definition coinDrawsSatisfy (ok : number -> number -> Prop) (e : event)
  : Prop :=
  match e with
  | Connection _ _ _ _ cx cy => ok cx cy
  | CoinTimer _ rx ry => ok rx ry
  | _ => True
  end.

(** Every player is stored under its id, and ids start at 1. *)
Definition identified (s : server) : Prop :=
  1 <= nextPlayerId s
  /\ Forall (fun kp => p_id (snd kp) = fst kp /\ 1 <= fst kp) (players s).

(** A frame for the socket [conn]: an init frame carries the id of the
    socket, and a state frame lists the player of the socket, and no id
    twice. *)
Definition addressed (conn : Z) (f : frame) : Prop :=
  match f with
  | InitFrame playerId pl => playerId = conn /\ v_id pl = conn
  | StateFrame _ pls _ => In conn (map v_id pls) /\ NoDup (map v_id pls)
  end.

(** A pending timeout that sends a state is due [NETWORK_LATENCY] after the
    timestamp of that state, and what a timeout sends is addressed to its
    socket. *)
Definition scheduled (t : timer) : Prop :=
  match job t with
  | SendTask conn (InitMessage playerId pl) => playerId = conn /\ v_id pl = conn
  | SendTask conn (StateMessage ts pls _) =>
      due t = ts + NETWORK_LATENCY
      /\ In conn (map v_id pls) /\ NoDup (map v_id pls)
  | ReceiveTask _ _ => True
  end.

(** What holds of the process at every point of a run, besides
    [wellFormed]: the players are stored under their ids, and the pending
    timeouts and the frames written are addressed to their sockets. *)
Definition orderly (w : world) : Prop :=
  wellFormed (srv w) /\ identified (srv w)
  /\ Forall scheduled (timers w)
  /\ Forall (fun cf => addressed (fst cf) (snd cf)) (written w).

(** A state frame written at time [now] is at least [age] old. *)
Definition aged (age now : Z) (cf : Z * frame) : Prop :=
  match snd cf with
  | InitFrame _ _ => True
  | StateFrame ts _ _ => ts + age <= now
  end.

(** The timeout that [e] fires, when it fires one, runs at most [slack]
    milliseconds before it is due by the clock of [Date.now()]. *)
Definition punctual (slack : Z) (e : event) (w : world) : Prop :=
  match e with
  | TimerFires now n =>
      match take_nth n (timers w) with
      | Some (t, _) => due t - slack <= now
      | None => True
      end
  | _ => True
  end.

(** Every timeout of the run is [punctual]. *)
Fixpoint timely (slack : Z) (es : list event) (w : world) : Prop :=
  match es with
  | [] => True
  | e :: rest => punctual slack e w /\ timely slack rest (outcome (step e w))
  end.

(** Every close is that of a socket that is open. *)
Fixpoint closesOpen (es : list event) (w : world) : Prop :=
  match es with
  | [] => True
  | e :: rest =>
      match e with
      | Close _ k => isOpen k w = true
      | _ => True
      end
      /\ closesOpen rest (outcome (step e w))
  end.

Definition isInitFrame (cf : Z * frame) : Prop :=
  match snd cf with
  | InitFrame _ _ => True
  | StateFrame _ _ _ => False
  end.

Definition sendsNoState (t : timer) : Prop :=
  match job t with
  | SendTask _ (StateMessage _ _ _) => False
  | _ => True
  end.

(** What holds of the process while the game has not started: the players
    are those of the open sockets, and no state message was scheduled or
    written. *)
Definition waiting (w : world) : Prop :=
  wellFormed (srv w)
  /\ keys (players (srv w)) = openSockets w
  /\ Forall sendsNoState (timers w)
  /\ Forall isInitFrame (written w).

(** ** The client buffer *)

(** The client buffer is in non-decreasing order of timestamp. *)
Definition sortedByTimestamp (states : list GameClient.snapshot) : Prop :=
  StronglySorted
    (fun a b => GameClient.timestamp a <= GameClient.timestamp b) states.

(** The snapshot that arrived last, as [interpolateState] returns it when it
    does not interpolate. *)
Definition newest (states : list GameClient.snapshot)
  : GameClient.renderState :=
  match rev states with
  | s :: _ => GameClient.ofSnapshot s
  | [] => GameClient.emptyState
  end.

(** What [interpolateState] makes of the player [p] of [before]: [p]
    itself when no player of [after] has its id, and else a player whose
    coordinates are within the step from those of [p] to those of the
    first such player of [after]. *)
Definition interpolated (after : GameClient.snapshot) (p r : playerView)
  : Prop :=
  match GameClient.findPlayer (v_id p) (GameClient.players after) with
  | Some q =>
      withinStep (v_x p) (v_x q) (v_x r) /\ withinStep (v_y p) (v_y q) (v_y r)
  | None => r = p
  end.

(** ** Server and client together *)

(** The frames that [w'] has and [w] had not. *)
Definition newFrames (w w' : world) : list (Z * frame) :=
  skipn (List.length (written w)) (written w').

(** The client of the socket [k] handles, at time [now], those of the
    frames [fs] that are written to its socket. *)
Definition deliver (k now : Z) (fs : list (Z * frame))
  (c : GameClient.client) : GameClient.client :=
  fold_left
    (fun c cf =>
       if fst cf =? k then GameClient.handleMessage now (snd cf) c else c)
    fs c.

(** The server and the client of the socket [k] on one clock: the client
    handles every frame [transit] milliseconds after the server wrote
    it. *)
Fixpoint session (k transit : Z) (es : list event) (w : world)
  (c : GameClient.client) : GameClient.client :=
  match es with
  | [] => c
  | e :: rest =>
      let c' :=
        deliver k (eventTime e + transit)
          (newFrames w (outcome (step e w))) c in
      match step e w with
      | Normal w' => session k transit rest w' c'
      | Throw _ _ => c'
      end
  end.

(** The flags of [i], as the tick reads them. *)
Definition flagsOf (i : GameClient.inputs) : bool * bool * bool * bool :=
  (GameClient.i_up i, GameClient.i_down i, GameClient.i_left i,
   GameClient.i_right i).

(** ** The client process *)

(** What the client process keeps while it runs: every flag is clear when
    no release is pending; the last frame sent, if any, carries the inputs
    as they are; and nothing was sent before the socket opened. *)
Definition settled (t : GameClient.terminal) : Prop :=
  (GameClient.t_releases t = [] -> GameClient.t_inputs t = GameClient.released)
  /\ (GameClient.t_sent t = []
      \/ last (GameClient.t_sent t) None
         = GameClient.inputMessage (GameClient.t_inputs t))
  /\ (GameClient.t_socketOpen t = false -> GameClient.t_sent t = []).

(** The symbol in row [r] and column [c] of a map. *)
Definition cell (r c : nat) (m : list (list string)) : string :=
  nth c (nth r m []) EmptyString.

(** A map of [n] rows of [n] symbols. *)
Definition square (n : nat) (m : list (list string)) : Prop :=
  List.length m = n /\ Forall (fun row => List.length row = n) m.

(** [render] plots the entity at ([x], [y]) in row [r] and column [c] of
    the map. *)
Definition drawnAt (x y : number) (r c : nat) : bool :=
  let cx := Math_floor (x * GameClient.scale)%float in
  let cy := Math_floor (y * GameClient.scale)%float in
  (0 <=? cx)%float && (cx <? GameClient.mapSize)%float
  && (0 <=? cy)%float && (cy <? GameClient.mapSize)%float
  && (index cy =? r)%nat && (index cx =? c)%nat.

(** * States used in the worked examples *)

(** The object [{up, down, left, right}] a client sends. *)
Definition intent (up down lft rgt : bool) : jsval :=
  Some (JObj [("up"%string, JBool up); ("down"%string, JBool down);
              ("left"%string, JBool lft); ("right"%string, JBool rgt)]).

(** A started game: player 1 next to the right and top walls, moving up and
    to the right; player 2 at rest; no coin. *)
Definition cornerPlayer : player :=
  {| p_id := 1; p_x := 769%float; p_y := 1%float; p_score := 0;
     p_color := "hsl(10, 70%, 60%)";
     p_inputs := intent true false false true |}.

Definition restingPlayer : player :=
  {| p_id := 2; p_x := 400%float; p_y := 300%float; p_score := 0;
     p_color := "hsl(200, 70%, 60%)";
     p_inputs := intent false false false false |}.

Definition cornerGame : server :=
  {| players := [(1, cornerPlayer); (2, restingPlayer)]; coins := [];
     nextPlayerId := 3; gameStarted := true; lastCoinSpawn := 0 |}.

Definition cornerGameNext : server :=
  {| players := [(1, set_position cornerPlayer 770%float 0%float);
                 (2, restingPlayer)];
     coins := []; nextPlayerId := 3; gameStarted := true; lastCoinSpawn := 0 |}.

(** A snapshot with no player and no coin. *)
Definition bareSnapshot (ts : Z) : GameClient.snapshot :=
  {| GameClient.timestamp := ts; GameClient.players := [];
     GameClient.coins := [] |}.

Definition playerA (x y : number) (score : Z) : playerView :=
  {| v_id := 1; v_x := x; v_y := y; v_score := score;
     v_color := "hsl(10, 70%, 60%)" |}.

(** Player A at (0, 0) at time 0 and at (10, 0) at time 100. *)
Definition twoSnapshots : GameClient.client :=
  {| GameClient.myPlayerId := Some 1;
     GameClient.serverStates :=
       [ {| GameClient.timestamp := 0;
            GameClient.players := [playerA 0%float 0%float 0];
            GameClient.coins := [] |};
         {| GameClient.timestamp := 100;
            GameClient.players := [playerA 10%float 0%float 0];
            GameClient.coins := [] |} ] |}.

Definition aCoin : coin := {| c_id := 7; c_x := 200%float; c_y := 200%float |}.

(** Three snapshots at times 40, 50 and 60; the coin is collected between
    the last two. *)
Definition threeSnapshots : GameClient.client :=
  {| GameClient.myPlayerId := Some 1;
     GameClient.serverStates :=
       [ {| GameClient.timestamp := 40;
            GameClient.players := [playerA 0%float 0%float 0];
            GameClient.coins := [aCoin] |};
         {| GameClient.timestamp := 50;
            GameClient.players := [playerA 3%float 0%float 0];
            GameClient.coins := [aCoin] |};
         {| GameClient.timestamp := 60;
            GameClient.players := [playerA 6%float 0%float 1];
            GameClient.coins := [] |} ] |}.

(** Player A at x = 600.46... at time 0 and at x = 213.85... at time 100:
    two coordinates of the map, more than a factor of two apart. *)
Definition acrossTheMap : GameClient.client :=
  {| GameClient.myPlayerId := Some 1;
     GameClient.serverStates :=
       [ {| GameClient.timestamp := 0;
            GameClient.players :=
              [playerA 0x1.2c3bfeb3ff610p+9%float 0%float 0];
            GameClient.coins := [] |};
         {| GameClient.timestamp := 100;
            GameClient.players :=
              [playerA 0x1.abb475946790dp+7%float 0%float 0];
            GameClient.coins := [] |} ] |}.

(** Two connections: player 1 at (385, 385), then player 2 at
    (192.5, 192.5); the game starts with a coin at (390, 390), under
    player 1. *)
Definition firstJoins : event :=
  Connection 10 0.5%float 0.5%float "hsl(10, 70%, 60%)" 0.5%float 0.5%float.

Definition secondJoins : event :=
  Connection 20 0.25%float 0.25%float "hsl(200, 70%, 60%)" 0.5%float 0.5%float.

Definition lobby : world :=
  Eval vm_compute in outcome (run [firstJoins] (boot 0)).

Definition kickoff : world :=
  Eval vm_compute in outcome (run [firstJoins; secondJoins] (boot 0)).

Definition afterFirstTick : world :=
  Eval vm_compute in outcome (run [firstJoins; secondJoins; Tick 36] (boot 0)).

(** An input message whose [right] field is a string. *)
Definition sloppyInput : text :=
  Some (JObj [("type"%string, JStr "input");
              ("inputs"%string, JObj [("right"%string, JStr "yes")])]).

(** The input message of a client that holds the right arrow. *)
Definition rightInput : text :=
  Some (JObj [("type"%string, JStr "input");
              ("inputs"%string,
               JObj [("up"%string, JBool false); ("down"%string, JBool false);
                     ("left"%string, JBool false);
                     ("right"%string, JBool true)])]).

(** An input message with no [inputs] field. *)
Definition emptyInput : text := Some (JObj [("type"%string, JStr "input")]).

(** A run in which the game starts at 2990, the tick of 3000 builds a
    snapshot, the coin timer of 3000 spawns a second coin, and the snapshot
    is delivered to player 1 at 3180. *)
Definition upToSnapshot : list event :=
  [ Connection 100 0.5%float 0.5%float "hsl(10, 70%, 60%)" 0.5%float 0.5%float;
    TimerFires 280 0;
    Connection 2990 0.25%float 0.25%float "hsl(200, 70%, 60%)"
      0.75%float 0.75%float;
    Tick 3000 ].

Definition upToDelivery : list event :=
  upToSnapshot
  ++ [ CoinTimer 3000 0.125%float 0.125%float;
       Tick 3017; Tick 3033; Tick 3050; Tick 3067; Tick 3083; Tick 3100;
       Tick 3117; Tick 3133; Tick 3150; Tick 3167;
       TimerFires 3170 0;
       TimerFires 3180 0 ].

(** Player A at (1, 0) at time 0 and at (2^-54, 0) at time 100. *)
Definition farApart : GameClient.client :=
  {| GameClient.myPlayerId := Some 1;
     GameClient.serverStates :=
       [ {| GameClient.timestamp := 0;
            GameClient.players := [playerA 1%float 0%float 0];
            GameClient.coins := [] |};
         {| GameClient.timestamp := 100;
            GameClient.players := [playerA 0x1p-54%float 0%float 0];
            GameClient.coins := [] |} ] |}.

(** The up arrow. *)
Definition upKey : GameClient.key :=
  {| GameClient.k_name := Some "up"%string; GameClient.k_ctrl := false |}.

(** The socket opens, the up arrow is pressed at time 0, and its release
    fires at 150. *)
Definition tapUp : list GameClient.clientEvent :=
  [ GameClient.SocketOpens; GameClient.Keypress 0 upKey;
    GameClient.ReleaseFires 150 0 ].

(** A state to render: player 1 at (20, 40) on a coin, player 2 in the far
    corner, and a second coin at (100, 0). *)
Definition board : GameClient.renderState :=
  {| GameClient.r_timestamp := None;
     GameClient.r_players :=
       [ {| v_id := 1; v_x := 20%float; v_y := 40%float; v_score := 3;
            v_color := "hsl(10, 70%, 60%)" |};
         {| v_id := 2; v_x := 770%float; v_y := 770%float; v_score := 0;
            v_color := "hsl(200, 70%, 60%)" |} ];
     GameClient.r_coins :=
       [ {| c_id := 5; c_x := 25%float; c_y := 45%float |};
         {| c_id := 6; c_x := 100%float; c_y := 0%float |} ] |}.

(** A client process that holds the two snapshots of [twoSnapshots]. *)
Definition watching : GameClient.terminal :=
  GameClient.with_client GameClient.start twoSnapshots.

(** The run of [upToSnapshot], in which the snapshot of 3000 is written
    to player 1 at 3179, one millisecond before its timeout is due. *)
Definition earlyDelivery : list event :=
  upToSnapshot ++ [ TimerFires 3170 0; TimerFires 3179 0 ].

(** One player joins, gets its init frame, and leaves. *)
Definition aloneThenGone : list event :=
  [ firstJoins; TimerFires 190 0; Close 200 1 ].

(** * Facts about binary64 *)

Section Binary64.

Lemma SFcompare_refl (a : spec_float) :
  a <> S754_nan -> SFcompare a a = Some Eq.
Proof.
  destruct a as [s|s| |s m e]; simpl; intros H; try congruence.
  - destruct s; reflexivity.
  - rewrite Z.compare_refl.
    assert (Hm : Pos.compare_cont Eq m m = Eq) by apply Pos.compare_cont_refl.
    destruct s; rewrite Hm; reflexivity.
Qed.

Lemma isNaN_spec (a : number) : isNaN a = true <-> Prim2SF a = S754_nan.
Proof.
  unfold isNaN. rewrite eqb_spec. unfold SFeqb.
  split.
  - intros H. destruct (Prim2SF a) eqn:E; try reflexivity;
      rewrite SFcompare_refl in H by congruence; discriminate.
  - intros ->. reflexivity.
Qed.

Lemma isNaN_false (a : number) : isNaN a = false <-> Prim2SF a <> S754_nan.
Proof.
  rewrite <- isNaN_spec. destruct (isNaN a); split; congruence.
Qed.

Lemma ltb_leb (a b : number) :
  (a <? b)%float = true -> (a <=? b)%float = true.
Proof.
  rewrite ltb_spec, leb_spec. unfold SFltb, SFleb.
  destruct (SFcompare (Prim2SF a) (Prim2SF b)) as [[ | | ]|]; congruence.
Qed.

Lemma leb_not_nan_l (a b : number) :
  (a <=? b)%float = true -> isNaN a = false.
Proof.
  rewrite leb_spec. intros H. apply isNaN_false. intros E. rewrite E in H.
  discriminate.
Qed.

(** Rounding a non-negative mantissa never gives NaN. *)

Lemma shr_1_nonneg (mrs : shr_record) :
  0 <= shr_m mrs -> 0 <= shr_m (shr_1 mrs).
Proof.
  destruct mrs as [m r s]. simpl.
  destruct m as [|p|p]; simpl; try lia; destruct p; simpl; lia.
Qed.

Lemma iter_pos_shr_1_nonneg (n : positive) :
  forall mrs, 0 <= shr_m mrs -> 0 <= shr_m (iter_pos shr_1 n mrs).
Proof.
  induction n as [n IH|n IH|]; intros mrs H; simpl.
  - apply IH, IH, shr_1_nonneg, H.
  - apply IH, IH, H.
  - apply shr_1_nonneg, H.
Qed.

Lemma shr_m_record_of_loc (m : Z) (l : location) :
  shr_m (shr_record_of_loc m l) = m.
Proof. destruct l as [|[ | | ]]; reflexivity. Qed.

Lemma shr_fexp_nonneg (m e : Z) (l : location) :
  0 <= m -> 0 <= shr_m (fst (shr_fexp prec emax m e l)).
Proof.
  intros H. unfold shr_fexp, shr.
  destruct (fexp prec emax (Zdigits2 m + e) - e) as [|n|n]; simpl;
    rewrite ?shr_m_record_of_loc; auto.
  apply iter_pos_shr_1_nonneg. rewrite shr_m_record_of_loc. exact H.
Qed.

Lemma round_nearest_even_nonneg (m : Z) (l : location) :
  0 <= m -> 0 <= round_nearest_even m l.
Proof.
  intros H. destruct l as [|[ | | ]]; simpl; try lia.
  destruct (Z.even m); lia.
Qed.

Lemma binary_round_aux_not_nan (sx : bool) (mx ex : Z) (lx : location) :
  0 <= mx -> binary_round_aux prec emax sx mx ex lx <> S754_nan.
Proof.
  intros H. unfold binary_round_aux.
  pose proof (shr_fexp_nonneg mx ex lx H) as H1.
  destruct (shr_fexp prec emax mx ex lx) as [mrs' e'] eqn:E1. simpl in H1.
  pose proof (shr_fexp_nonneg _ e' loc_Exact
                (round_nearest_even_nonneg _ (loc_of_shr_record mrs') H1))
    as H2.
  destruct (shr_fexp prec emax _ e' loc_Exact) as [mrs'' e''] eqn:E2.
  simpl in H2.
  destruct (shr_m mrs'') as [|m|m]; try discriminate; try lia.
  destruct (e'' <=? emax - prec); discriminate.
Qed.

Lemma binary_normalize_not_nan (m e : Z) (sz : bool) :
  binary_normalize prec emax m e sz <> S754_nan.
Proof.
  destruct m as [|p|p]; simpl; try discriminate; unfold binary_round;
    destruct (shl_align _ _ _) as [mz ez];
    apply binary_round_aux_not_nan; lia.
Qed.

Lemma SFadd_not_nan (a d : spec_float) :
  a <> S754_nan -> SFfinite d = true -> SF64add a d <> S754_nan.
Proof.
  intros Ha Hd. unfold SF64add, SFadd.
  destruct a as [sa|sa| |sa ma ea]; try congruence;
    destruct d as [sd|sd| |sd md ed]; try discriminate;
    try (destruct sa, sd; discriminate).
  apply binary_normalize_not_nan.
Qed.

Lemma SFmul_not_nan (a d : spec_float) :
  SFfinite a = true -> SFfinite d = true -> SF64mul a d <> S754_nan.
Proof.
  intros Ha Hd. unfold SF64mul, SFmul.
  destruct a as [sa|sa| |sa ma ea]; try discriminate;
    destruct d as [sd|sd| |sd md ed]; try discriminate.
  apply binary_round_aux_not_nan. lia.
Qed.

Lemma add_not_nan (a d : number) :
  isNaN a = false -> SFfinite (Prim2SF d) = true ->
  isNaN (a + d)%float = false.
Proof.
  intros Ha Hd. apply isNaN_false. rewrite add_spec.
  apply SFadd_not_nan; [apply isNaN_false, Ha | exact Hd].
Qed.

Lemma mul_not_nan (a d : number) :
  SFfinite (Prim2SF a) = true -> SFfinite (Prim2SF d) = true ->
  isNaN (a * d)%float = false.
Proof.
  intros Ha Hd. apply isNaN_false. rewrite mul_spec.
  apply SFmul_not_nan; assumption.
Qed.

End Binary64.

(** * The server tick: movement *)

Section Movement.

Lemma Math_min_bound (a : number) :
  isNaN a = false ->
  Math_min (MAP_SIZE - PLAYER_SIZE)%float a
  = if (a <? 770)%float then a else 770%float.
Proof.
  intros Ha. unfold Math_min.
  change (MAP_SIZE - PLAYER_SIZE)%float with 770%float.
  change (isNaN 770%float) with false. rewrite Ha. simpl orb. cbv iota.
  change (is_pos_zero 770%float) with false. rewrite andb_false_r.
  reflexivity.
Qed.

Lemma Math_max_zero (a : number) :
  isNaN a = false ->
  Math_max 0%float a = if (0 <? a)%float then a else 0%float.
Proof.
  intros Ha. unfold Math_max.
  change (isNaN 0%float) with false. rewrite Ha. simpl orb. cbv iota.
  change (is_neg_zero 0%float) with false. rewrite andb_false_r.
  reflexivity.
Qed.

Lemma clamp_in_bounds (a : number) : isNaN a = false -> inBounds (clamp a).
Proof.
  intros Ha. unfold inBounds, clamp.
  rewrite (Math_min_bound a Ha).
  change (MAP_SIZE - PLAYER_SIZE)%float with 770%float.
  destruct (a <? 770)%float eqn:Hlt.
  - rewrite (Math_max_zero a Ha).
    destruct (0 <? a)%float eqn:Hpos.
    + split; apply ltb_leb; assumption.
    + split; reflexivity.
  - split; reflexivity.
Qed.

Lemma displacement_finite (flags : bool * bool * bool * bool) :
  SFfinite (Prim2SF (fst (displacement flags))) = true
  /\ SFfinite (Prim2SF (snd (displacement flags))) = true.
Proof.
  destruct flags as [[[u d] l] r].
  destruct u, d, l, r; vm_compute; split; reflexivity.
Qed.

Lemma move_in_bounds (p : player) (flags : bool * bool * bool * bool) :
  positionIsNumber p -> positionInBounds (move p (displacement flags)).
Proof.
  intros [Hx Hy]. destruct (displacement_finite flags) as [Fx Fy].
  split; simpl; apply clamp_in_bounds, add_not_nan; assumption.
Qed.

End Movement.

(** * The server tick: collisions *)

Section Collisions.

Lemma add_score_0 (p : player) : add_score p 0 = p.
Proof. destruct p; unfold add_score; simpl; f_equal; lia. Qed.

Lemma incr_add_score (p : player) (k : Z) :
  incr_score (add_score p k) = add_score p (k + 1).
Proof. unfold incr_score, add_score; simpl; f_equal; lia. Qed.

Lemma overlaps_add_score (p : player) (k : Z) (c : coin) :
  overlaps (add_score p k) c = overlaps p c.
Proof. reflexivity. Qed.

Lemma splice1_app (front : list coin) (c : coin) (back : list coin) :
  splice1 (List.length front) (front ++ c :: back) = front ++ back.
Proof.
  induction front as [|a front IH]; simpl; [reflexivity | now rewrite IH].
Qed.

(** The backward loop visits every coin of the prefix once: it keeps
    those the player misses and counts the others. *)
Lemma checkCoinCollisions_from_spec (front : list coin) :
  forall (p : player) (k : Z) (back : list coin),
    checkCoinCollisions_from (List.length front) (add_score p k)
      (front ++ back)
    = Some (add_score p (k + hits p front), filter (misses p) front ++ back).
Proof.
  induction front as [|c front IH] using rev_ind; intros p k back.
  - simpl. unfold hits. simpl. now rewrite Z.add_0_r.
  - rewrite length_app. simpl List.length. rewrite Nat.add_1_r.
    cbn [checkCoinCollisions_from].
    rewrite <- app_assoc. simpl app.
    rewrite nth_error_app2 by lia. rewrite Nat.sub_diag. simpl nth_error.
    cbv iota. rewrite overlaps_add_score.
    unfold hits. rewrite !filter_app, length_app. simpl filter.
    unfold misses at 2.
    destruct (overlaps p c) eqn:Hc; simpl negb; cbv iota.
    + rewrite splice1_app, incr_add_score, IH. unfold hits.
      simpl List.length. rewrite app_nil_r. same_score.
    + rewrite IH. unfold hits. simpl List.length. rewrite <- app_assoc.
      simpl app. same_score.
Qed.

Lemma checkCoinCollisions_spec (p : player) (cs : list coin) :
  checkCoinCollisions p cs
  = Some (add_score p (hits p cs), filter (misses p) cs).
Proof.
  unfold checkCoinCollisions.
  pose proof (checkCoinCollisions_from_spec cs p 0 []) as H.
  rewrite add_score_0, app_nil_r, app_nil_r in H. exact H.
Qed.

Lemma updatePlayer_spec (p : player) (cs : list coin) :
  updatePlayer p cs =
  match readFlags (p_inputs p) with
  | None => None
  | Some flags =>
      let q := move p (displacement flags) in
      Some (add_score q (hits q cs), filter (misses q) cs)
  end.
Proof.
  unfold updatePlayer. destruct (readFlags (p_inputs p)); [|reflexivity].
  apply checkCoinCollisions_spec.
Qed.

End Collisions.

(** * Position bounds *)

Section Bounds.

Lemma update_loop_in_bounds (todo : playerMap) :
  forall done cs r,
    Forall (fun kp => positionIsNumber (snd kp)) todo ->
    Forall (fun kp => positionInBounds (snd kp)) done ->
    update_loop todo done cs = Normal r ->
    Forall (fun kp => positionInBounds (snd kp)) (fst r).
Proof.
  induction todo as [|[k p] rest IH]; intros done cs r Htodo Hdone H;
    simpl in H.
  - injection H as <-. simpl. apply Forall_rev, Hdone.
  - rewrite updatePlayer_spec in H.
    destruct (readFlags (p_inputs p)) as [flags|]; [|discriminate].
    cbv zeta in H. inversion Htodo as [|? ? Hp Hrest]; subst.
    apply IH in H; auto.
    constructor; [|exact Hdone]. simpl.
    apply (move_in_bounds p flags Hp).
Qed.

(** C1. After a tick that completes, the position of every player is
    within [0, MAP_SIZE - PLAYER_SIZE] on both axes, whatever the stored
    inputs and whatever the position before the tick, as long as that
    position is a number (not NaN). *)
Theorem update_keeps_players_in_bounds (s s' : server) :
  (forall k p, In (k, p) (players s) -> positionIsNumber p) ->
  update s = Normal s' ->
  forall k p, In (k, p) (players s') -> positionInBounds p.
Proof.
  intros Hs H k p Hin. unfold update in H.
  destruct (update_loop (players s) [] (coins s)) as [r|e r] eqn:E;
    [|discriminate].
  injection H as <-.
  apply update_loop_in_bounds in E.
  - simpl in Hin. rewrite Forall_forall in E. apply (E (k, p) Hin).
  - apply Forall_forall. intros [k' p'] Hin'. apply (Hs k' p' Hin').
  - constructor.
Qed.

End Bounds.

(** * Diagonal movement *)

Section Diagonal.

(** C4, as stated, fails: with all four flags set an x flag and a y flag are
    active, the opposite flags cancel, and the displacement is zero. *)
Lemma opposite_flags_cancel :
  ~ (forall u d l r : bool,
        l || r = true -> u || d = true ->
        within_tolerance (magnitude (displacement (u, d, l, r))) PLAYER_SPEED
        = true).
Proof.
  intros H. specialize (H true true true true eq_refl eq_refl).
  vm_compute in H. discriminate.
Qed.

(** C4, amended. When exactly one of left/right and exactly one of up/down
    is set, each axis displacement is the speed divided by [sqrt 2], and the
    length of the displacement is the speed within [2^-50]. When exactly one
    axis has exactly one flag set, the displacement is the speed along that
    axis, exactly. Otherwise the player does not move. *)
Theorem displacement_speed (u d l r : bool) :
  let v := displacement (u, d, l, r) in
  let along (positive : bool) : number :=
    if positive then PLAYER_SPEED else (- PLAYER_SPEED)%float in
  match xorb l r, xorb u d with
  | true, true =>
      fst v = (along r / Math_sqrt 2)%float
      /\ snd v = (along d / Math_sqrt 2)%float
      /\ within_tolerance (magnitude v) PLAYER_SPEED = true
  | true, false => v = (along r, 0%float) /\ magnitude v = PLAYER_SPEED
  | false, true => v = (0%float, along d) /\ magnitude v = PLAYER_SPEED
  | false, false => v = (0%float, 0%float)
  end.
Proof.
  destruct u, d, l, r; vm_compute; repeat split; reflexivity.
Qed.

End Diagonal.

(** * The client buffer *)

Section Buffer.

Import GameClient.

(** C9, as stated, fails: a snapshot whose timestamp is [now - 1000] exactly
    is dropped. *)
Lemma prune_drops_snapshot_at_cutoff :
  let s := bareSnapshot 1000 in
  timestamp s >= 2000 - 1000
  /\ ~ In s (serverStates
               (handleMessage 2000 (StateFrame 1000 [] []) constructor)).
Proof.
  split; [simpl; lia|]. simpl. intros [].
Qed.

(** C9, amended. After a state message is handled at time [now], the buffer
    holds exactly the snapshots (those buffered before and the new one)
    whose timestamp is strictly above [now - 1000], wherever they were in
    the buffer; the filter runs on every state message. *)
Theorem handleMessage_prunes (now ts : Z) (pls : list playerView)
  (cs : list coin) (c : client) (s : snapshot) :
  In s (serverStates (handleMessage now (StateFrame ts pls cs) c))
  <-> (In s (serverStates c)
       \/ s = {| timestamp := ts; players := pls; coins := cs |})
      /\ now - 1000 < timestamp s.
Proof.
  simpl. rewrite filter_In, in_app_iff. simpl.
  rewrite Z.gtb_ltb, Z.ltb_lt. intuition.
Qed.

(** C8, as stated, fails: a snapshot that arrives late goes to the end of
    the buffer, which is then out of order, and a snapshot with a timestamp
    already buffered makes a second entry. *)
Lemma late_snapshot_is_appended :
  let c := {| myPlayerId := Some 1; serverStates := [bareSnapshot 20] |} in
  serverStates (handleMessage 100 (StateFrame 10 [] []) c)
  = [bareSnapshot 20; bareSnapshot 10]
  /\ ~ sortedByTimestamp
        (serverStates (handleMessage 100 (StateFrame 10 [] []) c))
  /\ serverStates (handleMessage 100 (StateFrame 20 [] []) c)
     = [bareSnapshot 20; bareSnapshot 20].
Proof.
  repeat split. intros H. simpl in H.
  inversion H as [|? ? _ Hall]; subst.
  inversion Hall as [|? ? Hle _]; subst. simpl in Hle. lia.
Qed.

Lemma filter_StronglySorted {A : Type} (R : A -> A -> Prop) (f : A -> bool)
  (l : list A) :
  StronglySorted R l -> StronglySorted R (filter f l).
Proof.
  induction 1 as [|a l Hs IH Hall]; simpl; [constructor|].
  destruct (f a); [|exact IH].
  constructor; [exact IH|].
  rewrite Forall_forall in *. intros x Hx. apply filter_In in Hx.
  apply Hall, Hx.
Qed.

Lemma StronglySorted_snoc {A : Type} (R : A -> A -> Prop) (l : list A)
  (a : A) :
  StronglySorted R l -> (forall x, In x l -> R x a) ->
  StronglySorted R (l ++ [a]).
Proof.
  induction 1 as [|b l Hs IH Hall]; intros Ha; simpl.
  - repeat constructor.
  - constructor.
    + apply IH. intros x Hx. apply Ha. now right.
    + rewrite Forall_forall in *. intros x Hx. apply in_app_iff in Hx.
      destruct Hx as [Hx|[<-|[]]]; [apply Hall, Hx | apply Ha; now left].
Qed.

(** C8, amended. A state message appends its snapshot at the end of the
    buffer, in arrival order, whatever its timestamp, and the buffer is then
    pruned. The buffer stays sorted when the snapshot is no older than those
    buffered. *)
Theorem handleMessage_appends (now ts : Z) (pls : list playerView)
  (cs : list coin) (c : client) :
  let new := {| timestamp := ts; players := pls; coins := cs |} in
  let recent := fun s => timestamp s >? now - 1000 in
  let c' := handleMessage now (StateFrame ts pls cs) c in
  serverStates c'
  = filter recent (serverStates c) ++ (if recent new then [new] else [])
  /\ (sortedByTimestamp (serverStates c) ->
      (forall s, In s (serverStates c) -> timestamp s <= ts) ->
      sortedByTimestamp (serverStates c')).
Proof.
  intros new recent c'. split.
  - unfold c'. simpl. rewrite filter_app. reflexivity.
  - intros Hs Hts. unfold c'. simpl. apply filter_StronglySorted.
    apply StronglySorted_snoc; [exact Hs|]. intros x Hx. simpl.
    apply Hts, Hx.
Qed.

End Buffer.

(** * Interpolation *)

Section Interpolation.

Import GameClient.

Lemma findBracket_first (renderTime : Z) (pre post : list snapshot)
  (before after : snapshot) :
  findBracket renderTime (pre ++ [before]) = None ->
  timestamp before <= renderTime <= timestamp after ->
  findBracket renderTime (pre ++ before :: after :: post)
  = Some (before, after).
Proof.
  intros Hnone [Hb Ha].
  assert (Hhere : findBracket renderTime (before :: after :: post)
                  = Some (before, after)).
  { simpl. apply Z.leb_le in Hb. apply Z.geb_le in Ha.
    now rewrite Hb, Ha. }
  induction pre as [|a pre IH]; [exact Hhere|].
  destruct pre as [|b pre]; simpl in Hnone |- *.
  - destruct ((timestamp a <=? renderTime) && (timestamp before >=? renderTime));
      [discriminate|].
    simpl in Hhere. exact Hhere.
  - destruct ((timestamp a <=? renderTime) && (timestamp b >=? renderTime));
      [discriminate|].
    apply IH, Hnone.
Qed.

Lemma two_or_more {A : Type} (pre post : list A) (a b : A) :
  (List.length (pre ++ a :: b :: post) <? 2)%nat = false.
Proof.
  apply Nat.ltb_ge. rewrite length_app. simpl. lia.
Qed.

(** C5, as stated, fails: when two adjacent pairs bracket the render time,
    only the first one is sampled. Here the render time is 50, the pair of
    the snapshots at 50 and 60 brackets it, and the coins returned are not
    those of the snapshot at 60. *)
Lemma later_bracket_is_not_sampled :
  let before := nth 1 (serverStates threeSnapshots) (bareSnapshot 0) in
  let after := nth 2 (serverStates threeSnapshots) (bareSnapshot 0) in
  timestamp before <= 150 - INTERPOLATION_DELAY <= timestamp after
  /\ r_coins (interpolateState 150 threeSnapshots) <> coins after.
Proof.
  split; [simpl; unfold INTERPOLATION_DELAY; lia|].
  simpl. discriminate.
Qed.

(** C5, amended. When [before, after] is the first adjacent pair of the
    buffer with [before.timestamp <= renderTime <= after.timestamp], the
    state returned has the coins of [after] and one player per player of
    [before], in the same order: interpolated by the factor [t] with the
    score of [after] when [after] has a player of that id, and unchanged
    otherwise. *)
Theorem interpolateState_first_bracket (now : Z) (c : client)
  (pre post : list snapshot) (before after : snapshot) :
  let renderTime := now - INTERPOLATION_DELAY in
  serverStates c = pre ++ before :: after :: post ->
  findBracket renderTime (pre ++ [before]) = None ->
  timestamp before <= renderTime <= timestamp after ->
  let t :=
    (number_of_Z (renderTime - timestamp before)
     / number_of_Z (timestamp after - timestamp before))%float in
  r_coins (interpolateState now c) = coins after
  /\ Forall2
       (fun beforePlayer rendered =>
          match findPlayer (v_id beforePlayer) (players after) with
          | Some afterPlayer =>
              rendered =
              {| v_id := v_id beforePlayer;
                 v_x := (v_x beforePlayer
                         + (v_x afterPlayer - v_x beforePlayer) * t)%float;
                 v_y := (v_y beforePlayer
                         + (v_y afterPlayer - v_y beforePlayer) * t)%float;
                 v_score := v_score afterPlayer;
                 v_color := v_color beforePlayer |}
          | None => rendered = beforePlayer
          end)
       (players before) (r_players (interpolateState now c)).
Proof.
  intros renderTime Hbuf Hfirst Hbracket t.
  unfold interpolateState. rewrite Hbuf, two_or_more.
  fold renderTime. rewrite (findBracket_first _ _ _ _ _ Hfirst Hbracket).
  unfold interpolate. simpl. split; [reflexivity|].
  fold t. induction (players before) as [|bp rest IH]; simpl; constructor.
  - unfold interpolatePlayer, factor. fold t.
    destruct (findPlayer (v_id bp) (players after)); reflexivity.
  - exact IH.
Qed.

(** The example of C5: snapshots at times 0 and 100 with player A at (0, 0)
    and at (10, 0), sampled at render time 50, give A at (5, 0). *)
Lemma interpolateState_first_bracket_witness :
  let before :=
    {| timestamp := 0; players := [playerA 0%float 0%float 0]; coins := [] |} in
  let after :=
    {| timestamp := 100; players := [playerA 10%float 0%float 0];
       coins := [] |} in
  serverStates twoSnapshots = [] ++ before :: after :: []
  /\ findBracket (150 - INTERPOLATION_DELAY) ([] ++ [before]) = None
  /\ timestamp before <= 150 - INTERPOLATION_DELAY <= timestamp after
  /\ r_players (interpolateState 150 twoSnapshots)
     = [playerA 5%float 0%float 0].
Proof.
  intros before after.
  assert (H1 : serverStates twoSnapshots = [] ++ before :: after :: [])
    by reflexivity.
  assert (H2 : findBracket (150 - INTERPOLATION_DELAY) ([] ++ [before]) = None)
    by reflexivity.
  assert (H3 : timestamp before <= 150 - INTERPOLATION_DELAY <= timestamp after)
    by (unfold INTERPOLATION_DELAY; simpl; lia).
  split; [exact H1|]. split; [exact H2|]. split; [exact H3|].
  destruct (interpolateState_first_bracket 150 twoSnapshots [] [] before after
              H1 H2 H3) as [_ H].
  remember (r_players (interpolateState 150 twoSnapshots)) as rendered eqn:E.
  clear E. inversion H as [|bp rp rest rest' Hrp Hrest]; subst.
  inversion Hrest; subst. vm_compute in Hrp. rewrite Hrp. reflexivity.
Defined.

End Interpolation.

(** * The tick as a whole *)

Section Tick.

Lemma update_loop_Normal (todo : playerMap) :
  forall done cs r,
    update_loop todo done cs = Normal r ->
    exists qs cs',
      sweep todo cs = Some (qs, cs') /\ r = (rev done ++ qs, cs').
Proof.
  induction todo as [|[k p] rest IH]; intros done cs r H; simpl in H.
  - injection H as <-. exists [], cs. now rewrite app_nil_r.
  - rewrite updatePlayer_spec in H. simpl.
    destruct (readFlags (p_inputs p)) as [flags|]; [|discriminate].
    cbv zeta in H. apply IH in H. destruct H as (qs & cs' & Hs & ->).
    rewrite Hs. eexists _, _. split; [reflexivity|].
    simpl. now rewrite <- app_assoc.
Qed.

Lemma filter_andb {A : Type} (f g : A -> bool) (l : list A) :
  filter g (filter f l) = filter (fun a => f a && g a) l.
Proof.
  induction l as [|a l IH]; simpl; [reflexivity|].
  destruct (f a); simpl; [destruct (g a)|]; now rewrite IH.
Qed.

Lemma filter_all {A : Type} (f : A -> bool) (l : list A) :
  (forall a, f a = true) -> filter f l = l.
Proof.
  intros H. induction l as [|a l IH]; simpl; [reflexivity|].
  now rewrite H, IH.
Qed.

Lemma sweep_keys (todo : playerMap) :
  forall cs qs cs', sweep todo cs = Some (qs, cs') -> keys qs = keys todo.
Proof.
  induction todo as [|[k p] rest IH]; intros cs qs cs' H; simpl in H.
  - now injection H as <- <-.
  - destruct (readFlags (p_inputs p)) as [flags|]; [|discriminate].
    cbv zeta in H.
    destruct (sweep rest _) as [[qs0 cs0]|] eqn:E; [|discriminate].
    injection H as <- <-. simpl. f_equal. apply (IH _ _ _ E).
Qed.

Lemma winner_not_key (m : playerMap) (k : Z) (c : coin) :
  ~ In k (keys m) -> wonBy m k c = false.
Proof.
  unfold wonBy, winner. intros Hk.
  destruct (find _ m) as [[k' p']|] eqn:E; [|reflexivity]. simpl.
  apply find_some in E. destruct E as [Hin _].
  apply Z.eqb_neq. intros ->. apply Hk. apply (in_map fst) in Hin. exact Hin.
Qed.

(** A coin stays exactly when the box of no player, where it stands after
    its move, overlaps it. *)
Lemma sweep_coins (todo : playerMap) :
  forall cs qs cs',
    sweep todo cs = Some (qs, cs') -> cs' = filter (unclaimed qs) cs.
Proof.
  induction todo as [|[k p] rest IH]; intros cs qs cs' H; simpl in H.
  - injection H as <- <-. symmetry. now apply filter_all.
  - destruct (readFlags (p_inputs p)) as [flags|]; [|discriminate].
    cbv zeta in H.
    destruct (sweep rest _) as [[qs0 cs0]|] eqn:E; [|discriminate].
    injection H as <- <-. rewrite (IH _ _ _ E), filter_andb.
    apply filter_ext. intros c. unfold unclaimed, winner, misses. simpl.
    rewrite overlaps_add_score.
    destruct (overlaps (move p (displacement flags)) c); reflexivity.
Qed.

Lemma Forall2_impl_In {A B : Type} (R R' : A -> B -> Prop) (l : list A)
  (l' : list B) :
  (forall a b, In a l -> R a b -> R' a b) ->
  Forall2 R l l' -> Forall2 R' l l'.
Proof.
  intros H HF. induction HF as [|a b l l' Hab HF IH]; constructor.
  - apply H; [now left | exact Hab].
  - apply IH. intros a' b' Hin. apply H. now right.
Qed.

(** Every player gains one point for each coin it is the first to
    overlap. *)
Lemma sweep_scores (todo : playerMap) :
  forall cs qs cs',
    NoDup (keys todo) ->
    sweep todo cs = Some (qs, cs') ->
    Forall2
      (fun kp kp' =>
         fst kp' = fst kp
         /\ p_score (snd kp')
            = p_score (snd kp) + count (wonBy qs (fst kp)) cs)
      todo qs.
Proof.
  induction todo as [|[k p] rest IH]; intros cs qs cs' Hnd H; simpl in H.
  - injection H as <- <-. constructor.
  - destruct (readFlags (p_inputs p)) as [flags|]; [|discriminate].
    cbv zeta in H.
    destruct (sweep rest _) as [[qs0 cs0]|] eqn:E; [|discriminate].
    injection H as <- <-. inversion Hnd as [|? ? Hk Hrest]; subst.
    set (q := move p (displacement flags)) in *.
    assert (Hhead : forall c,
               wonBy ((k, add_score q (hits q cs)) :: qs0) k c = overlaps q c).
    { intros c. unfold wonBy at 1, winner. simpl. rewrite overlaps_add_score.
      destruct (overlaps q c) eqn:Hc; simpl; [apply Z.eqb_refl|].
      apply winner_not_key. now rewrite (sweep_keys _ _ _ _ E). }
    constructor.
    + simpl. split; [reflexivity|]. unfold count, hits.
      now rewrite (filter_ext _ _ Hhead).
    + eapply Forall2_impl_In; [|exact (IH _ _ _ Hrest E)].
      intros [kj pj] [kj' pj'] Hin [Hkey Hscore]. simpl in *.
      split; [exact Hkey|]. rewrite Hscore. f_equal.
      unfold count. rewrite filter_andb. f_equal. f_equal.
      apply filter_ext. intros c. unfold wonBy at 2, winner. simpl.
      rewrite overlaps_add_score. unfold misses.
      destruct (overlaps q c) eqn:Hc; simpl; [|reflexivity].
      symmetry. apply Z.eqb_neq. intros ->. apply Hk.
      apply (in_map fst) in Hin. exact Hin.
Qed.

End Tick.

Section Maps.

Lemma map_get_set (k k0 : Z) (p0 : player) (m : playerMap) :
  map_get k (map_set k0 p0 m) = if k =? k0 then Some p0 else map_get k m.
Proof.
  induction m as [|[k' p'] m IH]; simpl.
  - destruct (k =? k0); reflexivity.
  - destruct (k0 =? k') eqn:E0; simpl.
    + apply Z.eqb_eq in E0. subst k'. destruct (k =? k0); reflexivity.
    + rewrite IH. destruct (k =? k') eqn:E1; [|reflexivity].
      apply Z.eqb_eq in E1. subst k'.
      rewrite Z.eqb_sym in E0. now rewrite E0.
Qed.

Lemma map_get_delete (k k0 : Z) (m : playerMap) :
  map_get k (map_delete k0 m) = if k =? k0 then None else map_get k m.
Proof.
  unfold map_delete. induction m as [|[k' p'] m IH]; simpl.
  - destruct (k =? k0); reflexivity.
  - destruct (k0 =? k') eqn:E0; simpl.
    + rewrite IH. apply Z.eqb_eq in E0. subst k'.
      destruct (k =? k0); reflexivity.
    + rewrite IH. destruct (k =? k') eqn:E1; [|reflexivity].
      apply Z.eqb_eq in E1. subst k'. rewrite Z.eqb_sym in E0. now rewrite E0.
Qed.

Lemma map_get_In (k : Z) (p : player) (m : playerMap) :
  map_get k m = Some p -> In (k, p) m.
Proof.
  induction m as [|[k' p'] m IH]; simpl; [discriminate|].
  destruct (k =? k') eqn:E.
  - apply Z.eqb_eq in E. intros [= ->]. left. now subst.
  - intros H. right. apply IH, H.
Qed.

Lemma map_get_None (k : Z) (m : playerMap) :
  ~ In k (keys m) -> map_get k m = None.
Proof.
  induction m as [|[k' p'] m IH]; simpl; [reflexivity|]. intros H.
  destruct (k =? k') eqn:E.
  - apply Z.eqb_eq in E. subst. exfalso. apply H. now left.
  - apply IH. intros Hin. apply H. now right.
Qed.

Lemma map_set_fresh (k : Z) (p : player) (m : playerMap) :
  ~ In k (keys m) -> map_set k p m = m ++ [(k, p)].
Proof.
  induction m as [|[k' p'] m IH]; simpl; [reflexivity|]. intros H.
  destruct (k =? k') eqn:E.
  - apply Z.eqb_eq in E. subst. exfalso. apply H. now left.
  - f_equal. apply IH. intros Hin. apply H. now right.
Qed.

Lemma map_set_present (k : Z) (p p0 : player) (m : playerMap) :
  map_get k m = Some p0 ->
  keys (map_set k p m) = keys m
  /\ List.length (map_set k p m) = List.length m
  /\ forall kp, In kp (map_set k p m) -> In kp m \/ kp = (k, p).
Proof.
  induction m as [|[k' p'] m IH]; simpl; [discriminate|].
  destruct (k =? k') eqn:E.
  - apply Z.eqb_eq in E. subst. intros _. simpl. repeat split.
    intros kp [<-|H]; auto.
  - intros H. destruct (IH H) as (IH1 & IH2 & IH3). simpl.
    rewrite IH1, IH2. repeat split.
    intros kp [<-|Hin]; [auto|]. destruct (IH3 kp Hin); auto.
Qed.

Lemma keys_delete (k : Z) (m : playerMap) :
  keys (map_delete k m) = filter (fun k' => negb (k =? k')) (keys m).
Proof.
  unfold map_delete, keys. induction m as [|[k' p'] m IH]; simpl; [reflexivity|].
  destruct (k =? k'); simpl; now rewrite IH.
Qed.

End Maps.

Section TickOutcome.

Lemma Forall2_ticked_refl (m : playerMap) : Forall2 ticked m m.
Proof. induction m; constructor; [split; [reflexivity|lia] | assumption]. Qed.

Lemma Forall2_ticked_trans (a b c : playerMap) :
  Forall2 ticked a b -> Forall2 ticked b c -> Forall2 ticked a c.
Proof.
  intros Hab. revert c.
  induction Hab as [|x y a b [Hk Hs] Hab IH]; intros c Hbc;
    inversion Hbc as [|? z ? c' [Hk' Hs'] Hbc']; subst; constructor.
  - split; [congruence | lia].
  - apply IH, Hbc'.
Qed.

Lemma hits_nonneg (p : player) (cs : list coin) : 0 <= hits p cs.
Proof. unfold hits. lia. Qed.

(** However the loop ends, it leaves the keys in place, lowers no score,
    and removes coins without adding or reordering any. *)
Lemma update_loop_outcome (todo : playerMap) :
  forall done cs,
    let r := outcome (update_loop todo done cs) in
    Forall2 ticked (rev done ++ todo) (fst r)
    /\ exists f, snd r = filter f cs.
Proof.
  induction todo as [|[k p] rest IH]; intros done cs; simpl.
  - rewrite app_nil_r. split; [apply Forall2_ticked_refl|].
    exists (fun _ => true). symmetry. now apply filter_all.
  - rewrite updatePlayer_spec.
    destruct (readFlags (p_inputs p)) as [flags|]; cbv zeta.
    + destruct (IH ((k, add_score (move p (displacement flags))
                          (hits (move p (displacement flags)) cs)) :: done)
                  (filter (misses (move p (displacement flags))) cs))
        as [HF [f Hf]].
      split.
      * eapply Forall2_ticked_trans; [|exact HF]. simpl.
        rewrite <- app_assoc. simpl. apply Forall2_app.
        -- apply Forall2_ticked_refl.
        -- constructor; [|apply Forall2_ticked_refl].
           split; [reflexivity|]. simpl.
           pose proof (hits_nonneg (move p (displacement flags)) cs). lia.
      * eexists. rewrite Hf, filter_andb. reflexivity.
    + simpl. rewrite rev_append_rev. split; [apply Forall2_ticked_refl|].
      exists (fun _ => true). symmetry. now apply filter_all.
Qed.

Lemma update_outcome (s : server) :
  let s' := outcome (update s) in
  Forall2 ticked (players s) (players s')
  /\ (exists f, coins s' = filter f (coins s))
  /\ nextPlayerId s' = nextPlayerId s
  /\ gameStarted s' = gameStarted s.
Proof.
  unfold update.
  destruct (update_loop_outcome (players s) [] (coins s)) as [HF Hc].
  destruct (update_loop (players s) [] (coins s)) as [r|e r]; simpl in *;
    repeat split; assumption.
Qed.

Lemma Forall2_ticked_keys (m m' : playerMap) :
  Forall2 ticked m m' -> keys m' = keys m.
Proof.
  induction 1 as [|x y m m' [Hk _] _ IH]; simpl; [reflexivity|].
  now rewrite Hk, IH.
Qed.

Lemma Forall2_ticked_get (m m' : playerMap) (k : Z) (p' : player) :
  Forall2 ticked m m' -> map_get k m' = Some p' ->
  exists p, map_get k m = Some p /\ p_score p <= p_score p'.
Proof.
  induction 1 as [|[k1 p1] [k2 p2] m m' [Hk Hs] _ IH]; simpl; [discriminate|].
  simpl in Hk, Hs. subst k2.
  destruct (k =? k1); [|exact IH].
  intros [= <-]. exists p1. split; [reflexivity | exact Hs].
Qed.

End TickOutcome.

Section Steps.

Lemma srv_broadcastGameState (now : Z) (w : world) :
  srv (broadcastGameState now w) = srv w
  /\ written (broadcastGameState now w) = written w
  /\ openSockets (broadcastGameState now w) = openSockets w.
Proof.
  unfold broadcastGameState. generalize (buildState now (srv w)) as state.
  intros state. generalize (players (srv w)) as m. intros m. revert w.
  induction m as [|kp m IH]; intros w; simpl; [auto|].
  destruct (IH (sendWithLatency now (p_id (snd kp)) state w)) as (H1 & H2 & H3).
  rewrite H1, H2, H3. auto.
Qed.

Lemma handleMessage_outcome (k : Z) (message : text) (s : server) :
  handleMessage k message s = Normal s
  \/ exists player v,
      map_get k (players s) = Some player
      /\ handleMessage k message s
         = Normal (set_players s
                     (map_set k (set_inputs player v) (players s))).
Proof.
  unfold handleMessage, handleMessage_try.
  destruct (JSON_parse message) as [data|]; [|now left].
  destruct (map_get k (players s)) as [player|] eqn:E; [|now left].
  destruct (getProp (Some data) "type") as [ty|]; [|now left].
  destruct (strict_eq_str ty "input"); [|now left].
  destruct (getProp (Some data) "inputs") as [v|]; [|now left].
  right. now exists player, v.
Qed.

Lemma drawsSatisfy_any (e : event) : drawsSatisfy anyDraw e.
Proof. destruct e; exact I. Qed.

Lemma step_serverStep (ok : number -> number -> Prop) (e : event) (w : world) :
  drawsSatisfy ok e ->
  serverStep ok (eventTime e) (srv w) (srv (outcome (step e w))).
Proof.
  intros Hok.
  destruct e as [now rx ry color cx cy|now k message|now k|now|now rx ry|now n];
    simpl.
  - apply ss_register, Hok.
  - unfold onMessage. destruct (isOpen k w); apply ss_same.
  - unfold onClose.
    destruct (srv_broadcastGameState now
                {| srv := set_players (srv w) (map_delete k (players (srv w)));
                   timers := timers w;
                   openSockets :=
                     filter (fun c => negb (k =? c)) (openSockets w);
                   written := written w |}) as [-> _].
    apply ss_leave.
  - unfold onTick. destruct (gameStarted (srv w)) eqn:G; [|apply ss_same].
    pose proof (ss_update ok now (srv w) G) as H.
    destruct (update (srv w)) as [s'|err s']; simpl in *; [|exact H].
    destruct (srv_broadcastGameState now (set_srv w s')) as [-> _]. exact H.
  - apply ss_coin.
  - unfold onTimeout. destruct (take_nth n (timers w)) as [[t rest]|];
      [|apply ss_same].
    destruct (job t) as [conn data|k message]; simpl.
    + destruct (isOpen conn _); apply ss_same.
    + destruct (handleMessage_outcome k message (srv w))
        as [->|(player & v & Hget & ->)]; simpl;
        [apply ss_same | now apply ss_input].
Qed.

(** The frames an event writes are serialized from the state the event
    finds. *)
Lemma step_written (e : event) (w : world) :
  written (outcome (step e w)) = written w
  \/ exists conn data,
      written (outcome (step e w))
      = written w ++ [(conn, JSON_stringify (srv w) data)].
Proof.
  destruct e as [now rx ry color cx cy|now k message|now k|now|now rx ry|now n];
    simpl; try (now left).
  - unfold onMessage. destruct (isOpen k w); now left.
  - left. unfold onClose.
    now destruct (srv_broadcastGameState now
                {| srv := set_players (srv w) (map_delete k (players (srv w)));
                   timers := timers w;
                   openSockets :=
                     filter (fun c => negb (k =? c)) (openSockets w);
                   written := written w |}) as (_ & -> & _).
  - left. unfold onTick. destruct (gameStarted (srv w)); [|reflexivity].
    destruct (update (srv w)) as [s'|err s']; simpl; [|reflexivity].
    now destruct (srv_broadcastGameState now (set_srv w s')) as (_ & -> & _).
  - unfold onTimeout. destruct (take_nth n (timers w)) as [[t rest]|];
      [|now left].
    destruct (job t) as [conn data|k message]; simpl.
    + destruct (isOpen conn _); [|now left]. right. now exists conn, data.
    + left. now destruct (handleMessage k message (srv w)).
Qed.

End Steps.

Section Invariants.

Variable ok : number -> number -> Prop.

Lemma register_players (now : Z) (rx ry : number) (color : string)
  (cx cy : number) (s : server) :
  players (register now rx ry color cx cy s)
  = map_set (nextPlayerId s) (newPlayer (nextPlayerId s) rx ry color)
      (players s)
  /\ nextPlayerId (register now rx ry color cx cy s) = nextPlayerId s + 1.
Proof. unfold register. destruct (_ && _); simpl; auto. Qed.

Lemma wellFormed_fresh (s : server) :
  wellFormed s -> ~ In (nextPlayerId s) (keys (players s)).
Proof.
  intros (_ & Hk & _) Hin. apply in_map_iff in Hin.
  destruct Hin as ([k p] & Hk' & Hin). simpl in Hk'. subst k.
  rewrite Forall_forall in Hk. specialize (Hk _ Hin). simpl in Hk. lia.
Qed.

Lemma serverStep_wellFormed (now : Z) (s s' : server) :
  wellFormed s -> serverStep ok now s s' -> wellFormed s'.
Proof.
  intros Hwf Hstep. pose proof (wellFormed_fresh s Hwf) as Hfresh.
  destruct Hwf as (Hnd & Hk & Hidle & Hcap).
  destruct Hstep as [|rx ry color cx cy _|k|G|rx ry|k player v Hget].
  - exact (conj Hnd (conj Hk (conj Hidle Hcap))).
  - (* register *)
    unfold register. rewrite (map_set_fresh _ _ _ Hfresh).
    set (m := players s ++ [_]). cbn [players gameStarted].
    assert (Hnd' : NoDup (keys m)).
    { unfold m, keys. rewrite map_app. simpl. apply NoDup_app; auto.
      - repeat constructor. intros [].
      - intros a Ha [<-|[]]. apply Hfresh, Ha. }
    assert (Hk' : Forall (fun kp => fst kp < nextPlayerId s + 1
                                    /\ 0 <= p_score (snd kp)) m).
    { unfold m. apply Forall_app. split.
      - eapply Forall_impl; [|exact Hk]. simpl. intros a [? ?]. split; lia.
      - constructor; [simpl; split; lia | constructor]. }
    destruct ((2 <=? Z.of_nat (List.length m)) && negb (gameStarted s)) eqn:E;
      wf_split; auto.
    + discriminate.
    + apply andb_true_iff in E. destruct E as [_ E].
      apply negb_true_iff in E. destruct (Hidle E) as [_ ->]. simpl. lia.
    + intros G. rewrite G in E. rewrite andb_true_r in E.
      apply Z.leb_gt in E. split; [lia | apply (Hidle G)].
  - (* leave *)
    wf_split.
    + rewrite keys_delete. apply NoDup_filter, Hnd.
    + unfold map_delete. rewrite Forall_forall in *. intros kp Hin.
      apply filter_In in Hin. apply Hk, Hin.
    + intros G. destruct (Hidle G) as [Hlen Hcoins]. split; [|exact Hcoins].
      pose proof (filter_length_le (fun kp => negb (k =? fst kp)) (players s)).
      unfold map_delete. lia.
    + exact Hcap.
  - (* update *)
    destruct (update_outcome s) as (HF & [f Hf] & Hn & Hg).
    wf_split.
    + rewrite (Forall2_ticked_keys _ _ HF). exact Hnd.
    + rewrite Hn. clear - HF Hk.
      induction HF as [|x y m m' [Hkey Hs] _ IH]; constructor;
        inversion Hk as [|? ? [H1 H2] Hk']; subst.
      * rewrite Hkey. split; lia.
      * apply IH, Hk'.
    + rewrite Hg. congruence.
    + rewrite Hf. pose proof (filter_length_le f (coins s)). lia.
  - (* coin timer *)
    unfold onCoinTimer.
    destruct (gameStarted s && (Z.of_nat (List.length (coins s)) <? 5)) eqn:E;
      [|exact (conj Hnd (conj Hk (conj Hidle Hcap)))].
    apply andb_true_iff in E. destruct E as [G E]. apply Z.ltb_lt in E.
    wf_split; auto; [congruence|].
    rewrite length_app. simpl. lia.
  - (* input *)
    destruct (map_set_present k (set_inputs player v) player (players s) Hget)
      as (Hkeys & Hlen & Hin).
    pose proof (map_get_In _ _ _ Hget) as Hp.
    wf_split.
    + rewrite Hkeys. exact Hnd.
    + rewrite Forall_forall in *. intros kp Hkp.
      destruct (Hin kp Hkp) as [H| ->]; [apply Hk, H|].
      apply (Hk _ Hp).
    + rewrite Hlen. exact Hidle.
    + exact Hcap.
Qed.

Lemma serverStep_scoresGrow (now : Z) (s s' : server) :
  serverStep ok now s s' -> scoresGrow s s'.
Proof.
  intros Hstep.
  assert (Hrefl : forall m k (p' : player), map_get k m = Some p' ->
                    exists p, map_get k m = Some p /\ p_score p <= p_score p').
  { intros m k p' H. exists p'. split; [exact H | lia]. }
  unfold scoresGrow.
  destruct Hstep as [|rx ry color cx cy _|k|G|rx ry|k player v Hget].
  - split; [lia|]. intros k p' _. apply Hrefl.
  - destruct (register_players now rx ry color cx cy s) as [Hp Hn].
    rewrite Hp, Hn. split; [lia|]. intros k p' Hlt.
    rewrite map_get_set.
    destruct (k =? nextPlayerId s) eqn:E; [apply Z.eqb_eq in E; lia|].
    apply Hrefl.
  - split; [simpl; lia|]. intros k0 p' _. simpl. rewrite map_get_delete.
    destruct (k0 =? k); [discriminate | apply Hrefl].
  - destruct (update_outcome s) as (HF & _ & Hn & _).
    split; [lia|]. intros k p' _. apply Forall2_ticked_get, HF.
  - unfold onCoinTimer. destruct (_ && _); (split; [simpl; lia|]);
      intros k p' _; apply Hrefl.
  - split; [simpl; lia|]. intros k0 p' _. simpl. rewrite map_get_set.
    destruct (k0 =? k) eqn:E; [|apply Hrefl].
    apply Z.eqb_eq in E. subst k0. intros [= <-].
    exists player. split; [exact Hget | simpl; lia].
Qed.

Lemma serverStep_started (now : Z) (s s' : server) :
  serverStep ok now s s' -> gameStarted s = true -> gameStarted s' = true.
Proof.
  intros Hstep G.
  destruct Hstep as [|rx ry color cx cy _|k|_|rx ry|k player v Hget]; auto.
  - unfold register. destruct (_ && _); simpl; auto.
  - now destruct (update_outcome s) as (_ & _ & _ & ->).
  - unfold onCoinTimer. destruct (_ && _); simpl; auto.
Qed.

(** A coin that is not live stays out, as long as no coin is spawned in the
    millisecond that gave it its id. *)
Lemma serverStep_lacks (now : Z) (s s' : server) (c : coin) :
  serverStep ok now s s' -> now <> c_id c -> ~ In c (coins s) ->
  ~ In c (coins s').
Proof.
  intros Hstep Hnow Hc.
  assert (Hspawn : forall rx ry s0, coins s0 = coins s ->
                     ~ In c (coins (spawnCoin now rx ry s0))).
  { intros rx ry s0 E. simpl. rewrite E. intros Hin.
    apply in_app_iff in Hin. destruct Hin as [Hin|[<-|[]]]; [auto|].
    now apply Hnow. }
  destruct Hstep as [|rx ry color cx cy _|k|G|rx ry|k player v Hget]; auto.
  - unfold register. destruct (_ && _); [apply Hspawn; reflexivity | exact Hc].
  - destruct (update_outcome s) as (_ & [f ->] & _). intros Hin.
    apply filter_In in Hin. apply Hc, Hin.
  - unfold onCoinTimer. destruct (_ && _); [apply Hspawn; reflexivity | exact Hc].
Qed.

End Invariants.

Section Runs.

Lemma run_app (es1 es2 : list event) (w : world) :
  run (es1 ++ es2) w
  = match run es1 w with
    | Normal w1 => run es2 w1
    | Throw err w1 => Throw err w1
    end.
Proof.
  revert w. induction es1 as [|e es1 IH]; intros w; simpl; [reflexivity|].
  destruct (step e w) as [w'|err w']; [apply IH | reflexivity].
Qed.

Lemma run_snoc_Normal (es : list event) (e : event) (w w2 : world) :
  run (es ++ [e]) w = Normal w2 ->
  exists w1, run es w = Normal w1 /\ step e w1 = Normal w2.
Proof.
  rewrite run_app. destruct (run es w) as [w1|err w1]; [|discriminate].
  simpl. destruct (step e w1) as [w'|err w'] eqn:E; [|discriminate].
  intros [= <-]. now exists w1.
Qed.

(** A property of the [GameServer] object that every event keeps holds at
    the end of every run, however it ends. *)
Lemma run_invariant (P : server -> Prop) :
  (forall e w, P (srv w) -> P (srv (outcome (step e w)))) ->
  forall es w, P (srv w) -> P (srv (outcome (run es w))).
Proof.
  intros Hstep es. induction es as [|e es IH]; intros w Hw; simpl; [exact Hw|].
  specialize (Hstep e w Hw).
  destruct (step e w) as [w'|err w']; simpl in *; [apply IH|]; exact Hstep.
Qed.

Lemma boot_wellFormed (now0 : Z) : wellFormed (srv (boot now0)).
Proof.
  refine (conj _ (conj _ (conj _ _))); simpl.
  - constructor.
  - constructor.
  - intros _. split; [lia|reflexivity].
  - lia.
Qed.

Lemma run_wellFormed (es : list event) (w : world) :
  wellFormed (srv w) -> wellFormed (srv (outcome (run es w))).
Proof.
  apply run_invariant. intros e w0 H.
  apply (serverStep_wellFormed _ _ _ _ H
           (step_serverStep anyDraw e w0 (drawsSatisfy_any e))).
Qed.

Lemma reachable_wellFormed (now0 : Z) (es : list event) (w : world) :
  run es (boot now0) = Normal w -> wellFormed (srv w).
Proof.
  intros H.
  pose proof (run_wellFormed es (boot now0) (boot_wellFormed now0)) as W.
  now rewrite H in W.
Qed.

Lemma run_started (es : list event) (w : world) :
  gameStarted (srv w) = true -> gameStarted (srv (outcome (run es w))) = true.
Proof.
  apply (run_invariant (fun s => gameStarted s = true)). intros e w0 H.
  apply (serverStep_started _ _ _ _
           (step_serverStep anyDraw e w0 (drawsSatisfy_any e)) H).
Qed.

Lemma scoresGrow_refl (s : server) : scoresGrow s s.
Proof.
  split; [lia|]. intros k p' _ H. exists p'. split; [exact H|lia].
Qed.

Lemma scoresGrow_trans (s1 s2 s3 : server) :
  scoresGrow s1 s2 -> scoresGrow s2 s3 -> scoresGrow s1 s3.
Proof.
  intros [Hn1 H1] [Hn2 H2]. split; [lia|]. intros k p3 Hk Hget.
  destruct (H2 k p3 ltac:(lia) Hget) as (p2 & Hget2 & Hle2).
  destruct (H1 k p2 Hk Hget2) as (p1 & Hget1 & Hle1).
  exists p1. split; [exact Hget1 | lia].
Qed.

Lemma run_scoresGrow (es : list event) :
  forall w, scoresGrow (srv w) (srv (outcome (run es w))).
Proof.
  induction es as [|e es IH]; intros w; simpl; [apply scoresGrow_refl|].
  pose proof (serverStep_scoresGrow _ _ _ _
                (step_serverStep anyDraw e w (drawsSatisfy_any e))) as H.
  destruct (step e w) as [w'|err w']; simpl in *; [|exact H].
  eapply scoresGrow_trans; [exact H | apply IH].
Qed.

(** Once a coin is gone and the clock has passed the millisecond of its
    id, no frame written later lists it. *)
Lemma run_lacks (c : coin) (es : list event) :
  forall w,
    Forall (fun e => c_id c < eventTime e) es ->
    ~ In c (coins (srv w)) ->
    exists new,
      written (outcome (run es w)) = written w ++ new
      /\ Forall (frameLacks c) new
      /\ ~ In c (coins (srv (outcome (run es w)))).
Proof.
  induction es as [|e es IH]; intros w Hes Hc; simpl.
  - exists []. rewrite app_nil_r. repeat split; [constructor | exact Hc].
  - inversion Hes as [|? ? He Hes']; subst.
    assert (Hc' : ~ In c (coins (srv (outcome (step e w))))).
    { apply (serverStep_lacks _ _ _ _ c
               (step_serverStep anyDraw e w (drawsSatisfy_any e)));
        [lia | exact Hc]. }
    assert (Hw : exists new1,
               written (outcome (step e w)) = written w ++ new1
               /\ Forall (frameLacks c) new1).
    { destruct (step_written e w) as [->|(conn & data & ->)].
      - exists []. rewrite app_nil_r. split; [reflexivity | constructor].
      - eexists. split; [reflexivity|]. constructor; [|constructor].
        unfold frameLacks. simpl. destruct data as [pid pl|ts pls []]; simpl;
          [exact I | exact Hc]. }
    destruct Hw as (new1 & Hw1 & Hl1).
    destruct (step e w) as [w'|err w']; simpl in *.
    + destruct (IH w' Hes' Hc') as (new2 & Hw2 & Hl2 & Hc2).
      exists (new1 ++ new2). rewrite Hw2, Hw1, app_assoc.
      repeat split; [apply Forall_app; auto | exact Hc2].
    + exists new1. repeat split; assumption.
Qed.

End Runs.

Section Scoring.

Lemma onTick_Normal (now : Z) (w w1 : world) :
  gameStarted (srv w) = true ->
  step (Tick now) w = Normal w1 ->
  update (srv w) = Normal (srv w1).
Proof.
  simpl. unfold onTick. intros ->.
  destruct (update (srv w)) as [s'|err s']; [|discriminate].
  intros [= <-].
  now destruct (srv_broadcastGameState now (set_srv w s')) as [-> _].
Qed.

Lemma update_Normal_sweep (s s1 : server) :
  update s = Normal s1 ->
  sweep (players s) (coins s) = Some (players s1, coins s1).
Proof.
  unfold update.
  destruct (update_loop (players s) [] (coins s)) as [r|err r] eqn:E;
    [|discriminate].
  intros [= <-]. apply update_loop_Normal in E.
  destruct E as (qs & cs' & Hs & ->). exact Hs.
Qed.

(** C2. In a tick of a running game that completes, a live coin is removed
    exactly when the box of some player, after its move, overlaps it; each
    player gains exactly one point per coin it is the first, in the order
    of the map, to overlap, so that a coin counts for one player only; no
    frame written afterwards lists a removed coin, once the clock has
    passed the millisecond of its id; and through any further events every
    score stays non-negative and never decreases. *)
Theorem collisions_score_once (now0 now : Z) (es : list event) (w w1 : world) :
  run es (boot now0) = Normal w ->
  gameStarted (srv w) = true ->
  step (Tick now) w = Normal w1 ->
  coins (srv w1) = filter (unclaimed (players (srv w1))) (coins (srv w))
  /\ Forall2
       (fun kp kp' =>
          fst kp' = fst kp
          /\ p_score (snd kp')
             = p_score (snd kp)
               + count (wonBy (players (srv w1)) (fst kp)) (coins (srv w)))
       (players (srv w)) (players (srv w1))
  /\ (forall c es',
        In c (coins (srv w)) -> ~ In c (coins (srv w1)) ->
        Forall (fun e => c_id c < eventTime e) es' ->
        exists new,
          written (outcome (run es' w1)) = written w1 ++ new
          /\ Forall (frameLacks c) new)
  /\ (forall es' k p p',
        map_get k (players (srv w)) = Some p ->
        map_get k (players (srv (outcome (run es' w)))) = Some p' ->
        0 <= p_score p <= p_score p').
Proof.
  intros Hrun G Htick.
  pose proof (reachable_wellFormed _ _ _ Hrun) as (Hnd & Hk & _).
  pose proof (update_Normal_sweep _ _ (onTick_Normal _ _ _ G Htick)) as Hs.
  split; [apply (sweep_coins _ _ _ _ Hs)|].
  split; [apply (sweep_scores _ _ _ _ Hnd Hs)|].
  split.
  - intros c es' _ Hgone Hlater.
    destruct (run_lacks c es' w1 Hlater Hgone) as (new & Hw & Hl & _).
    now exists new.
  - intros es' k p p' Hget Hget'.
    pose proof (map_get_In _ _ _ Hget) as Hin.
    rewrite Forall_forall in Hk. destruct (Hk _ Hin) as [Hlt Hpos].
    simpl in Hlt, Hpos.
    destruct (run_scoresGrow es' w) as [_ Hgrow].
    destruct (Hgrow k p' Hlt Hget') as (p0 & Hget0 & Hle).
    rewrite Hget in Hget0. injection Hget0 as <-. lia.
Qed.

End Scoring.

Section Idle.

Lemma set_srv_same (w : world) : set_srv w (srv w) = w.
Proof. now destruct w. Qed.

Lemma serverStep_starts (ok : number -> number -> Prop) (now : Z)
  (s s' : server) :
  serverStep ok now s s' -> gameStarted s = false -> gameStarted s' = true ->
  (2 <= List.length (players s'))%nat.
Proof.
  intros Hstep G G'.
  destruct Hstep as [|rx ry color cx cy _|k|G0|rx ry|k player v Hget];
    try congruence.
  - unfold register in *.
    destruct ((2 <=? _) && _) eqn:E; simpl in *; [|congruence].
    apply andb_true_iff in E. destruct E as [E _]. apply Z.leb_le in E. lia.
  - simpl in G'. congruence.
  - unfold onCoinTimer in G'. rewrite G in G'. simpl in G'. congruence.
  - simpl in G'. congruence.
Qed.

Lemma started_everTwo (now0 : Z) (es : list event) :
  forall w,
    run es (boot now0) = Normal w -> gameStarted (srv w) = true ->
    everTwo now0 es.
Proof.
  induction es as [|e es IH] using rev_ind; intros w Hrun G.
  - injection Hrun as <-. discriminate.
  - destruct (run_snoc_Normal _ _ _ _ Hrun) as (w1 & Hrun1 & Hstep).
    destruct (gameStarted (srv w1)) eqn:G1.
    + destruct (IH w1 Hrun1 G1) as (es1 & es2 & w0 & -> & H0 & Hlen).
      exists es1, (es2 ++ [e]), w0. rewrite app_assoc. auto.
    + exists (es ++ [e]), [], w. rewrite app_nil_r.
      repeat split; [exact Hrun|].
      pose proof (step_serverStep anyDraw e w1 (drawsSatisfy_any e)) as Hs.
      rewrite Hstep in Hs. apply (serverStep_starts _ _ _ _ Hs G1 G).
Qed.

Lemma everTwo_started (now0 : Z) (es : list event) (w : world) :
  run es (boot now0) = Normal w -> everTwo now0 es ->
  gameStarted (srv w) = true.
Proof.
  intros Hrun (es1 & es2 & w1 & -> & Hrun1 & Hlen).
  pose proof (reachable_wellFormed _ _ _ Hrun1) as (_ & _ & Hidle & _).
  assert (G1 : gameStarted (srv w1) = true).
  { destruct (gameStarted (srv w1)); [reflexivity|].
    destruct (Hidle eq_refl). lia. }
  rewrite run_app, Hrun1 in Hrun.
  pose proof (run_started es2 w1 G1) as G. now rewrite Hrun in G.
Qed.

(** C6. At the end of any run of the server: the game has started exactly
    when two players or more were registered at some point of the run;
    while it has not, a tick and the coin timer leave the whole state as it
    is; a connection is registered in either case, and starts the game when
    it is the second; a started game stays started through every further
    event; and the coin timer of a started game adds a coin when fewer than
    five are live and does nothing otherwise, so that at most five are
    live. *)
Theorem idle_until_second_player (now0 : Z) (es : list event) (w : world) :
  run es (boot now0) = Normal w ->
  (gameStarted (srv w) = true <-> everTwo now0 es)
  /\ (gameStarted (srv w) = false ->
      forall now rx ry,
        step (Tick now) w = Normal w
        /\ step (CoinTimer now rx ry) w = Normal w)
  /\ (forall now rx ry color cx cy,
        let w' := handleConnection now rx ry color cx cy w in
        map_get (nextPlayerId (srv w)) (players (srv w'))
        = Some (newPlayer (nextPlayerId (srv w)) rx ry color)
        /\ List.length (players (srv w')) = S (List.length (players (srv w)))
        /\ ((1 <= List.length (players (srv w)))%nat ->
            gameStarted (srv w') = true))
  /\ (gameStarted (srv w) = true ->
      forall es', gameStarted (srv (outcome (run es' w))) = true)
  /\ (gameStarted (srv w) = true ->
      forall now rx ry,
        coins (onCoinTimer now rx ry (srv w))
        = if (List.length (coins (srv w)) <? 5)%nat
          then coins (srv w)
               ++ [ {| c_id := now;
                       c_x := (rx * (MAP_SIZE - COIN_SIZE))%float;
                       c_y := (ry * (MAP_SIZE - COIN_SIZE))%float |} ]
          else coins (srv w))
  /\ (List.length (coins (srv w)) <= 5)%nat.
Proof.
  intros Hrun.
  pose proof (reachable_wellFormed _ _ _ Hrun) as Hwf.
  pose proof (wellFormed_fresh _ Hwf) as Hfresh.
  destruct Hwf as (_ & _ & _ & Hcap).
  split; [split; [apply (started_everTwo _ _ _ Hrun)
                 | apply (everTwo_started _ _ _ Hrun)]|].
  split.
  { intros G now rx ry. simpl. unfold onTick, onCoinTimer. rewrite G. simpl.
    now rewrite set_srv_same. }
  split.
  { intros now rx ry color cx cy w'.
    assert (Hsrv : srv w' = register now rx ry color cx cy (srv w))
      by reflexivity.
    destruct (register_players now rx ry color cx cy (srv w)) as [Hp _].
    rewrite Hsrv, Hp. split; [|split].
    - rewrite map_get_set, Z.eqb_refl. reflexivity.
    - rewrite (map_set_fresh _ _ _ Hfresh), length_app. simpl. lia.
    - intros Hone. unfold register.
      rewrite (map_set_fresh _ _ _ Hfresh). cbn [players gameStarted].
      destruct (gameStarted (srv w)) eqn:G.
      + rewrite andb_false_r. reflexivity.
      + rewrite andb_true_r.
        replace (2 <=? _) with true; [reflexivity|].
        symmetry. apply Z.leb_le. rewrite length_app. simpl. lia. }
  split; [intros G es'; apply run_started, G|].
  split; [|exact Hcap].
  intros G now rx ry. unfold onCoinTimer. rewrite G. simpl.
  destruct (Nat.ltb_spec (List.length (coins (srv w))) 5) as [H|H].
  - replace (_ <? 5) with true; [reflexivity|]. symmetry. apply Z.ltb_lt. lia.
  - replace (_ <? 5) with false; [reflexivity|]. symmetry. apply Z.ltb_ge. lia.
Qed.

End Idle.

(** * Input messages *)

Section Inputs.

(** C7, as stated, fails: a field that is not a boolean is stored as it is,
    and the next tick reads it as set when it is truthy. Here player 2 is at
    rest at x = 400 and the string in [right] moves it to 403. *)
Lemma malformed_field_is_not_coerced :
  let s' := outcome (handleMessage 2 sloppyInput cornerGame) in
  option_map p_inputs (map_get 2 (players s'))
  = Some (Some (JObj [("right"%string, JStr "yes")]))
  /\ option_map p_x (map_get 2 (players (outcome (update s'))))
     = Some 403%float.
Proof. split; reflexivity. Qed.

(** An input message without [inputs] stores [undefined], and the next tick
    throws at the first read of a flag. *)
Lemma tick_throws_on_missing_inputs :
  let s' := outcome (handleMessage 2 emptyInput cornerGame) in
  option_map p_inputs (map_get 2 (players s')) = Some undefined
  /\ exists s'', update s' = Throw TypeError s''.
Proof. split; [reflexivity|]. eexists. reflexivity. Qed.

Lemma readFlags_object (props : list (string * json)) :
  readFlags (Some (JObj props))
  = Some (truthy (lookup "up" props), truthy (lookup "down" props),
          truthy (lookup "left" props), truthy (lookup "right" props)).
Proof. reflexivity. Qed.

Lemma readFlags_defined (v : jsval) :
  v <> undefined -> v <> Some JNull -> exists flags, readFlags v = Some flags.
Proof.
  unfold undefined. intros H1 H2.
  destruct v as [[| | | | |]|]; try congruence; eexists; reflexivity.
Qed.

Lemma update_loop_completes (todo : playerMap) :
  forall done cs,
    (forall k p, In (k, p) todo ->
                 p_inputs p <> undefined /\ p_inputs p <> Some JNull) ->
    exists r, update_loop todo done cs = Normal r.
Proof.
  induction todo as [|[k p] rest IH]; intros done cs H; simpl.
  - eexists. reflexivity.
  - rewrite updatePlayer_spec.
    destruct (H k p (or_introl eq_refl)) as [H1 H2].
    destruct (readFlags_defined _ H1 H2) as [flags ->]. cbv zeta.
    apply IH. intros k' p' Hin. apply (H k' p'). now right.
Qed.

(** C7, amended. Handling a message never throws. It changes nothing when
    the player id is unknown. An input message stores the value of its
    [inputs] field as the intent of the player, whole and as received, with
    no coercion. A tick reads each flag of a stored object by truthiness, so
    that a missing field counts as not set; and a tick completes whenever no
    stored intent is [null] or [undefined]. *)
Theorem handleMessage_stores_inputs (playerId : Z) (message : text)
  (s : server) :
  exists s',
    handleMessage playerId message s = Normal s'
    /\ (map_get playerId (players s) = None -> s' = s)
    /\ (forall player data v,
          map_get playerId (players s) = Some player ->
          JSON_parse message = Some data ->
          getProp (Some data) "type" = Some (Some (JStr "input")) ->
          getProp (Some data) "inputs" = Some v ->
          s' = set_players s
                 (map_set playerId (set_inputs player v) (players s)))
    /\ (forall p props,
          p_inputs p = Some (JObj props) ->
          readFlags (p_inputs p)
          = Some (truthy (lookup "up" props), truthy (lookup "down" props),
                  truthy (lookup "left" props), truthy (lookup "right" props)))
    /\ ((forall k p, In (k, p) (players s') ->
                     p_inputs p <> undefined /\ p_inputs p <> Some JNull) ->
        exists s'', update s' = Normal s'').
Proof.
  assert (Hlast : forall s',
             (forall k p, In (k, p) (players s') ->
                          p_inputs p <> undefined /\ p_inputs p <> Some JNull) ->
             exists s'', update s' = Normal s'').
  { intros s' H. unfold update.
    destruct (update_loop_completes (players s') [] (coins s') H) as [r ->].
    eexists. reflexivity. }
  assert (Hflags : forall p props,
             p_inputs p = Some (JObj props) ->
             readFlags (p_inputs p)
             = Some (truthy (lookup "up" props), truthy (lookup "down" props),
                     truthy (lookup "left" props),
                     truthy (lookup "right" props))).
  { intros p props ->. apply readFlags_object. }
  assert (Hdropped :
            (forall player data v,
                map_get playerId (players s) = Some player ->
                JSON_parse message = Some data ->
                getProp (Some data) "type" = Some (Some (JStr "input")) ->
                getProp (Some data) "inputs" = Some v -> False) ->
            exists s',
              Normal s = Normal s'
              /\ (map_get playerId (players s) = None -> s' = s)
              /\ (forall player data v,
                    map_get playerId (players s) = Some player ->
                    JSON_parse message = Some data ->
                    getProp (Some data) "type" = Some (Some (JStr "input")) ->
                    getProp (Some data) "inputs" = Some v ->
                    s' = set_players s
                           (map_set playerId (set_inputs player v) (players s)))
              /\ (forall p props,
                    p_inputs p = Some (JObj props) ->
                    readFlags (p_inputs p)
                    = Some (truthy (lookup "up" props),
                            truthy (lookup "down" props),
                            truthy (lookup "left" props),
                            truthy (lookup "right" props)))
              /\ ((forall k p, In (k, p) (players s') ->
                               p_inputs p <> undefined
                               /\ p_inputs p <> Some JNull) ->
                  exists s'', update s' = Normal s'')).
  { intros Hno. exists s. split; [reflexivity|]. split; [reflexivity|].
    split; [|split; [exact Hflags | apply Hlast]].
    intros player data v H1 H2 H3 H4. destruct (Hno player data v H1 H2 H3 H4). }
  unfold handleMessage, handleMessage_try.
  destruct (JSON_parse message) as [data|] eqn:Hdata.
  2:{ apply Hdropped. intros player data v _ H. discriminate. }
  destruct (map_get playerId (players s)) as [player|] eqn:Hget.
  2:{ apply Hdropped. intros player data' v H. discriminate. }
  destruct (getProp (Some data) "type") as [ty|] eqn:Hty.
  2:{ apply Hdropped. intros player' data' v _ [= <-] H. congruence. }
  destruct (strict_eq_str ty "input") eqn:Hin.
  2:{ apply Hdropped. intros player' data' v _ [= <-] H.
      rewrite H in Hty. injection Hty as <-. discriminate. }
  destruct (getProp (Some data) "inputs") as [v|] eqn:Hv.
  2:{ apply Hdropped. intros player' data' v _ [= <-] _ H. congruence. }
  eexists. split; [reflexivity|]. split; [discriminate|].
  split; [|split; [exact Hflags | apply Hlast]].
  intros player' data' v' [= <-] [= <-] _ Hv'. rewrite Hv' in Hv.
  now injection Hv as <-.
Qed.

End Inputs.

(** * Snapshots in flight *)

Section Snapshots.

(** The frame written for a state message built from [s] and sent when
    the server is in state [s']: the players are those of [s], the coins
    those of [s']. *)
Lemma state_frame_reads_coins_late (now : Z) (s s' : server) :
  JSON_stringify s' (buildState now s)
  = StateFrame now (map (fun kp => serializePlayer (snd kp)) (players s))
      (coins s').
Proof. reflexivity. Qed.

(** C3 on a run: the snapshot built by the tick of 3000, when one coin is
    live, is written to the socket of player 1 at 3180 with the coin that
    the coin timer spawned after it was built. The frames written by then
    are the two init frames and that state frame. *)
Theorem delayed_frame_lists_later_coin :
  let atBuild := outcome (run upToSnapshot (boot 0)) in
  let atDelivery := outcome (run upToDelivery (boot 0)) in
  let view1 :=
    {| v_id := 1; v_x := 385%float; v_y := 385%float; v_score := 0;
       v_color := "hsl(10, 70%, 60%)" |} in
  let view2 :=
    {| v_id := 2; v_x := 192.5%float; v_y := 192.5%float; v_score := 0;
       v_color := "hsl(200, 70%, 60%)" |} in
  let coin1 := {| c_id := 2990; c_x := 585%float; c_y := 585%float |} in
  let coin2 := {| c_id := 3000; c_x := 97.5%float; c_y := 97.5%float |} in
  coins (srv atBuild) = [coin1]
  /\ buildState 3000 (srv atBuild) = StateMessage 3000 [view1; view2] ThisCoins
  /\ written atDelivery
     = [ (1, InitFrame 1 view1); (2, InitFrame 2 view2);
         (1, StateFrame 3000 [view1; view2] [coin1; coin2]) ].
Proof. vm_compute. repeat split. Qed.

End Snapshots.

(** * Positions along a run *)

Section Positions.

Lemma inBounds_number (a : number) : inBounds a -> isNaN a = false.
Proof. intros [_ H]. apply (leb_not_nan_l _ _ H). Qed.

Lemma update_loop_numbers (todo : playerMap) :
  forall done cs,
    Forall (fun kp => positionIsNumber (snd kp)) todo ->
    Forall (fun kp => positionIsNumber (snd kp)) done ->
    Forall (fun kp => positionIsNumber (snd kp))
      (fst (outcome (update_loop todo done cs))).
Proof.
  induction todo as [|[k p] rest IH]; intros done cs Htodo Hdone; simpl.
  - apply Forall_rev, Hdone.
  - rewrite updatePlayer_spec.
    destruct (readFlags (p_inputs p)) as [flags|]; cbv zeta.
    + inversion Htodo as [|? ? Hp Hrest]; subst.
      apply IH; [exact Hrest|]. constructor; [|exact Hdone].
      destruct (move_in_bounds p flags Hp) as [Hx Hy].
      split; simpl; apply inBounds_number; assumption.
    + simpl. rewrite rev_append_rev. apply Forall_app.
      split; [apply Forall_rev, Hdone | exact Htodo].
Qed.

Lemma map_set_In (k : Z) (p : player) (m : playerMap) (kp : Z * player) :
  In kp (map_set k p m) -> In kp m \/ kp = (k, p).
Proof.
  induction m as [|[k' p'] m IH]; simpl.
  - intros [<-|[]]. now right.
  - destruct (k =? k'); simpl.
    + intros [<-|H]; auto.
    + intros [<-|H]; auto. destruct (IH H); auto.
Qed.

Lemma serverStep_numbers (now : Z) (s s' : server) :
  serverStep finiteDraw now s s' -> numbersOnly s -> numbersOnly s'.
Proof.
  unfold numbersOnly. intros Hstep Hs.
  destruct Hstep as [|rx ry color cx cy [Hx Hy]|k|G|rx ry|k player v Hget].
  - exact Hs.
  - destruct (register_players now rx ry color cx cy s) as [-> _].
    rewrite Forall_forall in *. intros kp Hin.
    destruct (map_set_In _ _ _ _ Hin) as [H| ->]; [apply Hs, H|].
    split; simpl; apply mul_not_nan; auto.
  - simpl. unfold map_delete. rewrite Forall_forall in *. intros kp Hin.
    apply filter_In in Hin. apply Hs, Hin.
  - unfold update.
    pose proof (update_loop_numbers (players s) [] (coins s) Hs
                  (Forall_nil _)) as H.
    destruct (update_loop (players s) [] (coins s)); exact H.
  - unfold onCoinTimer. destruct (_ && _); exact Hs.
  - simpl. rewrite Forall_forall in *. intros kp Hin.
    destruct (map_set_In _ _ _ _ Hin) as [H| ->]; [apply Hs, H|].
    apply (Hs _ (map_get_In _ _ _ Hget)).
Qed.

(** With the numbers [Math.random()] gives, no position is ever NaN: the
    premise of the bound on positions holds at every tick of every run. *)
Lemma reachable_positions_are_numbers (now0 : Z) (es : list event) :
  Forall (drawsSatisfy finiteDraw) es ->
  numbersOnly (srv (outcome (run es (boot now0)))).
Proof.
  assert (H : forall w, Forall (drawsSatisfy finiteDraw) es ->
                        numbersOnly (srv w) ->
                        numbersOnly (srv (outcome (run es w)))).
  { induction es as [|e es IH]; intros w Hes Hw; simpl; [exact Hw|].
    inversion Hes as [|? ? He Hes']; subst.
    pose proof (serverStep_numbers _ _ _ (step_serverStep _ e w He) Hw) as Hw'.
    destruct (step e w) as [w'|err w']; simpl in *; [apply IH|]; assumption. }
  intros Hes. apply H; [exact Hes | constructor].
Qed.

End Positions.

(** * The interpolation factor *)

Section Digits.

Lemma digits2_pos_bounds (p : positive) :
  2 ^ (Zpos (digits2_pos p) - 1) <= Zpos p < 2 ^ Zpos (digits2_pos p).
Proof.
  induction p as [p IH|p IH|]; simpl digits2_pos.
  - rewrite Pos2Z.inj_succ.
    replace (Z.succ (Zpos (digits2_pos p)) - 1)
      with (Z.succ (Zpos (digits2_pos p) - 1)) by lia.
    rewrite !Z.pow_succ_r by lia. lia.
  - rewrite Pos2Z.inj_succ.
    replace (Z.succ (Zpos (digits2_pos p)) - 1)
      with (Z.succ (Zpos (digits2_pos p) - 1)) by lia.
    rewrite !Z.pow_succ_r by lia. lia.
  - simpl. lia.
Qed.

Lemma Zdigits2_unique (p : positive) (d : Z) :
  2 ^ (d - 1) <= Zpos p < 2 ^ d -> Zdigits2 (Zpos p) = d.
Proof.
  intros [Hlo Hhi]. simpl.
  pose proof (digits2_pos_bounds p) as [Blo Bhi].
  assert (0 < d).
  { destruct (Z.ltb_spec 0 d); [assumption|].
    rewrite (Z.pow_neg_r 2 (d - 1)) in Hlo by lia.
    destruct (Z.eqb_spec d 0) as [->|]; [simpl in Hhi; lia|].
    rewrite (Z.pow_neg_r 2 d) in Hhi by lia. lia. }
  destruct (Z.lt_trichotomy (Zpos (digits2_pos p)) d) as [Hlt|[Heq|Hgt]];
    [|exact Heq|].
  - assert (2 ^ Zpos (digits2_pos p) <= 2 ^ (d - 1))
      by (apply Z.pow_le_mono_r; lia). lia.
  - assert (2 ^ d <= 2 ^ (Zpos (digits2_pos p) - 1))
      by (apply Z.pow_le_mono_r; lia). lia.
Qed.

Lemma iter_xO_pow (p d : positive) :
  Zpos (Pos.iter xO p d) = Zpos p * 2 ^ Zpos d.
Proof.
  revert p. induction d as [|d IH] using Pos.peano_ind; intros p.
  - simpl. lia.
  - rewrite Pos.iter_succ, Pos2Z.inj_succ, Z.pow_succ_r by lia.
    rewrite Pos2Z.inj_xO, IH. lia.
Qed.

End Digits.

Section Conversion.

(** [fexp] for binary64. *)
Lemma fexp64 (e : Z) : fexp prec emax e = Z.max (e - 53) (-1074).
Proof. reflexivity. Qed.

Lemma shr_fexp_53 (m : positive) (e : Z) (l : location) :
  Zdigits2 (Zpos m) = 53 -> -1074 <= e ->
  shr_fexp prec emax (Zpos m) e l = (shr_record_of_loc (Zpos m) l, e).
Proof.
  intros Hd He. unfold shr_fexp. rewrite Hd, fexp64.
  replace (Z.max (53 + e - 53) (-1074) - e) with 0 by lia. reflexivity.
Qed.

Lemma shr_fexp_54 (m : positive) (e : Z) (l : location) :
  Zdigits2 (Zpos m) = 54 -> -1075 <= e ->
  shr_fexp prec emax (Zpos m) e l
  = (shr_1 (shr_record_of_loc (Zpos m) l), e + 1).
Proof.
  intros Hd He. unfold shr_fexp. rewrite Hd, fexp64.
  replace (Z.max (54 + e - 53) (-1074) - e) with 1 by lia. reflexivity.
Qed.

(** A mantissa of 53 bits at an exponent in range is already rounded. *)
Lemma binary_round_aux_53 (m : positive) (e : Z) :
  Zdigits2 (Zpos m) = 53 -> -1074 <= e <= 971 ->
  binary_round_aux prec emax false (Zpos m) e loc_Exact
  = S754_finite false m e.
Proof.
  intros Hd He. unfold binary_round_aux.
  rewrite (shr_fexp_53 m e loc_Exact Hd) by lia. simpl.
  rewrite (shr_fexp_53 m e loc_Exact Hd) by lia. simpl.
  replace (e <=? 971) with true; [reflexivity|].
  symmetry. apply Z.leb_le. lia.
Qed.

(** The binary64 number of a positive integer below [2^53]: a mantissa of
    53 bits, and the integer is the mantissa shifted by the exponent. *)
Lemma number_of_Z_normal (z : Z) :
  0 < z < 2 ^ 53 ->
  exists (m : positive) (e : Z),
    Prim2SF (number_of_Z z) = S754_finite false m e
    /\ Zdigits2 (Zpos m) = 53
    /\ -52 <= e <= 0
    /\ Zpos m = z * 2 ^ (- e).
Proof.
  intros [Hpos Hlt]. destruct z as [|p|p]; try lia.
  unfold number_of_Z. rewrite of_uint63_spec, Uint63.of_Z_spec.
  rewrite Z.mod_small.
  2:{ split; [lia|]. change Uint63Axioms.wB with (2 ^ 63).
      assert (2 ^ 53 < 2 ^ 63) by (apply Z.pow_lt_mono_r; lia). lia. }
  simpl binary_normalize. unfold binary_round.
  pose proof (digits2_pos_bounds p) as [Blo Bhi].
  set (d := Zpos (digits2_pos p)) in *.
  assert (Hd : 1 <= d <= 53).
  { split; [unfold d; lia|].
    destruct (Z.leb_spec d 53); [assumption|].
    assert (2 ^ 53 <= 2 ^ (d - 1)) by (apply Z.pow_le_mono_r; lia). lia. }
  rewrite fexp64. rewrite Z.add_0_r.
  replace (Z.max (d - 53) (-1074)) with (d - 53) by lia.
  unfold shl_align. rewrite Z.sub_0_r.
  destruct (d - 53) as [|k|k] eqn:Ek; try lia.
  - (* already 53 bits *)
    rewrite binary_round_aux_53; [|simpl; fold d; lia | lia].
    exists p, 0. repeat split; try lia. simpl. fold d. lia.
  - (* shifted left *)
    assert (Hm : Zpos (Pos.iter xO p k) = Zpos p * 2 ^ Zpos k)
      by apply iter_xO_pow.
    assert (Hk : Zpos k = 53 - d) by lia.
    assert (Hdig : Zdigits2 (Zpos (Pos.iter xO p k)) = 53).
    { apply Zdigits2_unique. rewrite Hm, Hk.
      assert (E1 : 2 ^ (53 - 1) = 2 ^ (d - 1) * 2 ^ (53 - d))
        by (rewrite <- Z.pow_add_r by lia; f_equal; lia).
      assert (E2 : 2 ^ 53 = 2 ^ d * 2 ^ (53 - d))
        by (rewrite <- Z.pow_add_r by lia; f_equal; lia).
      assert (0 < 2 ^ (53 - d)) by (apply Z.pow_pos_nonneg; lia).
      rewrite E1, E2.
      split; [apply Z.mul_le_mono_nonneg_r; lia
             | apply Z.mul_lt_mono_pos_r; lia]. }
    rewrite binary_round_aux_53; [|exact Hdig | lia].
    exists (Pos.iter xO p k), (Zneg k). repeat split; try lia.
    rewrite Hm. reflexivity.
Qed.

End Conversion.

Section Division.

Lemma binary_round_aux_pack (m e : Z) (l : location) :
  binary_round_aux prec emax false m e l
  = pack (round_nearest_even (shr_m (fst (shr_fexp prec emax m e l)))
            (loc_of_shr_record (fst (shr_fexp prec emax m e l))))
      (snd (shr_fexp prec emax m e l)).
Proof.
  unfold binary_round_aux, pack.
  destruct (shr_fexp prec emax m e l) as [mrs' e']. simpl.
  destruct (shr_fexp prec emax _ e' loc_Exact) as [mrs'' e'']. reflexivity.
Qed.

Lemma pack_53 (m e : Z) :
  2 ^ 52 <= m < 2 ^ 53 -> -1074 <= e <= 971 ->
  pack m e = S754_finite false (Z.to_pos m) e.
Proof.
  intros Hm He. destruct m as [|p|p]; try lia.
  unfold pack. rewrite shr_fexp_53; [|apply Zdigits2_unique; exact Hm | lia].
  simpl. replace (e <=? 971) with true; [reflexivity|].
  symmetry. apply Z.leb_le. lia.
Qed.

Lemma pack_carry (e : Z) :
  -1075 <= e <= 970 ->
  pack (2 ^ 53) e = S754_finite false (Z.to_pos (2 ^ 52)) (e + 1).
Proof.
  intros He. unfold pack.
  change (2 ^ 53) with (Zpos (Z.to_pos (2 ^ 53))).
  rewrite shr_fexp_54; [|reflexivity | lia].
  simpl. replace (e + 1 <=? 971) with true; [reflexivity|].
  symmetry. apply Z.leb_le. lia.
Qed.

Lemma round_nearest_even_cases (m : Z) (l : location) :
  round_nearest_even m l = m \/ round_nearest_even m l = m + 1.
Proof.
  destruct l as [|[ | | ]]; simpl; auto. destruct (Z.even m); auto.
Qed.

Lemma loc_of_shr_record_of_loc (m : Z) (l : location) :
  loc_of_shr_record (shr_record_of_loc m l) = l.
Proof. destruct l as [|[ | | ]]; reflexivity. Qed.

Lemma shr_1_half (p : positive) (l : location) :
  2 <= Zpos p -> shr_m (shr_1 (shr_record_of_loc (Zpos p) l)) = Zpos p / 2.
Proof.
  intros Hp.
  assert (H : forall r s, shr_m (shr_1 {| shr_m := Zpos p; shr_r := r;
                                          shr_s := s |}) = Zpos p / 2).
  { intros r s. destruct p as [q|q|]; simpl; try lia.
    - rewrite Pos2Z.inj_xI.
      apply (Z.div_unique _ 2 _ 1); lia.
    - rewrite Pos2Z.inj_xO.
      apply (Z.div_unique _ 2 _ 0); lia. }
  destruct l as [|[ | | ]]; apply H.
Qed.

(** Rounding a quotient of 53 or 54 bits: the exponent grows by two at
    most, and when it grows the mantissa is [2^52], except in the first
    shift of a 54-bit quotient. *)
Lemma binary_round_aux_quotient (q : positive) (e : Z) (l : location) :
  2 ^ 52 <= Zpos q < 2 ^ 54 -> -1074 <= e <= 900 ->
  exists m e',
    binary_round_aux prec emax false (Zpos q) e l = S754_finite false m e'
    /\ ((Zpos q < 2 ^ 53 /\ e' = e)
        \/ (Zpos q < 2 ^ 53 /\ e' = e + 1 /\ Zpos m = 2 ^ 52)
        \/ (2 ^ 53 <= Zpos q /\ e' = e + 1
            /\ (Zpos q = 2 ^ 53 -> l = loc_Exact -> Zpos m = 2 ^ 52))
        \/ (2 ^ 53 < Zpos q /\ e' = e + 2 /\ Zpos m = 2 ^ 52)).
Proof.
  intros Hq He. rewrite binary_round_aux_pack.
  destruct (Z.ltb_spec (Zpos q) (2 ^ 53)) as [Hlt|Hge].
  - (* 53 bits: no first shift *)
    rewrite shr_fexp_53; [|apply Zdigits2_unique; lia | lia]. simpl fst.
    simpl snd. rewrite shr_m_record_of_loc, loc_of_shr_record_of_loc.
    destruct (round_nearest_even_cases (Zpos q) l) as [->| ->].
    + rewrite pack_53 by lia. eexists _, _. split; [reflexivity|]. left. auto.
    + destruct (Z.eqb_spec (Zpos q + 1) (2 ^ 53)) as [E|E].
      * rewrite E, pack_carry by lia. eexists _, _.
        split; [reflexivity|]. right. left. auto.
      * rewrite pack_53 by lia. eexists _, _. split; [reflexivity|].
        left. auto.
  - (* 54 bits: one first shift *)
    rewrite shr_fexp_54; [|apply Zdigits2_unique; lia | lia]. simpl fst.
    simpl snd.
    pose proof (shr_1_half q l ltac:(lia)) as Hhalf.
    assert (Hh : 2 ^ 52 <= Zpos q / 2 < 2 ^ 53).
    { split; [apply Z.div_le_lower_bound | apply Z.div_lt_upper_bound]; lia. }
    set (mrs := shr_1 (shr_record_of_loc (Zpos q) l)) in *.
    rewrite Hhalf.
    destruct (round_nearest_even_cases (Zpos q / 2) (loc_of_shr_record mrs))
      as [E|E]; rewrite E.
    + rewrite pack_53 by lia. eexists _, _. split; [reflexivity|].
      right. right. left. repeat split; auto.
      intros Eq El. rewrite Z2Pos.id by lia. rewrite Eq. reflexivity.
    + destruct (Z.eqb_spec (Zpos q / 2 + 1) (2 ^ 53)) as [E'|E'].
      * rewrite E', pack_carry by lia. eexists _, _.
        split; [reflexivity|]. right. right. right.
        repeat split; auto; try lia.
        assert (Zpos q / 2 = 2 ^ 53 - 1) by lia.
        destruct (Z.eqb_spec (Zpos q) (2 ^ 53)) as [Eq|Eq]; [|lia].
        rewrite Eq in H. vm_compute in H. discriminate.
      * rewrite pack_53 by lia. eexists _, _. split; [reflexivity|].
        right. right. left. repeat split; auto.
        intros Eq El. exfalso.
        assert (Eq' : q = Z.to_pos (2 ^ 53)) by lia.
        clear - E Eq' El. subst q l mrs. vm_compute in E. discriminate.
Qed.

End Division.

Section Quotient.

Lemma new_location_zero (n : Z) : new_location n 0 = loc_Exact.
Proof. unfold new_location. destruct (Z.even n); reflexivity. Qed.

Lemma SFdiv_core_53 (m1 m2 : positive) (e1 e2 : Z) :
  Zdigits2 (Zpos m1) = 53 -> Zdigits2 (Zpos m2) = 53 ->
  -52 <= e1 <= 0 -> -52 <= e2 <= 0 ->
  SFdiv_core_binary prec emax (Zpos m1) e1 (Zpos m2) e2
  = let '(q, r) := Z.div_eucl (Zpos m1 * 2 ^ 53) (Zpos m2) in
    (q, e1 - e2 - 53, new_location (Zpos m2) r).
Proof.
  intros H1 H2 He1 He2. unfold SFdiv_core_binary. rewrite H1, H2, fexp64.
  replace (Z.min (Z.max (53 + e1 - (53 + e2) - 53) (-1074)) (e1 - e2))
    with (e1 - e2 - 53) by lia.
  replace (e1 - e2 - (e1 - e2 - 53)) with 53 by lia.
  cbv iota. rewrite Z.shiftl_mul_pow2 by lia. reflexivity.
Qed.

(** The quotient of two positive numbers with mantissas of 53 bits, the
    first no larger than the second, is at most one. *)
Lemma SFdiv_at_most_one (m1 m2 : positive) (e1 e2 : Z) :
  Zdigits2 (Zpos m1) = 53 -> Zdigits2 (Zpos m2) = 53 ->
  -52 <= e1 <= 0 -> -52 <= e2 <= 0 ->
  Zpos m1 * 2 ^ (- e2) <= Zpos m2 * 2 ^ (- e1) ->
  atMostOne (SF64div (S754_finite false m1 e1) (S754_finite false m2 e2)).
Proof.
  intros H1 H2 He1 He2 Hle.
  pose proof (digits2_pos_bounds m1) as B1.
  pose proof (digits2_pos_bounds m2) as B2.
  simpl in H1, H2. rewrite H1 in B1. rewrite H2 in B2.
  change (53 - 1) with 52 in B1, B2.
  (* the exponents are ordered like the values *)
  assert (Hexp : e1 <= e2).
  { destruct (Z.leb_spec e1 e2) as [|Hgt]; [assumption|exfalso].
    assert (Ea : 2 ^ (- e2) = 2 ^ (- e1) * 2 ^ (e1 - e2))
      by (rewrite <- Z.pow_add_r by lia; f_equal; lia).
    assert (0 < 2 ^ (- e1)) by (apply Z.pow_pos_nonneg; lia).
    assert (2 ^ 1 <= 2 ^ (e1 - e2)) by (apply Z.pow_le_mono_r; lia).
    rewrite Ea in Hle. nia. }
  assert (Hman : e1 = e2 -> Zpos m1 <= Zpos m2).
  { intros ->. assert (0 < 2 ^ (- e2)) by (apply Z.pow_pos_nonneg; lia). nia. }
  unfold SF64div, SFdiv. rewrite SFdiv_core_53 by assumption.
  pose proof (Z_div_mod (Zpos m1 * 2 ^ 53) (Zpos m2) ltac:(lia)) as Hdiv.
  destruct (Z.div_eucl (Zpos m1 * 2 ^ 53) (Zpos m2)) as [q r].
  destruct Hdiv as [Hdiv Hr]. simpl xorb.
  assert (Hq : 2 ^ 52 <= q < 2 ^ 54) by nia.
  destruct q as [|q|q]; try lia.
  destruct (binary_round_aux_quotient q (e1 - e2 - 53)
              (new_location (Zpos m2) r) Hq ltac:(lia))
    as (m & e' & -> & Hcases).
  exists m, e'. split; [reflexivity|].
  destruct (Z.eqb_spec e1 e2) as [Heq|Hne].
  - (* same exponent: the mantissas decide *)
    specialize (Hman Heq). subst e2.
    replace (e1 - e1 - 53) with (-53) in Hcases by lia.
    destruct (Z.eqb_spec (Zpos m1) (Zpos m2)) as [Em|Em].
    + (* equal numbers: the quotient is one *)
      assert (Zpos q = 2 ^ 53 /\ r = 0) as [Eq Er] by nia.
      subst r. rewrite new_location_zero in Hcases.
      destruct Hcases as [[? ?]|[[? ?]|[(? & ? & Hm)|(? & ? & ?)]]];
        try specialize (Hm Eq eq_refl); lia.
    + assert (Zpos q < 2 ^ 53) by nia.
      destruct Hcases as [[? ?]|[(? & ? & ?)|[(? & ? & ?)|(? & ? & ?)]]];
        lia.
  - destruct Hcases as [[? ?]|[(? & ? & ?)|[(? & ? & ?)|(? & ? & ?)]]];
      lia.
Qed.

Lemma atMostOne_leb (a : number) :
  atMostOne (Prim2SF a) -> (0 <=? a)%float = true /\ (a <=? 1)%float = true.
Proof.
  intros (m & e & Ha & He). rewrite !leb_spec, Ha.
  change (Prim2SF 0) with (S754_zero false).
  change (Prim2SF 1) with (S754_finite false 4503599627370496 (-52)).
  split; [reflexivity|]. unfold SFleb, SFcompare.
  destruct He as [He|[-> Hm]].
  - apply Z.compare_lt_iff in He. now rewrite He.
  - assert (m = 4503599627370496%positive) by lia. subst m.
    rewrite Z.compare_refl, Pos.compare_cont_refl. reflexivity.
Qed.

End Quotient.

Section Factor.

Import GameClient.

(** C10, as stated, fails: with the render time at the timestamp of
    [after], so that [t] is 1, player A is rendered at x = 0, which is not
    between its x in [before], 1, and in [after], 2^-54. *)
Lemma interpolated_coordinate_leaves_segment :
  let before := nth 0 (serverStates farApart) (bareSnapshot 0) in
  let after := nth 1 (serverStates farApart) (bareSnapshot 0) in
  timestamp before < timestamp after
  /\ timestamp before <= 200 - INTERPOLATION_DELAY <= timestamp after
  /\ factor (200 - INTERPOLATION_DELAY) before after = 1%float
  /\ map v_x (r_players (interpolateState 200 farApart)) = [0%float]
  /\ between 1%float 0x1p-54%float 0%float = false.
Proof.
  simpl. unfold INTERPOLATION_DELAY. repeat split; lia.
Qed.

(** The same happens to coordinates of the map that are more than a factor
    of two apart: with [t] at 1, player A, at x = 600.46... in [before] and
    at x = 213.85... in [after], is rendered one unit in the last place
    below the latter. *)
Lemma interpolated_coordinate_misses_after_in_the_map :
  let before := nth 0 (serverStates acrossTheMap) (bareSnapshot 0) in
  let after := nth 1 (serverStates acrossTheMap) (bareSnapshot 0) in
  Forall (fun p => inBounds (v_x p)) (players before ++ players after)
  /\ factor (200 - INTERPOLATION_DELAY) before after = 1%float
  /\ map v_x (r_players (interpolateState 200 acrossTheMap))
     = [0x1.abb475946790cp+7%float]
  /\ between 0x1.2c3bfeb3ff610p+9%float 0x1.abb475946790dp+7%float
       0x1.abb475946790cp+7%float = false.
Proof.
  simpl. repeat split; try reflexivity.
  repeat constructor; reflexivity.
Qed.

(** For timestamps in the range of [Date.now()] and a render time
    bracketed by the pair: when the timestamps of the pair differ, the
    factor [t] is a number between 0 and 1; when they are equal, the
    division is 0 / 0 and [t] is NaN. *)
Lemma factor_range (renderTime : Z) (before after : snapshot) :
  0 <= timestamp before -> timestamp after < 2 ^ 53 ->
  timestamp before <= renderTime <= timestamp after ->
  let t := factor renderTime before after in
  (timestamp before < timestamp after ->
   (0 <=? t)%float = true /\ (t <=? 1)%float = true)
  /\ (timestamp before = timestamp after -> isNaN t = true).
Proof.
  intros Hlo Hhi [Hb Ha] t. split.
  - intros Hlt. unfold t, factor.
    destruct (number_of_Z_normal (timestamp after - timestamp before))
      as (m2 & e2 & E2 & D2 & B2 & V2); [lia|].
    destruct (Z.eqb_spec renderTime (timestamp before)) as [->|Hne].
    + (* the render time is the timestamp of [before] *)
      rewrite Z.sub_diag. change (number_of_Z 0) with 0%float.
      rewrite !leb_spec, div_spec, E2.
      change (Prim2SF 0) with (S754_zero false). split; reflexivity.
    + destruct (number_of_Z_normal (renderTime - timestamp before))
        as (m1 & e1 & E1 & D1 & B1 & V1); [lia|].
      apply atMostOne_leb. rewrite div_spec, E1, E2.
      apply SFdiv_at_most_one; try assumption.
      rewrite V1, V2.
      assert (0 < 2 ^ (- e1) * 2 ^ (- e2))
        by (apply Z.mul_pos_pos; apply Z.pow_pos_nonneg; lia).
      nia.
  - intros Heq. unfold t, factor.
    replace renderTime with (timestamp before) by lia.
    rewrite <- Heq, Z.sub_diag. reflexivity.
Qed.

End Factor.

(** * More about the tick *)

Section Identity.

Lemma Forall2_samePlayer_refl (m : playerMap) : Forall2 samePlayer m m.
Proof. induction m; constructor; [repeat split | assumption]. Qed.

Lemma Forall2_samePlayer_trans (a b c : playerMap) :
  Forall2 samePlayer a b -> Forall2 samePlayer b c -> Forall2 samePlayer a c.
Proof.
  intros Hab. revert c.
  induction Hab as [|x y a b (H1 & H2 & H3 & H4) Hab IH]; intros c Hbc;
    inversion Hbc as [|? z ? c' (H1' & H2' & H3' & H4') Hbc']; subst;
    constructor.
  - repeat split; congruence.
  - apply IH, Hbc'.
Qed.

Lemma update_loop_samePlayer (todo : playerMap) :
  forall done cs,
    Forall2 samePlayer (rev done ++ todo)
      (fst (outcome (update_loop todo done cs))).
Proof.
  induction todo as [|[k p] rest IH]; intros done cs; simpl.
  - rewrite app_nil_r. apply Forall2_samePlayer_refl.
  - rewrite updatePlayer_spec.
    destruct (readFlags (p_inputs p)) as [flags|]; cbv zeta.
    + eapply Forall2_samePlayer_trans; [|apply IH]. simpl.
      rewrite <- app_assoc. simpl. apply Forall2_app.
      * apply Forall2_samePlayer_refl.
      * constructor; [|apply Forall2_samePlayer_refl]. repeat split.
    + simpl. rewrite rev_append_rev. apply Forall2_samePlayer_refl.
Qed.

Lemma update_samePlayer (s : server) :
  Forall2 samePlayer (players s) (players (outcome (update s))).
Proof.
  unfold update.
  pose proof (update_loop_samePlayer (players s) [] (coins s)) as H.
  destruct (update_loop (players s) [] (coins s)); exact H.
Qed.

End Identity.

(** X1. A tick changes nothing of a player but its position and its score:
    every entry of the map keeps its key, its id, its colour and its stored
    inputs, in the same order, and the tick leaves [nextPlayerId],
    [gameStarted] and [lastCoinSpawn] as they are; this holds also of a tick
    that ends in an exception. *)
Theorem update_changes_position_and_score_only (s : server) :
  let s' := outcome (update s) in
  Forall2 samePlayer (players s) (players s')
  /\ nextPlayerId s' = nextPlayerId s
  /\ gameStarted s' = gameStarted s
  /\ lastCoinSpawn s' = lastCoinSpawn s.
Proof.
  intros s'. split; [apply update_samePlayer|].
  unfold s', update.
  destruct (update_loop (players s) [] (coins s)); repeat split.
Qed.

Section Points.

Lemma totalScore_app (a b : playerMap) :
  totalScore (a ++ b) = totalScore a + totalScore b.
Proof. induction a as [|kp a IH]; simpl; [reflexivity | rewrite IH; lia]. Qed.

Lemma totalScore_rev (a : playerMap) : totalScore (rev a) = totalScore a.
Proof.
  induction a as [|kp a IH]; simpl; [reflexivity|].
  rewrite totalScore_app, IH. simpl. lia.
Qed.

Lemma hits_misses (p : player) (cs : list coin) :
  hits p cs + Z.of_nat (List.length (filter (misses p) cs))
  = Z.of_nat (List.length cs).
Proof.
  unfold hits, misses. pose proof (filter_length (overlaps p) cs). lia.
Qed.

Lemma update_loop_points (todo : playerMap) :
  forall done cs,
    totalScore (fst (outcome (update_loop todo done cs)))
    + Z.of_nat (List.length (snd (outcome (update_loop todo done cs))))
    = totalScore done + totalScore todo + Z.of_nat (List.length cs).
Proof.
  induction todo as [|[k p] rest IH]; intros done cs; simpl.
  - rewrite totalScore_rev. lia.
  - rewrite updatePlayer_spec.
    destruct (readFlags (p_inputs p)) as [flags|]; cbv beta iota zeta.
    + rewrite IH. simpl.
      pose proof (hits_misses (move p (displacement flags)) cs). lia.
    + simpl. rewrite rev_append_rev, totalScore_app, totalScore_rev.
      simpl. lia.
Qed.

End Points.

(** X2. A tick neither makes nor loses points: the points the players gain
    are as many as the coins that are removed, so the sum of the scores and
    of the number of live coins is the same before and after, also when the
    tick ends in an exception. *)
Theorem tick_conserves_points (s : server) :
  let s' := outcome (update s) in
  totalScore (players s') + Z.of_nat (List.length (coins s'))
  = totalScore (players s) + Z.of_nat (List.length (coins s)).
Proof.
  intros s'. unfold s', update.
  pose proof (update_loop_points (players s) [] (coins s)) as H.
  destruct (update_loop (players s) [] (coins s)); simpl in *; lia.
Qed.

(** * More about messages *)

Section Authority.

Lemma Forall2_sameButInputs_refl (k : Z) (m : playerMap) :
  Forall2 (sameButInputs k) m m.
Proof. induction m; constructor; [repeat split | assumption]. Qed.

Lemma map_set_sameButInputs (k : Z) (v : jsval) (m : playerMap) :
  forall player,
    map_get k m = Some player ->
    Forall2 (sameButInputs k) m (map_set k (set_inputs player v) m).
Proof.
  induction m as [|[k' p'] m IH]; intros player Hget; simpl in *;
    [discriminate|].
  destruct (k =? k') eqn:E.
  - apply Z.eqb_eq in E. subst k'. injection Hget as ->.
    constructor; [|apply Forall2_sameButInputs_refl].
    repeat split. simpl. intros H. congruence.
  - constructor; [repeat split | apply IH, Hget].
Qed.

End Authority.

(** X3. The server alone moves the players and keeps the scores: whatever a
    socket sends, handling it completes and changes no position, no score,
    no id, no colour, no coin, and no stored inputs but those of the player
    of that socket. *)
Theorem messages_change_inputs_only (k : Z) (message : text) (s : server) :
  exists s',
    handleMessage k message s = Normal s'
    /\ Forall2 (sameButInputs k) (players s) (players s')
    /\ coins s' = coins s
    /\ nextPlayerId s' = nextPlayerId s
    /\ gameStarted s' = gameStarted s
    /\ lastCoinSpawn s' = lastCoinSpawn s.
Proof.
  destruct (handleMessage_outcome k message s)
    as [->|(player & v & Hget & ->)].
  - exists s. split; [reflexivity|].
    split; [apply Forall2_sameButInputs_refl | repeat split].
  - eexists. split; [reflexivity|].
    split; [apply map_set_sameButInputs, Hget | repeat split].
Qed.

(** * Ids, frames and timeouts along a run *)

Section Order.

Lemma serverStep_identified (ok : number -> number -> Prop) (now : Z)
  (s s' : server) :
  identified s -> serverStep ok now s s' -> identified s'.
Proof.
  intros [Hn Hk] Hstep.
  destruct Hstep as [|rx ry color cx cy _|k|G|rx ry|k player v Hget].
  - split; assumption.
  - destruct (register_players now rx ry color cx cy s) as [Hp Hn'].
    split; [lia|]. rewrite Hp. rewrite Forall_forall in *. intros kp Hin.
    destruct (map_set_In _ _ _ _ Hin) as [H| ->]; [apply Hk, H|].
    simpl. split; [reflexivity | lia].
  - split; [exact Hn|]. simpl. unfold map_delete.
    rewrite Forall_forall in *. intros kp Hin. apply filter_In in Hin.
    apply Hk, Hin.
  - destruct (update_outcome s) as (_ & _ & Hn' & _).
    split; [lia|]. pose proof (update_samePlayer s) as HF.
    clear - HF Hk.
    induction HF as [|x y m m' (H1 & H2 & _) _ IH]; constructor;
      inversion Hk as [|? ? [Ha Hb] Hk']; subst.
    + rewrite H1, H2. split; assumption.
    + apply IH, Hk'.
  - unfold onCoinTimer. destruct (_ && _); split; assumption.
  - split; [exact Hn|]. simpl. rewrite Forall_forall in *. intros kp Hin.
    destruct (map_set_In _ _ _ _ Hin) as [H| ->]; [apply Hk, H|].
    apply (Hk _ (map_get_In _ _ _ Hget)).
Qed.

Lemma timers_broadcastGameState (now : Z) (w : world) :
  timers (broadcastGameState now w)
  = timers w
    ++ map (fun kp => {| due := now + NETWORK_LATENCY;
                         job := SendTask (p_id (snd kp))
                                  (buildState now (srv w)) |})
        (players (srv w)).
Proof.
  unfold broadcastGameState. generalize (buildState now (srv w)) as state.
  intros state. generalize (players (srv w)) as m. intros m. revert w.
  induction m as [|kp m IH]; intros w; simpl; [now rewrite app_nil_r|].
  rewrite IH. simpl. now rewrite <- app_assoc.
Qed.

Lemma take_nth_In {A : Type} (n : nat) :
  forall (l : list A) a rest,
    take_nth n l = Some (a, rest) ->
    In a l /\ forall x, In x rest -> In x l.
Proof.
  induction n as [|n IH]; intros [|b l] a rest H; simpl in H;
    try discriminate.
  - injection H as <- <-. split; [now left | intros x Hx; now right].
  - destruct (take_nth n l) as [[c rest']|] eqn:E; [|discriminate].
    injection H as <- <-. destruct (IH _ _ _ E) as [Hc Hrest].
    split; [now right|]. intros x [<-|Hx]; [now left | right; auto].
Qed.

(** The state message a broadcast builds lists every player once, when the
    map holds every player once, under its id. *)
Lemma buildState_scheduled (now : Z) (s : server) :
  wellFormed s -> identified s ->
  Forall scheduled
    (map (fun kp => {| due := now + NETWORK_LATENCY;
                       job := SendTask (p_id (snd kp)) (buildState now s) |})
       (players s)).
Proof.
  intros (Hnd & _) [_ Hk].
  assert (Hids : map v_id (map (fun kp => serializePlayer (snd kp)) (players s))
                 = keys (players s)).
  { rewrite map_map. unfold keys. apply map_ext_in. intros kp Hin. simpl.
    rewrite Forall_forall in Hk. apply (Hk kp Hin). }
  apply Forall_forall. intros t Hin. apply in_map_iff in Hin.
  destruct Hin as (kp & <- & Hin). unfold scheduled. simpl.
  split; [reflexivity|]. rewrite Hids. split; [|exact Hnd].
  rewrite Forall_forall in Hk. destruct (Hk kp Hin) as [-> _].
  apply in_map, Hin.
Qed.

Lemma JSON_stringify_addressed (s : server) (t : timer) (conn : Z)
  (data : outgoing) :
  scheduled t -> job t = SendTask conn data ->
  addressed conn (JSON_stringify s data).
Proof.
  unfold scheduled. intros H E. rewrite E in H.
  destruct data as [playerId pl|ts pls []]; simpl; [exact H | apply H].
Qed.

Lemma step_orderly (e : event) (w : world) :
  orderly w -> orderly (outcome (step e w)).
Proof.
  intros (Hwf & Hid & Ht & Hw).
  pose proof (step_serverStep anyDraw e w (drawsSatisfy_any e)) as Hstep.
  pose proof (serverStep_wellFormed _ _ _ _ Hwf Hstep) as Hwf'.
  pose proof (serverStep_identified _ _ _ _ Hid Hstep) as Hid'.
  split; [exact Hwf'|]. split; [exact Hid'|]. clear Hstep.
  destruct e as [now rx ry color cx cy|now k message|now k|now|now rx ry|now n];
    simpl in *.
  - split; [|exact Hw]. apply Forall_app. split; [exact Ht|].
    constructor; [|constructor]. unfold scheduled. simpl. auto.
  - unfold onMessage. destruct (isOpen k w); [|auto]. simpl.
    split; [|exact Hw]. apply Forall_app. split; [exact Ht|].
    constructor; [exact I | constructor].
  - unfold onClose in *.
    set (w1 := {| srv := set_players (srv w) (map_delete k (players (srv w)));
                  timers := timers w;
                  openSockets :=
                    filter (fun c => negb (k =? c)) (openSockets w);
                  written := written w |}) in *.
    destruct (srv_broadcastGameState now w1) as (Hs & Hwr & _).
    rewrite Hs in Hwf', Hid'. rewrite Hwr, timers_broadcastGameState.
    split; [|exact Hw]. apply Forall_app. split; [exact Ht|].
    apply buildState_scheduled; assumption.
  - unfold onTick in *. destruct (gameStarted (srv w)); [|auto].
    destruct (update (srv w)) as [s'|err s']; simpl in *; [|auto].
    destruct (srv_broadcastGameState now (set_srv w s')) as (Hs & Hwr & _).
    rewrite Hs in Hwf', Hid'. rewrite Hwr, timers_broadcastGameState.
    split; [|exact Hw]. apply Forall_app. split; [exact Ht|].
    apply buildState_scheduled; assumption.
  - auto.
  - unfold onTimeout in *.
    destruct (take_nth n (timers w)) as [[t rest]|] eqn:E; [|auto].
    destruct (take_nth_In _ _ _ _ E) as [Hin Hrest].
    assert (Ht' : Forall scheduled rest).
    { rewrite Forall_forall in *. intros x Hx. apply Ht, Hrest, Hx. }
    rewrite Forall_forall in Ht. specialize (Ht t Hin).
    destruct (job t) as [conn data|k message] eqn:Ej; simpl.
    + destruct (isOpen conn _); simpl; [|auto].
      split; [exact Ht'|]. apply Forall_app. split; [exact Hw|].
      constructor; [|constructor]. simpl.
      apply (JSON_stringify_addressed _ t); assumption.
    + destruct (handleMessage k message (srv w)); simpl; auto.
Qed.

Lemma boot_orderly (now0 : Z) : orderly (boot now0).
Proof.
  split; [apply boot_wellFormed|]. split.
  - split; [simpl; lia | constructor].
  - split; constructor.
Qed.

Lemma run_orderly (es : list event) :
  forall w, orderly w -> orderly (outcome (run es w)).
Proof.
  induction es as [|e es IH]; intros w Hw; simpl; [exact Hw|].
  pose proof (step_orderly e w Hw) as H.
  destruct (step e w) as [w'|err w']; simpl in *; [apply IH|]; exact H.
Qed.

End Order.

Section Ids.

Lemma step_nextPlayerId (e : event) (w : world) :
  nextPlayerId (srv (outcome (step e w)))
  = nextPlayerId (srv w) + (if isConnection e then 1 else 0).
Proof.
  destruct e as [now rx ry color cx cy|now k message|now k|now|now rx ry|now n];
    simpl.
  - apply register_players.
  - unfold onMessage. destruct (isOpen k w); simpl; lia.
  - unfold onClose.
    destruct (srv_broadcastGameState now
                {| srv := set_players (srv w) (map_delete k (players (srv w)));
                   timers := timers w;
                   openSockets :=
                     filter (fun c => negb (k =? c)) (openSockets w);
                   written := written w |}) as (-> & _).
    simpl. lia.
  - unfold onTick. destruct (gameStarted (srv w)); [|simpl; lia].
    destruct (update_outcome (srv w)) as (_ & _ & Hn & _).
    destruct (update (srv w)) as [s'|err s']; simpl in *; [|lia].
    destruct (srv_broadcastGameState now (set_srv w s')) as (-> & _).
    simpl. lia.
  - unfold onCoinTimer. destruct (_ && _); simpl; lia.
  - unfold onTimeout.
    destruct (take_nth n (timers w)) as [[t rest]|]; [|simpl; lia].
    destruct (job t) as [conn data|k message]; simpl.
    + destruct (isOpen conn _); simpl; lia.
    + destruct (handleMessage_outcome k message (srv w))
        as [->|(player & v & _ & ->)]; simpl; lia.
Qed.

Lemma run_nextPlayerId (es : list event) :
  forall w w',
    run es w = Normal w' ->
    nextPlayerId (srv w') = nextPlayerId (srv w) + connections es.
Proof.
  unfold connections.
  induction es as [|e es IH]; intros w w' H; simpl in H.
  - injection H as <-. simpl. lia.
  - pose proof (step_nextPlayerId e w) as Hs.
    destruct (step e w) as [w1|err w1]; [|discriminate]. simpl in Hs.
    rewrite (IH _ _ H), Hs. simpl filter.
    destruct (isConnection e); simpl List.length; lia.
Qed.

End Ids.

(** X4. Ids are handed out in the order of the connections and never given
    twice, whatever closes in between: after a run that accepted [n]
    connections the next id is [n + 1], and every registered player is
    stored once, under its own id, which is between 1 and [n]. *)
Theorem player_ids_are_sequential (now0 : Z) (es : list event) (w : world) :
  run es (boot now0) = Normal w ->
  nextPlayerId (srv w) = connections es + 1
  /\ NoDup (keys (players (srv w)))
  /\ Forall (fun kp => p_id (snd kp) = fst kp /\ 1 <= fst kp <= connections es)
       (players (srv w)).
Proof.
  intros Hrun.
  pose proof (run_nextPlayerId _ _ _ Hrun) as Hn.
  change (nextPlayerId (srv (boot now0))) with 1 in Hn.
  pose proof (run_orderly es (boot now0) (boot_orderly now0)) as Ho.
  rewrite Hrun in Ho. simpl in Ho.
  destruct Ho as ((Hnd & Hk & _) & [_ Hid] & _).
  split; [lia|]. split; [exact Hnd|].
  rewrite Forall_forall in *. intros kp Hin.
  destruct (Hid kp Hin) as [H1 H2]. destruct (Hk kp Hin) as [H3 _].
  split; [exact H1 | lia].
Qed.

(** X5. Whatever the run, a frame written to a socket is addressed to it:
    an init frame carries the id of the socket as [playerId] and as the id
    of its player, and a state frame lists the player of the socket, and
    lists no id twice. *)
Theorem frames_are_addressed (now0 : Z) (es : list event) :
  Forall (fun cf => addressed (fst cf) (snd cf))
    (written (outcome (run es (boot now0)))).
Proof.
  destruct (run_orderly es (boot now0) (boot_orderly now0)) as (_ & _ & _ & H).
  exact H.
Qed.

Section Latency.

(** The frames an event writes are init frames, or state frames that a
    timeout writes, due [NETWORK_LATENCY] after their timestamp. *)
Lemma step_aged (slack : Z) (e : event) (w : world) :
  Forall scheduled (timers w) -> punctual slack e w ->
  exists new,
    written (outcome (step e w)) = written w ++ new
    /\ Forall (aged (NETWORK_LATENCY - slack) (eventTime e)) new.
Proof.
  intros Ht Hp. remember (NETWORK_LATENCY - slack) as age eqn:Hage.
  assert (Hnone : exists new,
             written w = written w ++ new
             /\ Forall (aged age (eventTime e)) new).
  { exists []. rewrite app_nil_r. split; [reflexivity | constructor]. }
  destruct e as [now rx ry color cx cy|now k message|now k|now|now rx ry|now n];
    simpl; try exact Hnone.
  - unfold onMessage. destruct (isOpen k w); exact Hnone.
  - unfold onClose.
    now destruct (srv_broadcastGameState now
                {| srv := set_players (srv w) (map_delete k (players (srv w)));
                   timers := timers w;
                   openSockets :=
                     filter (fun c => negb (k =? c)) (openSockets w);
                   written := written w |}) as (_ & -> & _).
  - unfold onTick. destruct (gameStarted (srv w)); [|exact Hnone].
    destruct (update (srv w)) as [s'|err s']; simpl; [|exact Hnone].
    now destruct (srv_broadcastGameState now (set_srv w s')) as (_ & -> & _).
  - unfold onTimeout. unfold punctual in Hp.
    destruct (take_nth n (timers w)) as [[t rest]|] eqn:E; [|exact Hnone].
    destruct (take_nth_In _ _ _ _ E) as [Hin _].
    rewrite Forall_forall in Ht. specialize (Ht t Hin). unfold scheduled in Ht.
    destruct (job t) as [conn data|k message]; simpl.
    + destruct (isOpen conn _); simpl; [|exact Hnone].
      eexists. split; [reflexivity|]. constructor; [|constructor].
      unfold aged. simpl. destruct data as [playerId pl|ts pls []]; simpl;
        [exact I|]. simpl in Ht. destruct Ht as [Hdue _]. lia.
    + destruct (handleMessage k message (srv w)); exact Hnone.
Qed.

End Latency.

(** X6. A state frame is written by a timeout that is due
    [NETWORK_LATENCY] after the timestamp of the frame, and by nothing
    else: at any point of a run, an event whose timeout runs at most
    [slack] milliseconds before it is due writes init frames, or state
    frames that are at least [NETWORK_LATENCY - slack] old. Node can run a
    timeout before [Date.now()] has advanced by the delay, and [slack] is
    by how much. *)
Theorem state_frames_are_aged (now0 slack : Z) (es : list event)
  (e : event) :
  let w := outcome (run es (boot now0)) in
  punctual slack e w ->
  exists new,
    written (outcome (step e w)) = written w ++ new
    /\ Forall (aged (NETWORK_LATENCY - slack) (eventTime e)) new.
Proof.
  intros w Hp. apply step_aged; [|exact Hp].
  now destruct (run_orderly es (boot now0) (boot_orderly now0))
    as (_ & _ & Ht & _).
Qed.

Section Closed.

Lemma step_openSockets (e : event) (w : world) (k : Z) :
  k < nextPlayerId (srv w) ->
  isOpen k w = false ->
  isOpen k (outcome (step e w)) = false.
Proof.
  intros Hk Hc.
  destruct e as [now rx ry color cx cy|now k' message|now k'|now|now rx ry
                |now n]; simpl.
  - unfold isOpen in *. simpl. rewrite existsb_app, Hc. simpl.
    rewrite orb_false_r. apply Z.eqb_neq. lia.
  - unfold onMessage. destruct (isOpen k' w); exact Hc.
  - unfold onClose, isOpen in *.
    destruct (srv_broadcastGameState now
                {| srv := set_players (srv w) (map_delete k' (players (srv w)));
                   timers := timers w;
                   openSockets :=
                     filter (fun c => negb (k' =? c)) (openSockets w);
                   written := written w |}) as (_ & _ & ->).
    simpl. apply not_true_is_false. intros H. apply existsb_exists in H.
    destruct H as (x & Hx & E). apply filter_In in Hx.
    assert (Ho : existsb (Z.eqb k) (openSockets w) = true).
    { apply existsb_exists. exists x. split; [apply Hx | exact E]. }
    congruence.
  - unfold onTick. destruct (gameStarted (srv w)); [|exact Hc].
    destruct (update (srv w)) as [s'|err s']; simpl; [|exact Hc].
    unfold isOpen.
    now destruct (srv_broadcastGameState now (set_srv w s')) as (_ & _ & ->).
  - exact Hc.
  - unfold onTimeout. destruct (take_nth n (timers w)) as [[t rest]|];
      [|exact Hc].
    destruct (job t) as [conn data|k' message]; simpl.
    + destruct (isOpen conn _); exact Hc.
    + destruct (handleMessage k' message (srv w)); exact Hc.
Qed.

Lemma step_written_open (e : event) (w : world) :
  written (outcome (step e w)) = written w
  \/ exists conn f,
      isOpen conn w = true
      /\ written (outcome (step e w)) = written w ++ [(conn, f)].
Proof.
  destruct e as [now rx ry color cx cy|now k message|now k|now|now rx ry|now n];
    simpl; try (now left).
  - unfold onMessage. destruct (isOpen k w); now left.
  - left. unfold onClose.
    now destruct (srv_broadcastGameState now
                {| srv := set_players (srv w) (map_delete k (players (srv w)));
                   timers := timers w;
                   openSockets :=
                     filter (fun c => negb (k =? c)) (openSockets w);
                   written := written w |}) as (_ & -> & _).
  - left. unfold onTick. destruct (gameStarted (srv w)); [|reflexivity].
    destruct (update (srv w)) as [s'|err s']; simpl; [|reflexivity].
    now destruct (srv_broadcastGameState now (set_srv w s')) as (_ & -> & _).
  - unfold onTimeout. destruct (take_nth n (timers w)) as [[t rest]|];
      [|now left].
    destruct (job t) as [conn data|k message]; simpl.
    + destruct (isOpen conn _) eqn:E; [|now left]. right.
      exists conn, (JSON_stringify (srv w) data). split; [exact E|reflexivity].
    + left. now destruct (handleMessage k message (srv w)).
Qed.

Lemma run_closed (k : Z) (es : list event) :
  forall w,
    k < nextPlayerId (srv w) -> isOpen k w = false ->
    exists new,
      written (outcome (run es w)) = written w ++ new
      /\ Forall (fun cf => fst cf <> k) new.
Proof.
  induction es as [|e es IH]; intros w Hk Hc; simpl.
  - exists []. rewrite app_nil_r. split; [reflexivity | constructor].
  - pose proof (step_openSockets e w k Hk Hc) as Hc'.
    pose proof (step_nextPlayerId e w) as Hn.
    assert (Hw : exists new1,
               written (outcome (step e w)) = written w ++ new1
               /\ Forall (fun cf => fst cf <> k) new1).
    { destruct (step_written_open e w) as [->|(conn & f & Ho & ->)].
      - exists []. rewrite app_nil_r. split; [reflexivity | constructor].
      - eexists. split; [reflexivity|]. constructor; [|constructor].
        simpl. intros ->. congruence. }
    destruct Hw as (new1 & Hw1 & Hl1).
    destruct (step e w) as [w'|err w']; simpl in *.
    + destruct (IH w') as (new2 & Hw2 & Hl2); [|exact Hc'|].
      { rewrite Hn. destruct (isConnection e); lia. }
      exists (new1 ++ new2). rewrite Hw2, Hw1, app_assoc.
      split; [reflexivity | apply Forall_app; auto].
    + exists new1. split; assumption.
Qed.

End Closed.

(** X7. Once the socket of a connection has closed, nothing is written to
    it: whatever was pending for it when it closed, and whatever happens
    afterwards, the frames written after the close go to other sockets. *)
Theorem closed_socket_gets_no_frame (now0 now : Z) (es es' : list event)
  (k : Z) :
  let w := outcome (run es (boot now0)) in
  k < nextPlayerId (srv w) ->
  exists new,
    written (outcome (run (Close now k :: es') w)) = written w ++ new
    /\ Forall (fun cf => fst cf <> k) new.
Proof.
  intros w Hk. simpl run.
  unfold onClose.
  set (w1 := {| srv := set_players (srv w) (map_delete k (players (srv w)));
                timers := timers w;
                openSockets := filter (fun c => negb (k =? c)) (openSockets w);
                written := written w |}).
  destruct (srv_broadcastGameState now w1) as (Hs & Hwr & Ho).
  destruct (run_closed k es' (broadcastGameState now w1)) as (new & Hw & Hl).
  - rewrite Hs. exact Hk.
  - unfold isOpen. rewrite Ho. simpl. apply not_true_is_false. intros H.
    apply existsb_exists in H. destruct H as (x & Hx & E).
    apply filter_In in Hx. destruct Hx as [_ Hx].
    apply Z.eqb_eq in E. subst x. rewrite Z.eqb_refl in Hx. discriminate.
  - exists new. rewrite Hw, Hwr. split; [reflexivity | exact Hl].
Qed.

Section Waiting.

Lemma keys_map_set_present (k : Z) (p p0 : player) (m : playerMap) :
  map_get k m = Some p0 -> keys (map_set k p m) = keys m.
Proof. intros H. apply (map_set_present k p p0 m H). Qed.

Lemma isOpen_In (k : Z) (w : world) :
  isOpen k w = true -> In k (openSockets w).
Proof.
  unfold isOpen. intros H. apply existsb_exists in H.
  destruct H as (x & Hx & E). apply Z.eqb_eq in E. now subst.
Qed.

Lemma step_waiting (e : event) (w : world) :
  waiting w ->
  match e with
  | Close _ k => isOpen k w = true
  | _ => True
  end ->
  gameStarted (srv (outcome (step e w))) = false ->
  waiting (outcome (step e w)).
Proof.
  intros (Hwf & Hk & Ht & Hw) He G'.
  pose proof (step_serverStep anyDraw e w (drawsSatisfy_any e)) as Hstep.
  pose proof (serverStep_wellFormed _ _ _ _ Hwf Hstep) as Hwf'.
  assert (G : gameStarted (srv w) = false).
  { destruct (gameStarted (srv w)) eqn:G; [|reflexivity].
    rewrite (serverStep_started _ _ _ _ Hstep G) in G'. discriminate. }
  clear Hstep. split; [exact Hwf'|].
  pose proof (wellFormed_fresh _ Hwf) as Hfresh.
  destruct e as [now rx ry color cx cy|now k message|now k|now|now rx ry|now n];
    simpl in *.
  - destruct (register_players now rx ry color cx cy (srv w)) as [-> _].
    rewrite (map_set_fresh _ _ _ Hfresh). unfold keys in *.
    rewrite map_app, Hk. simpl. split; [reflexivity|].
    split; [|exact Hw]. apply Forall_app. split; [exact Ht|].
    constructor; [exact I | constructor].
  - unfold onMessage. destruct (isOpen k w); simpl; [|auto].
    split; [exact Hk|]. split; [|exact Hw]. apply Forall_app.
    split; [exact Ht|]. constructor; [exact I | constructor].
  - unfold onClose in *.
    set (w1 := {| srv := set_players (srv w) (map_delete k (players (srv w)));
                  timers := timers w;
                  openSockets :=
                    filter (fun c => negb (k =? c)) (openSockets w);
                  written := written w |}) in *.
    destruct (srv_broadcastGameState now w1) as (Hs & Hwr & Ho).
    rewrite Hs, Hwr, Ho, timers_broadcastGameState. simpl.
    rewrite keys_delete, Hk. split; [reflexivity|]. split; [|exact Hw].
    (* the player that leaves was alone *)
    destruct Hwf as (_ & _ & Hidle & _). destruct (Hidle G) as [Hlen _].
    apply isOpen_In in He. rewrite <- Hk in He.
    destruct (players (srv w)) as [|[k0 p0] [|kp rest]] eqn:Ep;
      simpl in Hlen, He; try lia; try contradiction.
    destruct He as [->|[]]. unfold map_delete. simpl.
    rewrite Z.eqb_refl. simpl. rewrite app_nil_r. exact Ht.
  - unfold onTick. rewrite G. simpl. auto.
  - unfold onCoinTimer. rewrite G. simpl. auto.
  - unfold onTimeout in *.
    destruct (take_nth n (timers w)) as [[t rest]|] eqn:E; [|auto].
    destruct (take_nth_In _ _ _ _ E) as [Hin Hrest].
    assert (Ht' : Forall sendsNoState rest).
    { rewrite Forall_forall in *. intros x Hx. apply Ht, Hrest, Hx. }
    rewrite Forall_forall in Ht. specialize (Ht t Hin).
    unfold sendsNoState in Ht.
    destruct (job t) as [conn data|k message] eqn:Ej; simpl.
    + destruct (isOpen conn _); simpl; [|auto].
      split; [exact Hk|]. split; [exact Ht'|]. apply Forall_app.
      split; [exact Hw|]. constructor; [|constructor].
      destruct data as [playerId pl|ts pls []]; [exact I | contradiction].
    + destruct (handleMessage_outcome k message (srv w))
        as [->|(player & v & Hget & ->)]; simpl; [auto|].
      rewrite (keys_map_set_present _ _ _ _ Hget). auto.
Qed.

Lemma run_waiting (es : list event) :
  forall w,
    waiting w -> closesOpen es w ->
    gameStarted (srv (outcome (run es w))) = false ->
    waiting (outcome (run es w)).
Proof.
  induction es as [|e es IH]; intros w Hw Hes G; simpl in *; [exact Hw|].
  destruct Hes as [He Hes].
  assert (G1 : gameStarted (srv (outcome (step e w))) = false).
  { destruct (gameStarted (srv (outcome (step e w)))) eqn:G1; [|reflexivity].
    destruct (step e w) as [w'|err w']; simpl in *; [|congruence].
    rewrite (run_started es w' G1) in G. discriminate. }
  pose proof (step_waiting e w Hw He G1) as Hw'.
  destruct (step e w) as [w'|err w']; simpl in *; [|exact Hw'].
  apply IH; assumption.
Qed.

Lemma boot_waiting (now0 : Z) : waiting (boot now0).
Proof.
  split; [apply boot_wellFormed|]. split; [reflexivity|].
  split; constructor.
Qed.

End Waiting.

(** X8. Until the game starts the server sends no snapshot: in a run in
    which a socket closes only when it is open, as long as [gameStarted] is
    false the registered players are those of the open sockets, no state
    message is pending and every frame written is an init frame. *)
Theorem no_snapshot_before_the_start (now0 : Z) (es : list event) :
  let w := outcome (run es (boot now0)) in
  closesOpen es (boot now0) ->
  gameStarted (srv w) = false ->
  keys (players (srv w)) = openSockets w
  /\ Forall sendsNoState (timers w)
  /\ Forall isInitFrame (written w).
Proof.
  intros w Hes G.
  destruct (run_waiting es (boot now0) (boot_waiting now0) Hes G)
    as (_ & H). exact H.
Qed.

(** * Rounding a product *)

Section Shift.

Lemma shr_1_spec (mrs : shr_record) :
  0 <= shr_m mrs ->
  shr_m (shr_1 mrs) = shr_m mrs / 2
  /\ (forall q, shr_m mrs = q * 2 -> shr_r mrs = false -> shr_s mrs = false ->
                shr_r (shr_1 mrs) = false /\ shr_s (shr_1 mrs) = false).
Proof.
  destruct mrs as [m r s]. simpl. intros Hm.
  destruct m as [|[p|p|]|p]; simpl; try lia.
  - split; [reflexivity|]. intros q _ -> ->. auto.
  - split.
    + rewrite Pos2Z.inj_xI. apply (Z.div_unique _ 2 _ 1); lia.
    + intros q Hq. lia.
  - split.
    + rewrite Pos2Z.inj_xO. apply (Z.div_unique _ 2 _ 0); lia.
    + intros q _ -> ->. auto.
  - split; [reflexivity|]. intros q Hq. lia.
Qed.

Lemma iter_pos_shr_1_spec (n : positive) :
  forall mrs,
    0 <= shr_m mrs ->
    shr_m (iter_pos shr_1 n mrs) = shr_m mrs / 2 ^ Zpos n
    /\ (forall q,
          shr_m mrs = q * 2 ^ Zpos n ->
          shr_r mrs = false -> shr_s mrs = false ->
          shr_r (iter_pos shr_1 n mrs) = false
          /\ shr_s (iter_pos shr_1 n mrs) = false).
Proof.
  induction n as [n IH|n IH|]; intros mrs Hm.
  - (* 2n + 1 *)
    assert (Hp : 0 < 2 ^ Zpos n) by (apply Z.pow_pos_nonneg; lia).
    assert (E : 2 ^ Zpos n~1 = 2 * (2 ^ Zpos n * 2 ^ Zpos n)).
    { replace (Zpos n~1) with (1 + (Zpos n + Zpos n)) by lia.
      rewrite !Z.pow_add_r by lia. reflexivity. }
    destruct (shr_1_spec mrs Hm) as [H1 X1].
    assert (Hm1 : 0 <= shr_m (shr_1 mrs))
      by (rewrite H1; apply Z.div_pos; lia).
    destruct (IH _ Hm1) as [H2 X2].
    assert (Hm2 : 0 <= shr_m (iter_pos shr_1 n (shr_1 mrs)))
      by (rewrite H2; apply Z.div_pos; lia).
    destruct (IH _ Hm2) as [H3 X3].
    simpl iter_pos. split.
    + rewrite H3, H2, H1, E, !Z.div_div by lia. reflexivity.
    + intros q Hq Hr Hs. rewrite E in Hq.
      destruct (X1 (q * (2 ^ Zpos n * 2 ^ Zpos n)) ltac:(lia) Hr Hs)
        as [Hr1 Hs1].
      assert (Hq1 : shr_m (shr_1 mrs) = q * 2 ^ Zpos n * 2 ^ Zpos n).
      { rewrite H1, Hq.
        replace (q * (2 * (2 ^ Zpos n * 2 ^ Zpos n)))
          with (q * 2 ^ Zpos n * 2 ^ Zpos n * 2) by lia.
        apply Z.div_mul. lia. }
      destruct (X2 _ Hq1 Hr1 Hs1) as [Hr2 Hs2].
      apply (X3 q); try assumption.
      rewrite H2, Hq1. apply Z.div_mul. lia.
  - (* 2n *)
    assert (Hp : 0 < 2 ^ Zpos n) by (apply Z.pow_pos_nonneg; lia).
    assert (E : 2 ^ Zpos n~0 = 2 ^ Zpos n * 2 ^ Zpos n).
    { replace (Zpos n~0) with (Zpos n + Zpos n) by lia.
      rewrite Z.pow_add_r by lia. reflexivity. }
    destruct (IH _ Hm) as [H2 X2].
    assert (Hm2 : 0 <= shr_m (iter_pos shr_1 n mrs))
      by (rewrite H2; apply Z.div_pos; lia).
    destruct (IH _ Hm2) as [H3 X3].
    simpl iter_pos. split.
    + rewrite H3, H2, E, Z.div_div by lia. reflexivity.
    + intros q Hq Hr Hs. rewrite E in Hq.
      destruct (X2 (q * 2 ^ Zpos n) ltac:(lia) Hr Hs) as [Hr2 Hs2].
      apply (X3 q); try assumption.
      rewrite H2, Hq.
      replace (q * (2 ^ Zpos n * 2 ^ Zpos n))
        with (q * 2 ^ Zpos n * 2 ^ Zpos n) by lia.
      apply Z.div_mul. lia.
  - simpl iter_pos. change (2 ^ 1) with 2. apply shr_1_spec, Hm.
Qed.

(** The first shift of [binary_round_aux] on an exact mantissa: it drops
    [n] bits, and leaves an exact location when these bits are zero. *)
Lemma shr_fexp_spec (P ex : Z) :
  0 < P ->
  ex <= fexp prec emax (Zdigits2 P + ex) ->
  let n := fexp prec emax (Zdigits2 P + ex) - ex in
  exists mrs,
    shr_fexp prec emax P ex loc_Exact = (mrs, ex + n)
    /\ shr_m mrs = P / 2 ^ n
    /\ (forall q, P = q * 2 ^ n -> loc_of_shr_record mrs = loc_Exact).
Proof.
  intros HP Hn n. unfold shr_fexp. fold n. simpl shr_record_of_loc.
  destruct n as [|p|p] eqn:En; try lia.
  - simpl. eexists. split; [rewrite Z.add_0_r; reflexivity|].
    split; [now rewrite Z.div_1_r | reflexivity].
  - simpl shr.
    destruct (iter_pos_shr_1_spec p
                {| shr_m := P; shr_r := false; shr_s := false |})
      as [H X]; [simpl; lia|].
    eexists. split; [reflexivity|]. split; [exact H|].
    intros q Hq. destruct (X q Hq eq_refl eq_refl) as [Hr Hs].
    destruct (iter_pos shr_1 p _) as [m r s]. simpl in *. now subst.
Qed.

End Shift.

Section Pack.

Lemma pack_zero (e : Z) : -1074 <= e -> pack 0 e = S754_zero false.
Proof.
  intros He. unfold pack, shr_fexp. simpl Zdigits2. rewrite fexp64.
  destruct (Z.max (0 + e - 53) (-1074) - e) as [|p|p] eqn:E; try lia;
    reflexivity.
Qed.

Lemma pack_subnormal (m : Z) :
  0 < m < 2 ^ 52 ->
  pack m (-1074) = S754_finite false (Z.to_pos m) (-1074).
Proof.
  intros Hm. destruct m as [|p|p]; try lia.
  unfold pack, shr_fexp. rewrite fexp64.
  pose proof (digits2_pos_bounds p) as [Blo Bhi]. simpl Zdigits2.
  set (d := Zpos (digits2_pos p)) in *.
  assert (Hd : d <= 52).
  { destruct (Z.leb_spec d 52); [assumption|].
    assert (2 ^ 52 <= 2 ^ (d - 1)) by (apply Z.pow_le_mono_r; lia). lia. }
  replace (Z.max (d + -1074 - 53) (-1074) - -1074) with 0 by lia.
  reflexivity.
Qed.

(** A mantissa below [2^53] at a canonical exponent is kept as it is. *)
Lemma pack_canonical (m e : Z) :
  0 < m < 2 ^ 53 -> -1074 <= e <= 971 ->
  (e = -1074 \/ 2 ^ 52 <= m) ->
  pack m e = S754_finite false (Z.to_pos m) e.
Proof.
  intros Hm He Hc.
  destruct (Z.leb_spec (2 ^ 52) m) as [Hn|Hs].
  - apply pack_53; lia.
  - destruct Hc as [->|]; [|lia]. apply pack_subnormal. lia.
Qed.

End Pack.

Section Upper.

Lemma pow2_pos (k : Z) : 0 <= k -> 0 < 2 ^ k.
Proof. intros. apply Z.pow_pos_nonneg; lia. Qed.

Lemma pow2_split (a b : Z) : 0 <= a -> 0 <= b -> 2 ^ (a + b) = 2 ^ a * 2 ^ b.
Proof. intros. apply Z.pow_add_r; assumption. Qed.

(** Rounding to nearest does not cross a number that can be represented:
    the product [P * 2^ex], when it is at most [M * 2^E] with [M] a
    mantissa of 53 bits, rounds to a number that is at most [M * 2^E]. *)
Lemma binary_round_aux_upper (P ex M E : Z) :
  0 < P ->
  ex <= fexp prec emax (Zdigits2 P + ex) ->
  2 ^ 52 <= M < 2 ^ 53 -> -1074 <= E <= 971 ->
  leq_val P ex M E ->
  atMost M E (binary_round_aux prec emax false P ex loc_Exact).
Proof.
  intros HP Hshift HM HE Hle.
  rewrite binary_round_aux_pack.
  destruct (shr_fexp_spec P ex HP Hshift) as (mrs & -> & Hm1 & Hexact).
  simpl fst. simpl snd. rewrite fexp64 in *.
  destruct P as [|p|p]; try lia.
  pose proof (digits2_pos_bounds p) as [Blo Bhi]. simpl Zdigits2 in *.
  set (d := Zpos (digits2_pos p)) in *.
  set (e1 := Z.max (d + ex - 53) (-1074)) in *.
  replace (ex + (e1 - ex)) with e1 by lia.
  set (n := e1 - ex) in *.
  assert (Hn : 0 <= n) by lia.
  assert (Hd : 1 <= d) by (unfold d; lia).
  pose proof (pow2_pos n Hn) as Hpn.
  set (m1 := Zpos p / 2 ^ n) in *.
  pose proof (Z.mul_div_le (Zpos p) (2 ^ n) Hpn) as Hfloor.
  pose proof (Z.mul_succ_div_gt (Zpos p) (2 ^ n) Hpn) as Hceil.
  fold m1 in Hfloor, Hceil.
  assert (Hm1nn : 0 <= m1) by (apply Z.div_pos; lia).
  (* the exponent is at most that of the bound *)
  unfold leq_val in Hle. set (k := Z.min ex E) in *.
  assert (He1 : e1 <= E).
  { assert (H1 : 2 ^ (d - 1) * 2 ^ (ex - k) < 2 ^ 53 * 2 ^ (E - k)).
    { pose proof (pow2_pos (ex - k) ltac:(lia)).
      pose proof (pow2_pos (E - k) ltac:(lia)). nia. }
    rewrite <- !pow2_split in H1 by lia.
    apply Z.pow_lt_mono_r_iff in H1; lia. }
  (* the mantissa is at most that of the bound, shifted *)
  pose proof (pow2_pos (E - e1) ltac:(lia)) as HpE.
  pose proof (pow2_pos (e1 - k) ltac:(lia)) as Hpk.
  assert (Ea : 2 ^ (ex - k) * 2 ^ n = 2 ^ (e1 - k)).
  { rewrite <- pow2_split by lia. f_equal. lia. }
  assert (Eb : 2 ^ (E - k) = 2 ^ (E - e1) * 2 ^ (e1 - k)).
  { rewrite <- pow2_split by lia. f_equal. lia. }
  assert (Hm1le : m1 <= M * 2 ^ (E - e1)).
  { assert (m1 * 2 ^ (e1 - k) <= M * 2 ^ (E - e1) * 2 ^ (e1 - k)).
    { rewrite <- Ea. rewrite Eb in Hle.
      pose proof (pow2_pos (ex - k) ltac:(lia)). nia. }
    nia. }
  assert (Hstrict : m1 * 2 ^ n < Zpos p -> m1 < M * 2 ^ (E - e1)).
  { intros Hlt.
    assert (m1 * 2 ^ (e1 - k) < M * 2 ^ (E - e1) * 2 ^ (e1 - k)).
    { rewrite <- Ea. rewrite Eb in Hle.
      pose proof (pow2_pos (ex - k) ltac:(lia)). nia. }
    nia. }
  (* fewer than 54 bits are left *)
  assert (Hm1lt : m1 < 2 ^ 53).
  { apply Z.div_lt_upper_bound; [lia|].
    destruct (Z.leb_spec 53 d) as [Hbig|Hsmall].
    - assert (2 ^ d <= 2 ^ n * 2 ^ 53).
      { rewrite <- pow2_split by lia. apply Z.pow_le_mono_r; lia. }
      lia.
    - assert (2 ^ d <= 2 ^ 53) by (apply Z.pow_le_mono_r; lia).
      assert (1 * 2 ^ 53 <= 2 ^ n * 2 ^ 53)
        by (apply Z.mul_le_mono_nonneg_r; lia).
      lia. }
  assert (Hm1ge : -1074 < e1 -> 2 ^ 52 <= m1).
  { intros Hnorm. assert (En : n = d - 53) by lia.
    apply Z.div_le_lower_bound; [lia|].
    assert (2 ^ n * 2 ^ 52 = 2 ^ (d - 1)).
    { rewrite <- pow2_split by lia. f_equal. lia. }
    lia. }
  (* the rounded mantissa *)
  set (l := loc_of_shr_record mrs) in *.
  assert (Hround : round_nearest_even m1 l = m1
                   \/ (round_nearest_even m1 l = m1 + 1
                       /\ m1 * 2 ^ n < Zpos p)).
  { destruct (Z.eqb_spec (m1 * 2 ^ n) (Zpos p)) as [Heq|Hne].
    - left. rewrite (Hexact m1) by lia. reflexivity.
    - destruct (round_nearest_even_cases m1 l) as [H|H]; [now left|].
      right. split; [exact H | lia]. }
  rewrite Hm1. fold m1.
  destruct Hround as [->|[-> Hlt]].
  - (* rounded down *)
    destruct (Z.eqb_spec m1 0) as [->|Hnz].
    + left. apply pack_zero. lia.
    + right. right. rewrite pack_canonical by lia.
      exists (Z.to_pos m1), e1. split; [reflexivity|].
      rewrite Z2Pos.id by lia. repeat split; try lia.
      destruct (Z.eqb_spec e1 E) as [->|]; [right | left; lia].
      rewrite Z.sub_diag, Z.mul_1_r in Hm1le. lia.
  - (* rounded up *)
    specialize (Hstrict Hlt).
    destruct (Z.eqb_spec (m1 + 1) (2 ^ 53)) as [Hcarry|Hnc].
    + (* carry *)
      assert (He1E : e1 < E).
      { destruct (Z.eqb_spec e1 E) as [->|]; [|lia].
        rewrite Z.sub_diag, Z.mul_1_r in Hstrict. lia. }
      right. right. rewrite Hcarry, pack_carry by lia.
      eexists _, _. split; [reflexivity|].
      change (Zpos (Z.to_pos (2 ^ 52))) with (2 ^ 52).
      repeat split; lia.
    + right. right. rewrite pack_canonical by lia.
      exists (Z.to_pos (m1 + 1)), e1. split; [reflexivity|].
      rewrite Z2Pos.id by lia. repeat split; try lia.
      destruct (Z.eqb_spec e1 E) as [->|]; [right | left; lia].
      rewrite Z.sub_diag, Z.mul_1_r in Hstrict. lia.
Qed.

End Upper.

Section Valid.

(** What [valid_binary] says of a finite number. *)
Lemma bounded_canonical (m : positive) (e : Z) :
  bounded prec emax m e = true ->
  -1074 <= e <= 971 /\ Zpos m < 2 ^ 53 /\ (e = -1074 \/ 2 ^ 52 <= Zpos m).
Proof.
  unfold bounded, canonical_mantissa.
  rewrite andb_true_iff, Z.eqb_eq, Z.leb_le, fexp64.
  change (emax - prec) with 971.
  pose proof (digits2_pos_bounds m) as [Blo Bhi].
  set (d := Zpos (digits2_pos m)) in *. intros [Hc He].
  assert (Hd : d <= 53) by lia.
  assert (2 ^ d <= 2 ^ 53) by (apply Z.pow_le_mono_r; lia).
  split; [lia|]. split; [lia|].
  destruct (Z.eqb_spec e (-1074)) as [|Hne]; [now left | right].
  assert (Hd53 : d = 53) by lia. rewrite Hd53 in Blo. exact Blo.
Qed.

Lemma Prim2SF_canonical (x : number) (s : bool) (m : positive) (e : Z) :
  Prim2SF x = S754_finite s m e ->
  -1074 <= e <= 971 /\ Zpos m < 2 ^ 53 /\ (e = -1074 \/ 2 ^ 52 <= Zpos m).
Proof.
  intros E. pose proof (Prim2SF_valid x) as H. rewrite E in H.
  apply bounded_canonical, H.
Qed.

Lemma leq_val_iff (P ex M E K : Z) :
  K <= ex -> K <= E ->
  leq_val P ex M E <-> P * 2 ^ (ex - K) <= M * 2 ^ (E - K).
Proof.
  intros H1 H2. unfold leq_val. set (k := Z.min ex E).
  assert (Ea : 2 ^ (ex - K) = 2 ^ (ex - k) * 2 ^ (k - K))
    by (rewrite <- pow2_split by lia; f_equal; lia).
  assert (Eb : 2 ^ (E - K) = 2 ^ (E - k) * 2 ^ (k - K))
    by (rewrite <- pow2_split by lia; f_equal; lia).
  pose proof (pow2_pos (k - K) ltac:(lia)) as Hp.
  rewrite Ea, Eb, !Z.mul_assoc. split; intros H.
  - apply Z.mul_le_mono_nonneg_r; lia.
  - apply Z.mul_le_mono_pos_r in H; lia.
Qed.

(** The order of two valid positive numbers is that of their values. *)
Lemma SFleb_leq_val (m1 m2 : positive) (e1 e2 : Z) :
  bounded prec emax m1 e1 = true -> bounded prec emax m2 e2 = true ->
  SFleb (S754_finite false m1 e1) (S754_finite false m2 e2) = true ->
  leq_val (Zpos m1) e1 (Zpos m2) e2.
Proof.
  intros V1 V2 H.
  destruct (bounded_canonical _ _ V1) as (He1 & Hm1 & Hc1).
  destruct (bounded_canonical _ _ V2) as (He2 & Hm2 & Hc2).
  unfold SFleb, SFcompare in H.
  destruct (Z.compare_spec e1 e2) as [->|Hlt|Hgt]; try discriminate.
  - apply (leq_val_iff _ _ _ _ e2); try lia. rewrite Z.sub_diag.
    change (2 ^ 0) with 1. rewrite !Z.mul_1_r.
    destruct (Pos.compare_cont Eq m1 m2) eqn:C; try discriminate.
    + apply Pos.compare_eq in C. subst. lia.
    + change (Pos.compare_cont Eq m1 m2) with (Pos.compare m1 m2) in C.
      pose proof (proj1 (Pos.compare_lt_iff m1 m2) C). lia.
  - apply (leq_val_iff _ _ _ _ e1); try lia. rewrite Z.sub_diag.
    assert (2 ^ 1 <= 2 ^ (e2 - e1)) by (apply Z.pow_le_mono_r; lia).
    change (2 ^ 1) with 2 in *. change (2 ^ 0) with 1. nia.
Qed.

Lemma leq_val_mul (m e mu eu mc ec M E : Z) :
  0 <= mc ->
  leq_val m e mu eu -> leq_val (mu * mc) (eu + ec) M E ->
  leq_val (m * mc) (e + ec) M E.
Proof.
  intros Hc H1 H2.
  set (K := Z.min (Z.min (e + ec) (eu + ec)) E).
  apply (leq_val_iff _ _ _ _ (K - ec)) in H1; try lia.
  apply (leq_val_iff _ _ _ _ K) in H2; try lia.
  apply (leq_val_iff _ _ _ _ K); try lia.
  replace (e - (K - ec)) with (e + ec - K) in H1 by lia.
  replace (eu - (K - ec)) with (eu + ec - K) in H1 by lia.
  pose proof (pow2_pos (e + ec - K) ltac:(lia)).
  pose proof (pow2_pos (eu + ec - K) ltac:(lia)).
  nia.
Qed.

(** The product of a number between 0 and [u] by a positive constant [c]
    is at most any number [M * 2^E], of 53 bits, that the exact product of
    [u] and [c] does not exceed. *)
Lemma mul_atMost (x u c : number) (mu mc : positive) (eu ec M E : Z) :
  Prim2SF u = S754_finite false mu eu ->
  Prim2SF c = S754_finite false mc ec -> ec <= 0 -> 2 ^ 52 <= Zpos mc ->
  2 ^ 52 <= M < 2 ^ 53 -> -1074 <= E <= 971 ->
  leq_val (Zpos mu * Zpos mc) (eu + ec) M E ->
  (0 <=? x)%float = true -> (x <=? u)%float = true ->
  atMost M E (Prim2SF (x * c)).
Proof.
  intros Eu Ec Hec Hmc HM HE Hle H0 Hxu.
  rewrite leb_spec in H0, Hxu. rewrite mul_spec. rewrite Eu in Hxu.
  rewrite Ec. change (Prim2SF 0) with (S754_zero false) in H0.
  pose proof (Prim2SF_valid x) as Vx. pose proof (Prim2SF_valid u) as Vu.
  rewrite Eu in Vu.
  destruct (Prim2SF x) as [s|s| |s m e] eqn:Ex; try discriminate.
  - destruct s; [right; left | left]; reflexivity.
  - destruct s; discriminate.
  - destruct s; [discriminate|]. simpl in Vx, Vu.
    destruct (bounded_canonical _ _ Vx) as (He & Hm & Hc).
    unfold SF64mul, SFmul. simpl xorb. rewrite Pos2Z.inj_mul.
    apply binary_round_aux_upper; try assumption; try lia.
    + rewrite fexp64.
      destruct Hc as [->|Hn]; [lia|].
      assert (Hd : 104 < Zdigits2 (Zpos m * Zpos mc)).
      { rewrite <- Pos2Z.inj_mul. simpl Zdigits2.
        pose proof (digits2_pos_bounds (m * mc)) as [_ Bhi].
        rewrite Pos2Z.inj_mul in Bhi.
        assert (2 ^ 104 <= Zpos m * Zpos mc).
        { change (2 ^ 104) with (2 ^ 52 * 2 ^ 52). nia. }
        apply (Z.pow_lt_mono_r_iff 2); lia. }
      lia.
    + apply (leq_val_mul _ _ (Zpos mu) eu); try lia;
        [apply SFleb_leq_val; assumption | exact Hle].
Qed.

Lemma atMost_leb (a b : number) (mb : positive) (eb : Z) :
  Prim2SF b = S754_finite false mb eb ->
  atMost (Zpos mb) eb (Prim2SF a) ->
  (0 <=? a)%float = true /\ (a <=? b)%float = true.
Proof.
  intros Eb H. rewrite !leb_spec, Eb.
  change (Prim2SF 0) with (S754_zero false).
  destruct H as [->|[->|(m & e & -> & Hc & _)]]; try (split; reflexivity).
  split; [reflexivity|]. unfold SFleb, SFcompare.
  destruct Hc as [Hlt|[-> Hm]].
  - apply Z.compare_lt_iff in Hlt. now rewrite Hlt.
  - rewrite Z.compare_refl.
    change (Pos.compare_cont Eq m mb) with (Pos.compare m mb).
    destruct (Pos.compare_spec m mb) as [| |Hgt]; try reflexivity. lia.
Qed.

End Valid.

(** * Rounding keeps the order *)

Section Nearest.

Lemma shr_1_shifted (P k : Z) (mrs : shr_record) :
  0 <= k -> shifted P k mrs -> shifted P (k + 1) (shr_1 mrs).
Proof.
  intros Hk (Hm & rem & Hrem & HP & Hs). unfold shifted.
  rewrite (pow2_split k 1) by lia. change (2 ^ 1) with 2.
  pose proof (pow2_pos k Hk) as HX. set (X := 2 ^ k) in *.
  destruct mrs as [m r s]. cbn [shr_m shr_r shr_s] in *.
  assert (Hs' : (r || s = true) <-> 0 < (if r then X else 0) + rem).
  { rewrite orb_true_iff. destruct r; [split; [lia | now left]|].
    rewrite Hs. split; [intros [?|?]; [discriminate | lia] | right; lia]. }
  assert (Hr' : 0 <= (if r then X else 0) + rem < X * 2)
    by (destruct r; lia).
  destruct m as [|[p|p|]|p]; cbn [shr_1 shr_m shr_r shr_s]; try lia.
  - split; [lia|]. exists ((if r then X else 0) + rem).
    split; [exact Hr'|]. split; [lia | exact Hs'].
  - split; [lia|]. exists ((if r then X else 0) + rem).
    split; [exact Hr'|]. split; [|exact Hs'].
    rewrite Pos2Z.inj_xI in HP. lia.
  - split; [lia|]. exists ((if r then X else 0) + rem).
    split; [exact Hr'|]. split; [|exact Hs'].
    rewrite Pos2Z.inj_xO in HP. lia.
  - split; [lia|]. exists ((if r then X else 0) + rem).
    split; [exact Hr'|]. split; [lia | exact Hs'].
Qed.

Lemma iter_shr_1_shifted (P : Z) (n : positive) :
  forall k mrs,
    0 <= k -> shifted P k mrs ->
    shifted P (k + Zpos n) (iter_pos shr_1 n mrs).
Proof.
  induction n as [n IH|n IH|]; intros k mrs Hk H; simpl iter_pos.
  - replace (k + Zpos n~1) with (k + 1 + Zpos n + Zpos n) by lia.
    apply IH; [lia|]. apply IH; [lia|]. apply shr_1_shifted; assumption.
  - replace (k + Zpos n~0) with (k + Zpos n + Zpos n) by lia.
    apply IH; [lia|]. apply IH; assumption.
  - apply shr_1_shifted; assumption.
Qed.

Lemma round_nearest_even_shifted (P k : Z) (mrs : shr_record) :
  0 <= k -> shifted P k mrs ->
  nearestEven P k (round_nearest_even (shr_m mrs) (loc_of_shr_record mrs)).
Proof.
  intros Hk (Hm & rem & Hrem & HP & Hs).
  pose proof (pow2_pos k Hk) as HX. unfold nearestEven.
  set (X := 2 ^ k) in *.
  destruct mrs as [m [|] [|]];
    cbn [shr_m shr_r shr_s loc_of_shr_record round_nearest_even] in *.
  - (* more than half *)
    assert (0 < rem) by (apply Hs; reflexivity).
    split; [lia|]. split; [lia|]. intros [E|E]; lia.
  - (* half *)
    assert (rem = 0).
    { destruct (Z.ltb_spec 0 rem) as [Hlt|]; [|lia].
      apply Hs in Hlt. discriminate. }
    destruct (Z.even m) eqn:Ev.
    + split; [lia|]. split; [lia|]. intros _. exact Ev.
    + split; [lia|]. split; [lia|]. intros _.
      rewrite Z.even_add, Ev. reflexivity.
  - (* less than half *)
    assert (0 < rem) by (apply Hs; reflexivity).
    split; [lia|]. split; [lia|]. intros [E|E]; lia.
  - (* exact *)
    assert (rem = 0).
    { destruct (Z.ltb_spec 0 rem) as [Hlt|]; [|lia].
      apply Hs in Hlt. discriminate. }
    split; [lia|]. split; [lia|]. intros [E|E]; lia.
Qed.

(** The first half of [binary_round_aux] on an exact mantissa: it rounds
    [P * 2^x] to the nearest multiple of [2^E], [E] the exponent that the
    format gives to numbers of this size. *)
Lemma binary_round_aux_nearest (P x : Z) :
  0 < P ->
  x <= fexp prec emax (Zdigits2 P + x) ->
  exists N,
    nearestEven P (fexp prec emax (Zdigits2 P + x) - x) N
    /\ binary_round_aux prec emax false P x loc_Exact
       = pack N (fexp prec emax (Zdigits2 P + x)).
Proof.
  intros HP Hx. rewrite binary_round_aux_pack.
  set (E := fexp prec emax (Zdigits2 P + x)) in *.
  assert (H0 : shifted P 0 {| shr_m := P; shr_r := false; shr_s := false |}).
  { split; [simpl; lia|]. exists 0. simpl.
    repeat split; try lia; intros; discriminate. }
  unfold shr_fexp. fold E. simpl shr_record_of_loc. unfold shr.
  destruct (E - x) as [|n|n] eqn:En; try lia.
  - simpl fst. simpl snd. replace E with x by lia.
    eexists. split; [|reflexivity].
    exact (round_nearest_even_shifted P 0 _ ltac:(lia) H0).
  - simpl fst. simpl snd. replace (x + Zpos n) with E by lia.
    eexists. split; [|reflexivity].
    pose proof (iter_shr_1_shifted P n 0 _ ltac:(lia) H0) as H.
    exact (round_nearest_even_shifted P (Zpos n) _ ltac:(lia) H).
Qed.

End Nearest.

Section Packed.

Lemma nearestEven_rounded (P x N : Z) :
  0 < P ->
  x <= fexp prec emax (Zdigits2 P + x) ->
  nearestEven P (fexp prec emax (Zdigits2 P + x) - x) N ->
  roundedPair N (fexp prec emax (Zdigits2 P + x)).
Proof.
  intros HP Hx (HN & [Hlo Hhi] & _). rewrite fexp64 in *.
  destruct P as [|p|p]; try lia.
  pose proof (digits2_pos_bounds p) as [Blo Bhi]. simpl Zdigits2 in *.
  set (d := Zpos (digits2_pos p)) in *.
  set (E := Z.max (d + x - 53) (-1074)) in *.
  set (k := E - x) in *.
  assert (Hk : 0 <= k) by lia.
  pose proof (pow2_pos k Hk) as HX.
  assert (Hd : 2 ^ d <= 2 ^ 53 * 2 ^ k).
  { rewrite <- pow2_split by lia. apply Z.pow_le_mono_r; lia. }
  split; [|split; [lia|]].
  - split; [exact HN|]. nia.
  - destruct (Z.eqb_spec E (-1074)) as [|Hne]; [now left | right].
    assert (Ek : k = d - 53) by lia.
    assert (E52 : 2 ^ (d - 1) = 2 ^ 52 * 2 ^ k).
    { rewrite <- pow2_split by lia. f_equal. lia. }
    nia.
Qed.

Lemma pack_normal (m e : Z) :
  2 ^ 52 <= m < 2 ^ 53 -> -1074 <= e ->
  pack m e = if e <=? 971 then S754_finite false (Z.to_pos m) e
             else S754_infinity false.
Proof.
  intros Hm He. destruct m as [|p|p]; try lia.
  unfold pack. rewrite shr_fexp_53; [|apply Zdigits2_unique; exact Hm | lia].
  reflexivity.
Qed.

Lemma pack_carried (e : Z) :
  -1075 <= e ->
  pack (2 ^ 53) e = if e + 1 <=? 971
                    then S754_finite false (Z.to_pos (2 ^ 52)) (e + 1)
                    else S754_infinity false.
Proof.
  intros He. unfold pack.
  change (2 ^ 53) with (Zpos (Z.to_pos (2 ^ 53))).
  rewrite shr_fexp_54; [|reflexivity | lia]. reflexivity.
Qed.

(** What [pack] makes of a rounded mantissa: zero, a number of the format
    with the same value, or an infinity when the value is [2^1024] or
    more. *)
Lemma pack_roundedPair (N E : Z) :
  roundedPair N E ->
  (N = 0 /\ pack N E = S754_zero false)
  \/ (exists (m : positive) (e : Z),
        pack N E = S754_finite false m e
        /\ ((Zpos m = N /\ e = E)
            \/ (N = 2 ^ 53 /\ Zpos m = 2 ^ 52 /\ e = E + 1))
        /\ Zpos m < 2 ^ 53 /\ -1074 <= e <= 971
        /\ (e = -1074 \/ 2 ^ 52 <= Zpos m))
  \/ (pack N E = S754_infinity false
      /\ 2 ^ 52 <= N /\ (971 < E \/ (N = 2 ^ 53 /\ E = 971))).
Proof.
  intros ([HN0 HN] & HE & Hc).
  destruct (Z.eqb_spec N 0) as [->|Hnz].
  { left. split; [reflexivity | apply pack_zero; exact HE]. }
  destruct (Z.eqb_spec N (2 ^ 53)) as [->|Hne].
  { rewrite pack_carried by lia.
    destruct (Z.leb_spec (E + 1) 971) as [Hle|Hgt].
    - right. left. eexists _, _. split; [reflexivity|].
      change (Zpos (Z.to_pos (2 ^ 52))) with (2 ^ 52).
      split; [right; auto|]. repeat split; try lia.
    - right. right. split; [reflexivity|]. split; [lia|].
      destruct (Z.eqb_spec E 971); [right; auto | left; lia]. }
  destruct (Z.leb_spec (2 ^ 52) N) as [Hn|Hs].
  - rewrite pack_normal by lia.
    destruct (Z.leb_spec E 971) as [Hle|Hgt].
    + right. left. eexists _, _. split; [reflexivity|].
      rewrite Z2Pos.id by lia. split; [left; auto|]. repeat split; lia.
    + right. right. split; [reflexivity|]. split; [lia | left; lia].
  - destruct Hc as [->|]; [|lia].
    rewrite pack_subnormal by lia. right. left. eexists _, _.
    split; [reflexivity|]. rewrite Z2Pos.id by lia.
    split; [left; auto|]. repeat split; lia.
Qed.

(** The order of two numbers of the format is that of their exponents,
    then of their mantissas. *)
Lemma SFleb_finite (m1 m2 : positive) (e1 e2 : Z) :
  e1 < e2 \/ (e1 = e2 /\ Zpos m1 <= Zpos m2) ->
  SFleb (S754_finite false m1 e1) (S754_finite false m2 e2) = true.
Proof.
  intros H. unfold SFleb, SFcompare.
  destruct H as [Hlt|[-> Hm]].
  - apply Z.compare_lt_iff in Hlt. now rewrite Hlt.
  - rewrite Z.compare_refl.
    change (Pos.compare_cont Eq m1 m2) with (Pos.compare m1 m2).
    destruct (Pos.compare_spec m1 m2) as [| |Hgt]; try reflexivity. lia.
Qed.

(** [pack] keeps the order of the values. *)
Lemma pack_le (N1 E1 N2 E2 : Z) :
  roundedPair N1 E1 -> roundedPair N2 E2 ->
  leq_val N1 E1 N2 E2 ->
  SFleb (pack N1 E1) (pack N2 E2) = true.
Proof.
  intros R1 R2 Hle.
  pose proof R1 as ([HN1 HN1'] & HE1 & Hc1).
  pose proof R2 as ([HN2 HN2'] & HE2 & Hc2).
  apply (leq_val_iff _ _ _ _ (-1074)) in Hle; try lia.
  pose proof (pow2_pos (E1 - -1074) ltac:(lia)) as Hp1.
  pose proof (pow2_pos (E2 - -1074) ltac:(lia)) as Hp2.
  (* the exponents compare as the values do *)
  assert (Hexp : forall a b ea eb,
             -1074 <= ea -> -1074 <= eb -> 2 ^ 52 <= a -> b < 2 ^ 53 ->
             a * 2 ^ (ea - -1074) <= b * 2 ^ (eb - -1074) -> ea <= eb).
  { intros a b ea eb Hea Heb Ha Hb H.
    destruct (Z.leb_spec ea eb) as [|Hgt]; [assumption|exfalso].
    assert (E : 2 ^ (ea - -1074) = 2 ^ (eb - -1074) * 2 ^ (ea - eb))
      by (rewrite <- pow2_split by lia; f_equal; lia).
    pose proof (pow2_pos (eb - -1074) ltac:(lia)).
    assert (2 ^ 1 <= 2 ^ (ea - eb)) by (apply Z.pow_le_mono_r; lia).
    change (2 ^ 1) with 2 in *. rewrite E in H. nia. }
  destruct (pack_roundedPair N1 E1 R1)
    as [[-> ->]|[(m1 & e1 & -> & V1 & Hm1 & He1 & Hn1)|(-> & Hb1 & O1)]].
  - (* zero on the left *)
    destruct (pack_roundedPair N2 E2 R2)
      as [[_ ->]|[(m2 & e2 & -> & _)|(-> & _)]]; reflexivity.
  - (* a number on the left *)
    assert (Hv1 : Zpos m1 * 2 ^ (e1 - -1074) = N1 * 2 ^ (E1 - -1074)).
    { destruct V1 as [[-> ->]|(-> & -> & ->)]; [reflexivity|].
      replace (E1 + 1 - -1074) with (1 + (E1 - -1074)) by lia.
      rewrite pow2_split by lia. change (2 ^ 53) with (2 ^ 52 * 2 ^ 1).
      lia. }
    destruct (pack_roundedPair N2 E2 R2)
      as [[-> _]|[(m2 & e2 & -> & V2 & Hm2 & He2 & Hn2)|(-> & _)]];
      [lia| |reflexivity].
    assert (Hv2 : Zpos m2 * 2 ^ (e2 - -1074) = N2 * 2 ^ (E2 - -1074)).
    { destruct V2 as [[-> ->]|(-> & -> & ->)]; [reflexivity|].
      replace (E2 + 1 - -1074) with (1 + (E2 - -1074)) by lia.
      rewrite pow2_split by lia. change (2 ^ 53) with (2 ^ 52 * 2 ^ 1).
      lia. }
    rewrite <- Hv1, <- Hv2 in Hle. apply SFleb_finite.
    destruct (Z.eqb_spec e1 e2) as [->|Hne].
    + right. split; [reflexivity|].
      pose proof (pow2_pos (e2 - -1074) ltac:(lia)). nia.
    + left. destruct Hn1 as [->|Hn1]; [lia|].
      pose proof (Hexp _ _ e1 e2 ltac:(lia) ltac:(lia) Hn1 Hm2 Hle). lia.
  - (* an infinity on the left *)
    destruct (pack_roundedPair N2 E2 R2)
      as [[-> _]|[(m2 & e2 & -> & V2 & Hm2 & He2 & Hn2)|(-> & _)]];
      [lia| |reflexivity].
    exfalso.
    assert (Hv2 : Zpos m2 * 2 ^ (e2 - -1074) = N2 * 2 ^ (E2 - -1074)).
    { destruct V2 as [[-> ->]|(-> & -> & ->)]; [reflexivity|].
      replace (E2 + 1 - -1074) with (1 + (E2 - -1074)) by lia.
      rewrite pow2_split by lia. change (2 ^ 53) with (2 ^ 52 * 2 ^ 1).
      lia. }
    rewrite <- Hv2 in Hle.
    destruct O1 as [O1|[-> ->]].
    + pose proof (Hexp _ _ E1 e2 ltac:(lia) ltac:(lia) Hb1 Hm2 Hle). lia.
    + assert (Hle' : 2 ^ 52 * 2 ^ (972 - -1074)
                     <= Zpos m2 * 2 ^ (e2 - -1074)).
      { replace (2 ^ 52 * 2 ^ (972 - -1074))
          with (2 ^ 53 * 2 ^ (971 - -1074)); [exact Hle|].
        rewrite <- !pow2_split by lia. reflexivity. }
      pose proof (Hexp (2 ^ 52) _ 972 e2 ltac:(lia) ltac:(lia) ltac:(lia) Hm2
                    Hle').
      lia.
Qed.

End Packed.

Section Monotone.

Lemma nearestEven_le (P1 k1 N1 P2 k2 N2 : Z) :
  0 <= k1 -> 0 <= k2 ->
  nearestEven P1 k1 N1 -> nearestEven P2 k2 N2 ->
  P1 * 2 ^ k2 <= P2 * 2 ^ k1 ->
  N1 <= N2.
Proof.
  intros Hk1 Hk2 (_ & [Hup _] & Hev1) (_ & [_ Hdn] & Hev2) Hle.
  pose proof (pow2_pos k1 Hk1) as HA. pose proof (pow2_pos k2 Hk2) as HB.
  set (A := 2 ^ k1) in *. set (B := 2 ^ k2) in *.
  destruct (Z.leb_spec N1 N2) as [|Hgt]; [assumption|exfalso].
  assert (HAB : 0 < A * B) by nia.
  assert (H1 : 2 * N1 * (A * B) <= 2 * P1 * B + A * B).
  { assert (0 <= (2 * P1 + A - 2 * N1 * A) * B)
      by (apply Z.mul_nonneg_nonneg; lia).
    lia. }
  assert (H2 : 2 * P2 * A <= 2 * N2 * (A * B) + A * B).
  { assert (0 <= (2 * N2 * B + B - 2 * P2) * A)
      by (apply Z.mul_nonneg_nonneg; lia).
    lia. }
  assert (H3 : 2 * P1 * B <= 2 * P2 * A) by lia.
  assert (H4 : 2 * N2 * (A * B) + 2 * (A * B) <= 2 * N1 * (A * B)).
  { assert (0 <= (N1 - N2 - 1) * (A * B))
      by (apply Z.mul_nonneg_nonneg; lia).
    lia. }
  assert (EN : N1 = N2 + 1).
  { assert (H5 : (N1 - N2 - 1) * (A * B) = 0) by lia.
    apply Z.mul_eq_0 in H5. lia. }
  assert (E1 : 2 * P1 = 2 * N1 * A - A).
  { assert (H5 : (2 * P1 + A - 2 * N1 * A) * B = 0) by lia.
    apply Z.mul_eq_0 in H5. lia. }
  assert (E2 : 2 * P2 = 2 * N2 * B + B).
  { assert (H5 : (2 * N2 * B + B - 2 * P2) * A = 0) by lia.
    apply Z.mul_eq_0 in H5. lia. }
  pose proof (Hev1 (or_introl E1)) as Ev1.
  pose proof (Hev2 (or_intror E2)) as Ev2.
  rewrite EN, Z.even_add, Ev2 in Ev1. discriminate.
Qed.

(** Rounding to nearest keeps the order: of two positive values, the
    larger does not round to the smaller number. An infinity counts as
    the largest number. *)
Lemma binary_round_aux_mono (P1 x1 P2 x2 : Z) :
  0 < P1 -> 0 < P2 ->
  x1 <= fexp prec emax (Zdigits2 P1 + x1) ->
  x2 <= fexp prec emax (Zdigits2 P2 + x2) ->
  leq_val P1 x1 P2 x2 ->
  SFleb (binary_round_aux prec emax false P1 x1 loc_Exact)
    (binary_round_aux prec emax false P2 x2 loc_Exact) = true.
Proof.
  intros HP1 HP2 Hx1 Hx2 Hle.
  destruct (binary_round_aux_nearest P1 x1 HP1 Hx1) as (N1 & Hn1 & ->).
  destruct (binary_round_aux_nearest P2 x2 HP2 Hx2) as (N2 & Hn2 & ->).
  pose proof (nearestEven_rounded P1 x1 N1 HP1 Hx1 Hn1) as R1.
  pose proof (nearestEven_rounded P2 x2 N2 HP2 Hx2 Hn2) as R2.
  apply pack_le; try assumption.
  rewrite !fexp64 in *.
  destruct P1 as [|p1|p1]; try lia. destruct P2 as [|p2|p2]; try lia.
  pose proof (digits2_pos_bounds p1) as [B1lo B1hi].
  pose proof (digits2_pos_bounds p2) as [B2lo B2hi].
  simpl Zdigits2 in *.
  set (d1 := Zpos (digits2_pos p1)) in *.
  set (d2 := Zpos (digits2_pos p2)) in *.
  assert (Hd1 : 1 <= d1) by (unfold d1; lia).
  assert (Hd2 : 1 <= d2) by (unfold d2; lia).
  set (E1 := Z.max (d1 + x1 - 53) (-1074)) in *.
  set (E2 := Z.max (d2 + x2 - 53) (-1074)) in *.
  (* the sizes compare as the values do *)
  assert (Hsize : d1 + x1 <= d2 + x2).
  { set (K := Z.min x1 x2).
    assert (HK : K <= x1 /\ K <= x2) by (unfold K; lia).
    unfold leq_val in Hle. fold K in Hle.
    pose proof (pow2_pos (x1 - K) ltac:(lia)).
    pose proof (pow2_pos (x2 - K) ltac:(lia)).
    assert (H1 : 2 ^ (d1 - 1) * 2 ^ (x1 - K) < 2 ^ d2 * 2 ^ (x2 - K)).
    { assert (2 ^ (d1 - 1) * 2 ^ (x1 - K) <= Zpos p1 * 2 ^ (x1 - K))
        by (apply Z.mul_le_mono_nonneg_r; lia).
      assert (Zpos p2 * 2 ^ (x2 - K) < 2 ^ d2 * 2 ^ (x2 - K))
        by (apply Z.mul_lt_mono_pos_r; lia).
      lia. }
    rewrite <- !pow2_split in H1 by lia.
    apply Z.pow_lt_mono_r_iff in H1; lia. }
  destruct (Z.eqb_spec E1 E2) as [Heq|Hne].
  - (* the same exponent: the nearest integers are in order *)
    assert (HN : N1 <= N2).
    { apply (nearestEven_le (Zpos p1) (E1 - x1) N1 (Zpos p2) (E2 - x2) N2);
        try assumption; try lia.
      apply (leq_val_iff _ _ _ _ (x1 + x2 - E1)) in Hle; try lia.
      replace (x1 - (x1 + x2 - E1)) with (E2 - x2) in Hle by lia.
      replace (x2 - (x1 + x2 - E1)) with (E1 - x1) in Hle by lia.
      exact Hle. }
    rewrite <- Heq. unfold leq_val. rewrite Z.min_id, Z.sub_diag.
    change (2 ^ 0) with 1. lia.
  - (* a smaller exponent: a power of two lies between the values *)
    assert (Hlt : E1 < E2) by lia.
    destruct R2 as (_ & _ & [?|HN2]); [lia|].
    destruct Hn1 as (HN1 & [Hup _] & _).
    apply (leq_val_iff _ _ _ _ E1); try lia. rewrite Z.sub_diag.
    change (2 ^ 0) with 1. rewrite Z.mul_1_r.
    set (k1 := E1 - x1) in *.
    pose proof (pow2_pos k1 ltac:(lia)) as Hk1.
    pose proof (pow2_pos (E2 - E1) ltac:(lia)) as Hk2.
    assert (Hd : 2 ^ d1 <= 2 ^ 52 * 2 ^ (E2 - E1) * 2 ^ k1).
    { rewrite <- !pow2_split by lia. apply Z.pow_le_mono_r; lia. }
    assert (N1 <= 2 ^ 52 * 2 ^ (E2 - E1)) by nia.
    nia.
Qed.

Lemma Zdigits2_shift (m : positive) (j : Z) :
  0 <= j -> Zdigits2 (Zpos m * 2 ^ j) = Zdigits2 (Zpos m) + j.
Proof.
  intros Hj. pose proof (pow2_pos j Hj) as Hp.
  pose proof (digits2_pos_bounds m) as [Blo Bhi].
  assert (Hpos : 0 < Zpos m * 2 ^ j) by nia.
  destruct (Zpos m * 2 ^ j) as [|q|q] eqn:E; try lia.
  apply Zdigits2_unique. rewrite <- E. simpl Zdigits2.
  replace (Zpos (digits2_pos m) + j - 1)
    with (Zpos (digits2_pos m) - 1 + j) by lia.
  rewrite !pow2_split by lia. nia.
Qed.

(** [binary_round] is [binary_round_aux] on the same value, written with
    an exponent that leaves bits to shift out, or none. *)
Lemma binary_round_aligned (s : bool) (m : positive) (e : Z) :
  exists (P : positive) (x : Z),
    x <= e /\ Zpos P = Zpos m * 2 ^ (e - x)
    /\ x <= fexp prec emax (Zdigits2 (Zpos P) + x)
    /\ binary_round prec emax s m e
       = binary_round_aux prec emax s (Zpos P) x loc_Exact.
Proof.
  unfold binary_round, shl_align.
  set (E := fexp prec emax (Zpos (digits2_pos m) + e)).
  destruct (E - e) as [|d|d] eqn:Ed.
  - exists m, e. rewrite Z.sub_diag. change (2 ^ 0) with 1.
    repeat split; try lia. simpl Zdigits2. fold E. lia.
  - exists m, e. rewrite Z.sub_diag. change (2 ^ 0) with 1.
    repeat split; try lia. simpl Zdigits2. fold E. lia.
  - exists (Pos.iter xO m d), E.
    assert (Hm : Zpos (Pos.iter xO m d) = Zpos m * 2 ^ (e - E)).
    { rewrite iter_xO_pow. f_equal. f_equal. lia. }
    repeat split; try lia.
    rewrite Hm, Zdigits2_shift by lia. simpl Zdigits2.
    replace (Zpos (digits2_pos m) + (e - E) + E)
      with (Zpos (digits2_pos m) + e) by lia.
    fold E. lia.
Qed.

Lemma binary_round_aux_sign (P x : Z) (l : location) :
  binary_round_aux prec emax true P x l
  = SFopp (binary_round_aux prec emax false P x l).
Proof.
  unfold binary_round_aux.
  destruct (shr_fexp prec emax P x l) as [mrs' e'].
  destruct (shr_fexp prec emax _ e' loc_Exact) as [mrs'' e''].
  destruct (shr_m mrs''); try reflexivity.
  destruct (e'' <=? emax - prec); reflexivity.
Qed.

Lemma binary_round_aux_nonneg (P x : Z) :
  0 < P -> x <= fexp prec emax (Zdigits2 P + x) ->
  SFnonneg (binary_round_aux prec emax false P x loc_Exact).
Proof.
  intros HP Hx.
  destruct (binary_round_aux_nearest P x HP Hx) as (N & Hn & ->).
  pose proof (nearestEven_rounded P x N HP Hx Hn) as R.
  destruct (pack_roundedPair _ _ R)
    as [[_ ->]|[(m & e & -> & _)|(-> & _)]].
  - now left.
  - right. left. now exists m, e.
  - right. now right.
Qed.

Lemma SFleb_nonneg (a b : spec_float) :
  SFnonneg a -> SFnonneg b -> SFleb (SFopp a) b = true.
Proof.
  intros [->|[(m1 & e1 & ->)| ->]] [->|[(m2 & e2 & ->)| ->]]; reflexivity.
Qed.

Lemma SFleb_zero_nonneg (a : spec_float) (s : bool) :
  SFnonneg a -> SFleb (S754_zero s) a = true.
Proof. intros [->|[(m & e & ->)| ->]]; reflexivity. Qed.

Lemma SFleb_nonpos_zero (a : spec_float) (s : bool) :
  SFnonneg a -> SFleb (SFopp a) (S754_zero s) = true.
Proof. intros [->|[(m & e & ->)| ->]]; reflexivity. Qed.

Lemma SFleb_opp (a b : spec_float) :
  SFnonneg a -> SFnonneg b ->
  SFleb a b = true -> SFleb (SFopp b) (SFopp a) = true.
Proof.
  intros [->|[(m1 & e1 & ->)| ->]] [->|[(m2 & e2 & ->)| ->]];
    try reflexivity; try discriminate.
  unfold SFleb, SFcompare, SFopp. simpl negb.
  rewrite (Z.compare_antisym e1 e2).
  pose proof (Pos.compare_cont_antisym m2 m1 Eq) as Ha. simpl CompOpp in Ha.
  rewrite Ha.
  destruct (e1 ?= e2); simpl; try reflexivity; try discriminate.
  destruct (Pos.compare_cont Eq m1 m2); simpl; try reflexivity;
    try discriminate.
Qed.

Lemma binary_round_sign (m : positive) (e : Z) :
  binary_round prec emax true m e = SFopp (binary_round prec emax false m e).
Proof.
  unfold binary_round. destruct (shl_align m e _) as [mz ez].
  apply binary_round_aux_sign.
Qed.

Lemma binary_round_nonneg (m : positive) (e : Z) :
  SFnonneg (binary_round prec emax false m e).
Proof.
  destruct (binary_round_aligned false m e) as (P & x & _ & _ & Hx & ->).
  apply binary_round_aux_nonneg; [lia | exact Hx].
Qed.

Lemma binary_round_mono (m1 m2 : positive) (e1 e2 : Z) :
  leq_val (Zpos m1) e1 (Zpos m2) e2 ->
  SFleb (binary_round prec emax false m1 e1)
    (binary_round prec emax false m2 e2) = true.
Proof.
  intros Hle.
  destruct (binary_round_aligned false m1 e1)
    as (P1 & x1 & Hx1 & HP1 & Hs1 & ->).
  destruct (binary_round_aligned false m2 e2)
    as (P2 & x2 & Hx2 & HP2 & Hs2 & ->).
  apply binary_round_aux_mono; try assumption; try lia.
  set (K := Z.min x1 x2).
  assert (HK : K <= x1 /\ K <= x2) by (unfold K; lia).
  apply (leq_val_iff _ _ _ _ K); try lia.
  apply (leq_val_iff _ _ _ _ K) in Hle; try lia.
  rewrite HP1, HP2, <- !Z.mul_assoc, <- !pow2_split by lia.
  replace (e1 - x1 + (x1 - K)) with (e1 - K) by lia.
  replace (e2 - x2 + (x2 - K)) with (e2 - K) by lia.
  exact Hle.
Qed.

(** [binary_normalize] keeps the order of the values it rounds, of
    whatever signs. *)
Lemma binary_normalize_mono (M1 e1 M2 e2 : Z) :
  leq_val M1 e1 M2 e2 ->
  SFleb (binary_normalize prec emax M1 e1 false)
    (binary_normalize prec emax M2 e2 false) = true.
Proof.
  intros Hle.
  pose proof (pow2_pos (e1 - Z.min e1 e2) ltac:(lia)) as Hp1.
  pose proof (pow2_pos (e2 - Z.min e1 e2) ltac:(lia)) as Hp2.
  destruct M1 as [|m1|m1], M2 as [|m2|m2]; simpl binary_normalize;
    rewrite ?binary_round_sign.
  - reflexivity.
  - apply SFleb_zero_nonneg, binary_round_nonneg.
  - unfold leq_val in Hle. lia.
  - unfold leq_val in Hle. lia.
  - apply binary_round_mono, Hle.
  - unfold leq_val in Hle. lia.
  - apply SFleb_nonpos_zero, binary_round_nonneg.
  - apply SFleb_nonneg; apply binary_round_nonneg.
  - apply SFleb_opp; try apply binary_round_nonneg.
    apply binary_round_mono. unfold leq_val in *.
    rewrite (Z.min_comm e2 e1). lia.
Qed.

End Monotone.

(** * Sums and products of numbers of the format *)

Section Values.

Lemma valueLe_iff (u v : Z * Z) (K : Z) :
  K <= snd u -> K <= snd v ->
  valueLe u v <-> fst u * 2 ^ (snd u - K) <= fst v * 2 ^ (snd v - K).
Proof. intros. apply leq_val_iff; assumption. Qed.

Lemma valueLe_refl (u : Z * Z) : valueLe u u.
Proof. unfold valueLe, leq_val. lia. Qed.

Lemma valueLe_trans (u v w : Z * Z) :
  valueLe u v -> valueLe v w -> valueLe u w.
Proof.
  intros H1 H2.
  set (K := Z.min (snd u) (Z.min (snd v) (snd w))).
  assert (HK : K <= snd u /\ K <= snd v /\ K <= snd w) by (unfold K; lia).
  apply (valueLe_iff _ _ K) in H1; try lia.
  apply (valueLe_iff _ _ K) in H2; try lia.
  apply (valueLe_iff _ _ K); lia.
Qed.

Lemma addValue_scaled (u v : Z * Z) (K : Z) :
  K <= snd u -> K <= snd v ->
  fst (addValue u v) * 2 ^ (snd (addValue u v) - K)
  = fst u * 2 ^ (snd u - K) + fst v * 2 ^ (snd v - K).
Proof.
  intros Hu Hv. unfold addValue. cbn [fst snd].
  set (k := Z.min (snd u) (snd v)).
  assert (Hk : K <= k /\ k <= snd u /\ k <= snd v) by (unfold k; lia).
  rewrite Z.mul_add_distr_r, <- !Z.mul_assoc, <- !pow2_split by lia.
  replace (snd u - k + (k - K)) with (snd u - K) by lia.
  replace (snd v - k + (k - K)) with (snd v - K) by lia.
  reflexivity.
Qed.

Lemma addValue_snd (u v : Z * Z) :
  snd (addValue u v) = Z.min (snd u) (snd v).
Proof. reflexivity. Qed.

(** Adding the same value to both sides keeps the order. *)
Lemma valueLe_add (b p q : Z * Z) :
  valueLe p q -> valueLe (addValue b p) (addValue b q).
Proof.
  intros H.
  set (K := Z.min (snd b) (Z.min (snd p) (snd q))).
  assert (HK : K <= snd b /\ K <= snd p /\ K <= snd q) by (unfold K; lia).
  apply (valueLe_iff _ _ K) in H; try lia.
  apply (valueLe_iff _ _ K); rewrite ?addValue_snd; try lia.
  rewrite <- !addValue_snd, !addValue_scaled by lia. lia.
Qed.

Lemma valueLe_add_r (b q : Z * Z) :
  0 <= fst q -> valueLe b (addValue b q).
Proof.
  intros H.
  set (K := Z.min (snd b) (snd q)).
  assert (HK : K <= snd b /\ K <= snd q) by (unfold K; lia).
  apply (valueLe_iff _ _ K); rewrite ?addValue_snd; try lia.
  rewrite <- !addValue_snd, !addValue_scaled by lia.
  pose proof (pow2_pos (snd q - K) ltac:(lia)). nia.
Qed.

Lemma valueLe_add_l (b p : Z * Z) :
  fst p <= 0 -> valueLe (addValue b p) b.
Proof.
  intros H.
  set (K := Z.min (snd b) (snd p)).
  assert (HK : K <= snd b /\ K <= snd p) by (unfold K; lia).
  apply (valueLe_iff _ _ K); rewrite ?addValue_snd; try lia.
  rewrite <- !addValue_snd, !addValue_scaled by lia.
  pose proof (pow2_pos (snd p - K) ltac:(lia)). nia.
Qed.

Lemma addValue_zero_l (u v : Z * Z) :
  fst u = 0 -> valueLe v (addValue u v) /\ valueLe (addValue u v) v.
Proof.
  intros H.
  set (K := Z.min (snd u) (snd v)).
  assert (HK : K <= snd u /\ K <= snd v) by (unfold K; lia).
  split; apply (valueLe_iff _ _ K); rewrite ?addValue_snd; try lia;
    rewrite <- !addValue_snd, !addValue_scaled by lia; rewrite H; lia.
Qed.

Lemma addValue_zero_r (u v : Z * Z) :
  fst v = 0 -> valueLe u (addValue u v) /\ valueLe (addValue u v) u.
Proof.
  intros H.
  set (K := Z.min (snd u) (snd v)).
  assert (HK : K <= snd u /\ K <= snd v) by (unfold K; lia).
  split; apply (valueLe_iff _ _ K); rewrite ?addValue_snd; try lia;
    rewrite <- !addValue_snd, !addValue_scaled by lia; rewrite H; lia.
Qed.

(** The product of a value by a factor between 0 and 1 lies between 0 and
    the value. *)
Lemma mulValue_unit (d t : Z * Z) :
  0 <= fst t -> valueLe t (2 ^ 52, -52) ->
  (0 <= fst d ->
   valueLe (0, 0) (mulValue d t) /\ valueLe (mulValue d t) d)
  /\ (fst d <= 0 ->
      valueLe d (mulValue d t) /\ valueLe (mulValue d t) (0, 0)).
Proof.
  intros Ht H1.
  set (K1 := Z.min (snd t) (-52)).
  assert (HK1 : K1 <= snd t /\ K1 <= -52) by (unfold K1; lia).
  unfold valueLe, leq_val in H1. cbn [fst snd] in H1. fold K1 in H1.
  assert (E1 : 2 ^ 52 * 2 ^ (-52 - K1) = 2 ^ (- K1)).
  { rewrite <- pow2_split by lia. f_equal. lia. }
  rewrite E1 in H1.
  pose proof (pow2_pos (snd t - K1) ltac:(lia)) as Hp.
  pose proof (pow2_pos (- K1) ltac:(lia)) as Hq.
  assert (Hbound :
             (valueLe (mulValue d t) d
              <-> fst d * fst t * 2 ^ (snd t - K1) <= fst d * 2 ^ (- K1))
             /\ (valueLe d (mulValue d t)
                 <-> fst d * 2 ^ (- K1) <= fst d * fst t * 2 ^ (snd t - K1))).
  { split.
    - rewrite (valueLe_iff _ _ (snd d + K1)) by (cbn [snd mulValue]; lia).
      cbn [fst snd mulValue].
      replace (snd d + snd t - (snd d + K1)) with (snd t - K1) by lia.
      replace (snd d - (snd d + K1)) with (- K1) by lia. reflexivity.
    - rewrite (valueLe_iff _ _ (snd d + K1)) by (cbn [snd mulValue]; lia).
      cbn [fst snd mulValue].
      replace (snd d + snd t - (snd d + K1)) with (snd t - K1) by lia.
      replace (snd d - (snd d + K1)) with (- K1) by lia. reflexivity. }
  destruct Hbound as [Hle Hge].
  split; intros Hd; split.
  - unfold valueLe, leq_val. cbn [fst snd mulValue].
    pose proof (pow2_pos (snd d + snd t - Z.min 0 (snd d + snd t))
                  ltac:(lia)). nia.
  - apply Hle. rewrite <- Z.mul_assoc.
    apply Z.mul_le_mono_nonneg_l; assumption.
  - apply Hge. rewrite <- (Z.mul_assoc (fst d)).
    apply Z.mul_le_mono_nonpos_l; assumption.
  - unfold valueLe, leq_val. cbn [fst snd mulValue].
    pose proof (pow2_pos (snd d + snd t - Z.min (snd d + snd t) 0)
                  ltac:(lia)). nia.
Qed.

End Values.

Section Format.

Lemma sameNumber_refl (a : spec_float) : sameNumber a a.
Proof. now left. Qed.

Lemma SFleb_sameNumber (a a' b b' : spec_float) :
  sameNumber a a' -> sameNumber b b' ->
  SFleb a' b' = true -> SFleb a b = true.
Proof.
  intros [->|(s1 & s1' & -> & ->)] [->|(s2 & s2' & -> & ->)] H; exact H.
Qed.

(** Two numbers that are two values rounded are in the order of the
    values. *)
Lemma represents_le (a b : spec_float) (u v : Z * Z) :
  represents a u -> represents b v -> valueLe u v -> SFleb a b = true.
Proof.
  intros Ha Hb H. apply (SFleb_sameNumber _ _ _ _ Ha Hb).
  apply binary_normalize_mono, H.
Qed.

Lemma binary_round_canonical (m : positive) (e : Z) :
  bounded prec emax m e = true ->
  binary_round prec emax false m e = S754_finite false m e.
Proof.
  intros V. destruct (bounded_canonical m e V) as (He & Hm & Hc).
  unfold bounded, canonical_mantissa in V.
  apply andb_true_iff in V. destruct V as [Hcan _].
  apply Z.eqb_eq in Hcan.
  unfold binary_round, shl_align. rewrite Hcan, Z.sub_diag.
  rewrite binary_round_aux_pack. unfold shr_fexp. simpl Zdigits2.
  rewrite Hcan, Z.sub_diag. simpl.
  rewrite pack_canonical by lia. reflexivity.
Qed.

(** A number of the format is its own value rounded. *)
Lemma represents_valueOf (a : spec_float) :
  SFnumber a -> represents a (valueOf a).
Proof.
  intros [Hf Hv]. unfold represents.
  destruct a as [s|s| |s m e]; try discriminate.
  - right. now exists s, false.
  - left. simpl in Hv. destruct s; simpl.
    + rewrite binary_round_sign, binary_round_canonical by exact Hv.
      reflexivity.
    + rewrite binary_round_canonical by exact Hv. reflexivity.
Qed.

(** The order of two numbers of the format is that of their values. *)
Lemma SFleb_valueLe (a b : spec_float) :
  SFnumber a -> SFnumber b ->
  SFleb a b = true -> valueLe (valueOf a) (valueOf b).
Proof.
  intros [Fa Va] [Fb Vb] H.
  destruct a as [sa|sa| |sa ma ea]; try discriminate;
    destruct b as [sb|sb| |sb mb eb]; try discriminate;
    unfold valueLe; cbn [valueOf fst snd]; simpl in Va, Vb.
  - destruct sb; [discriminate|]. unfold leq_val. simpl cond_Zopp.
    pose proof (pow2_pos (eb - Z.min 0 eb) ltac:(lia)). nia.
  - destruct sa; [|discriminate]. unfold leq_val. simpl cond_Zopp.
    pose proof (pow2_pos (ea - Z.min ea 0) ltac:(lia)). nia.
  - destruct sa, sb; simpl cond_Zopp.
    + (* both negative *)
      assert (H' : SFleb (S754_finite false mb eb) (S754_finite false ma ea)
                   = true).
      { pose proof (SFleb_opp (S754_finite true mb eb)
                      (S754_finite true ma ea)) as Ho.
        revert H. unfold SFleb, SFcompare.
        rewrite (Z.compare_antisym ea eb).
        pose proof (Pos.compare_cont_antisym mb ma Eq) as Hc.
        simpl CompOpp in Hc. rewrite <- Hc.
        destruct (ea ?= eb); simpl; try discriminate; try reflexivity.
        destruct (Pos.compare_cont Eq mb ma); simpl; try discriminate;
          reflexivity. }
      pose proof (SFleb_leq_val mb ma eb ea Vb Va H') as Hle.
      unfold leq_val in *. rewrite (Z.min_comm ea eb). lia.
    + unfold leq_val.
      pose proof (pow2_pos (ea - Z.min ea eb) ltac:(lia)).
      pose proof (pow2_pos (eb - Z.min ea eb) ltac:(lia)). nia.
    + discriminate.
    + apply SFleb_leq_val; assumption.
Qed.

Lemma shl_align_fst (m : positive) (e k : Z) :
  k <= e -> Zpos (fst (shl_align m e k)) = Zpos m * 2 ^ (e - k).
Proof.
  intros Hk. unfold shl_align.
  destruct (k - e) as [|d|d] eqn:E; try lia; cbn [fst].
  - replace (e - k) with 0 by lia. change (2 ^ 0) with 1. lia.
  - rewrite iter_xO_pow. f_equal. f_equal. lia.
Qed.

Lemma cond_Zopp_mul (s : bool) (a b : Z) :
  cond_Zopp s a * b = cond_Zopp s (a * b).
Proof. destruct s; simpl; lia. Qed.

(** The sum of two numbers of the format is their exact sum, rounded. *)
Lemma SFadd_represents (a b : spec_float) :
  SFnumber a -> SFnumber b ->
  exists w,
    valueLe w (addValue (valueOf a) (valueOf b))
    /\ valueLe (addValue (valueOf a) (valueOf b)) w
    /\ represents (SF64add a b) w.
Proof.
  intros Na Nb. pose proof Na as [Fa Va]. pose proof Nb as [Fb Vb].
  destruct a as [sa|sa| |sa ma ea]; try discriminate;
    destruct b as [sb|sb| |sb mb eb]; try discriminate.
  - (* two zeros *)
    exists (0, 0). split; [|split].
    + unfold valueLe, leq_val. simpl. lia.
    + unfold valueLe, leq_val. simpl. lia.
    + right. unfold SF64add, SFadd. destruct sa, sb; eexists _, _; eauto.
  - (* a zero and a number *)
    exists (valueOf (S754_finite sb mb eb)).
    destruct (addValue_zero_l (valueOf (S754_zero sa))
                (valueOf (S754_finite sb mb eb)) eq_refl) as [H1 H2].
    split; [exact H1|]. split; [exact H2|].
    apply (represents_valueOf _ Nb).
  - (* a number and a zero *)
    exists (valueOf (S754_finite sa ma ea)).
    destruct (addValue_zero_r (valueOf (S754_finite sa ma ea))
                (valueOf (S754_zero sb)) eq_refl) as [H1 H2].
    split; [exact H1|]. split; [exact H2|].
    apply (represents_valueOf _ Na).
  - (* two numbers *)
    exists (addValue (valueOf (S754_finite sa ma ea))
              (valueOf (S754_finite sb mb eb))).
    split; [apply valueLe_refl|]. split; [apply valueLe_refl|].
    left. unfold SF64add, SFadd, addValue. cbn [valueOf fst snd].
    rewrite !cond_Zopp_mul, <- !shl_align_fst by lia. reflexivity.
Qed.

End Format.

Section Products.

Lemma binary_round_no_shift (s : bool) (m : positive) (e : Z) :
  e <= fexp prec emax (Zdigits2 (Zpos m) + e) ->
  binary_round prec emax s m e
  = binary_round_aux prec emax s (Zpos m) e loc_Exact.
Proof.
  intros H. unfold binary_round, shl_align. simpl Zdigits2 in H.
  destruct (fexp prec emax (Zpos (digits2_pos m) + e) - e) eqn:E;
    try reflexivity. lia.
Qed.

(** The exact product of two numbers of the format has bits to shift out,
    or none: it is never written with too large an exponent. *)
Lemma mul_no_shift (m1 m2 : positive) (e1 e2 : Z) :
  bounded prec emax m1 e1 = true -> bounded prec emax m2 e2 = true ->
  e1 + e2 <= fexp prec emax (Zdigits2 (Zpos (m1 * m2)) + (e1 + e2)).
Proof.
  intros V1 V2. unfold bounded, canonical_mantissa in V1, V2.
  apply andb_true_iff in V1, V2. destruct V1 as [C1 _], V2 as [C2 _].
  apply Z.eqb_eq in C1, C2. rewrite fexp64 in *.
  pose proof (digits2_pos_bounds m1) as [B1lo B1hi].
  pose proof (digits2_pos_bounds m2) as [B2lo B2hi].
  pose proof (digits2_pos_bounds (m1 * m2)) as [_ Bhi].
  simpl Zdigits2.
  set (d1 := Zpos (digits2_pos m1)) in *.
  set (d2 := Zpos (digits2_pos m2)) in *.
  set (D := Zpos (digits2_pos (m1 * m2))) in *.
  assert (Hd1 : 1 <= d1) by (unfold d1; lia).
  assert (Hd2 : 1 <= d2) by (unfold d2; lia).
  assert (HD : d1 + d2 - 1 <= D).
  { rewrite Pos2Z.inj_mul in Bhi.
    assert (H : 2 ^ (d1 - 1 + (d2 - 1)) < 2 ^ D).
    { rewrite pow2_split by lia.
      assert (2 ^ (d1 - 1) * 2 ^ (d2 - 1) <= Zpos m1 * Zpos m2)
        by (apply Z.mul_le_mono_nonneg; lia || apply Z.pow_nonneg; lia).
      lia. }
    assert (0 <= D) by (unfold D; lia).
    apply Z.pow_lt_mono_r_iff in H; lia. }
  lia.
Qed.

(** The product of two numbers of the format is their exact product,
    rounded. *)
Lemma SFmul_represents (a b : spec_float) :
  SFnumber a -> SFnumber b ->
  represents (SF64mul a b) (mulValue (valueOf a) (valueOf b)).
Proof.
  intros [Fa Va] [Fb Vb]. unfold represents.
  destruct a as [sa|sa| |sa ma ea]; try discriminate;
    destruct b as [sb|sb| |sb mb eb]; try discriminate;
    cbn [valueOf mulValue fst snd].
  - right. simpl. eexists _, _; eauto.
  - right. simpl. eexists _, _; eauto.
  - right. rewrite Z.mul_0_r. simpl. eexists _, _; eauto.
  - left. simpl in Va, Vb.
    pose proof (mul_no_shift ma mb ea eb Va Vb) as Hs.
    unfold SF64mul, SFmul.
    destruct sa, sb; simpl cond_Zopp; simpl xorb; simpl Z.mul;
      simpl binary_normalize;
      rewrite binary_round_no_shift by exact Hs; reflexivity.
Qed.

End Products.

Section Lerp.

Lemma Prim2SF_number (a : number) :
  SFfinite (Prim2SF a) = true -> SFnumber (Prim2SF a).
Proof. intros H. split; [exact H | apply Prim2SF_valid]. Qed.

(** A number between two numbers of the format is one of them. *)
Lemma SFfinite_between (lo x hi : spec_float) :
  SFfinite lo = true -> SFfinite hi = true ->
  SFleb lo x = true -> SFleb x hi = true -> SFfinite x = true.
Proof.
  intros Hlo Hhi H1 H2.
  destruct x as [s|[|]| |s m e]; try reflexivity.
  - destruct lo as [s|s| |[|] m e]; discriminate.
  - destruct hi as [s|s| |[|] m e]; discriminate.
  - destruct lo as [s|s| |[|] m e]; discriminate.
Qed.

Lemma valueLe_zero_l (v : Z * Z) : valueLe (0, 0) v -> 0 <= fst v.
Proof.
  unfold valueLe, leq_val. cbn [fst snd]. intros H.
  pose proof (pow2_pos (snd v - Z.min 0 (snd v)) ltac:(lia)). nia.
Qed.

Lemma valueLe_zero_r (v : Z * Z) : valueLe v (0, 0) -> fst v <= 0.
Proof.
  unfold valueLe, leq_val. cbn [fst snd]. intros H.
  pose proof (pow2_pos (snd v - Z.min (snd v) 0) ltac:(lia)). nia.
Qed.

Lemma represents_zero : represents (S754_zero false) (0, 0).
Proof. now left. Qed.

(** A factor between 0 and 1 is a number, and its value is between 0
    and 1. *)
Lemma unit_factor (t : number) :
  (0 <=? t)%float = true -> (t <=? 1)%float = true ->
  SFnumber (Prim2SF t)
  /\ 0 <= fst (valueOf (Prim2SF t))
  /\ valueLe (valueOf (Prim2SF t)) (2 ^ 52, -52).
Proof.
  rewrite !leb_spec. change (Prim2SF 0) with (S754_zero false).
  change (Prim2SF 1) with (S754_finite false 4503599627370496 (-52)).
  intros H0 H1.
  assert (Ht : SFnumber (Prim2SF t)).
  { apply Prim2SF_number.
    apply (SFfinite_between (S754_zero false) _
             (S754_finite false 4503599627370496 (-52)));
      try reflexivity; assumption. }
  assert (N0 : SFnumber (S754_zero false)) by (split; reflexivity).
  assert (N1 : SFnumber (S754_finite false 4503599627370496 (-52)))
    by (split; reflexivity).
  split; [exact Ht|]. split.
  - apply valueLe_zero_l.
    exact (SFleb_valueLe _ _ N0 Ht H0).
  - exact (SFleb_valueLe _ _ Ht N1 H1).
Qed.

(** Linear interpolation from [b] by a step [d]: for a factor between 0
    and 1 the result is between [b], the result for the factor 0, and
    [b + d], the result for the factor 1. *)
Lemma lerp_between (b d t : number) :
  SFfinite (Prim2SF b) = true -> SFfinite (Prim2SF d) = true ->
  (0 <=? t)%float = true -> (t <=? 1)%float = true ->
  between b (b + d)%float (b + d * t)%float = true.
Proof.
  intros Fb Fd H0 H1.
  destruct (unit_factor t H0 H1) as (Nt & Ht0 & Ht1).
  pose proof (Prim2SF_number b Fb) as Nb.
  pose proof (Prim2SF_number d Fd) as Nd.
  pose proof (SFmul_represents _ _ Nd Nt) as Rp. rewrite <- mul_spec in Rp.
  destruct (mulValue_unit (valueOf (Prim2SF d)) (valueOf (Prim2SF t)) Ht0 Ht1)
    as [Hpos Hneg].
  pose proof (represents_valueOf _ Nd) as Rd.
  pose proof (represents_valueOf _ Nb) as Rb.
  destruct (SFadd_represents _ _ Nb Nd) as (wd & Hd1 & Hd2 & Rhi).
  rewrite <- add_spec in Rhi.
  unfold between. rewrite !leb_spec.
  destruct (Z.le_ge_cases 0 (fst (valueOf (Prim2SF d)))) as [Hd|Hd].
  - (* a step forward *)
    destruct (Hpos Hd) as [Hp0 Hpd].
    pose proof (represents_le _ _ _ _ represents_zero Rp Hp0) as L0.
    pose proof (represents_le _ _ _ _ Rp Rd Hpd) as Ld.
    assert (Np : SFnumber (Prim2SF (d * t))).
    { apply Prim2SF_number.
      apply (SFfinite_between (S754_zero false) _ (Prim2SF d));
        try reflexivity; assumption. }
    assert (N0 : SFnumber (S754_zero false)) by (split; reflexivity).
    pose proof (valueLe_zero_l _ (SFleb_valueLe _ _ N0 Np L0)) as Vp0.
    pose proof (SFleb_valueLe _ _ Np Nd Ld) as Vpd.
    destruct (SFadd_represents _ _ Nb Np) as (wp & Hp1 & Hp2 & Rx).
    rewrite <- add_spec in Rx.
    apply orb_true_iff. left. apply andb_true_iff. split.
    + apply (represents_le _ _ _ _ Rb Rx).
      eapply valueLe_trans; [|exact Hp2]. apply valueLe_add_r, Vp0.
    + apply (represents_le _ _ _ _ Rx Rhi).
      eapply valueLe_trans; [exact Hp1|].
      eapply valueLe_trans; [|exact Hd2]. apply valueLe_add, Vpd.
  - (* a step backward *)
    destruct (Hneg ltac:(lia)) as [Hpd Hp0].
    pose proof (represents_le _ _ _ _ Rp represents_zero Hp0) as L0.
    pose proof (represents_le _ _ _ _ Rd Rp Hpd) as Ld.
    assert (Np : SFnumber (Prim2SF (d * t))).
    { apply Prim2SF_number.
      apply (SFfinite_between (Prim2SF d) _ (S754_zero false));
        try reflexivity; assumption. }
    assert (N0 : SFnumber (S754_zero false)) by (split; reflexivity).
    pose proof (valueLe_zero_r _ (SFleb_valueLe _ _ Np N0 L0)) as Vp0.
    pose proof (SFleb_valueLe _ _ Nd Np Ld) as Vpd.
    destruct (SFadd_represents _ _ Nb Np) as (wp & Hp1 & Hp2 & Rx).
    rewrite <- add_spec in Rx.
    apply orb_true_iff. right. apply andb_true_iff. split.
    + apply (represents_le _ _ _ _ Rhi Rx).
      eapply valueLe_trans; [exact Hd1|].
      eapply valueLe_trans; [|exact Hp2]. apply valueLe_add, Vpd.
    + apply (represents_le _ _ _ _ Rx Rb).
      eapply valueLe_trans; [exact Hp1|]. apply valueLe_add_l, Vp0.
Qed.

End Lerp.

(** * Differences that are exact *)

Section Exact.

Lemma sameNumber_sym (a b : spec_float) : sameNumber a b -> sameNumber b a.
Proof.
  intros [->|(s & s' & -> & ->)]; [now left | right; now exists s', s].
Qed.

Lemma sameNumber_trans (a b c : spec_float) :
  sameNumber a b -> sameNumber b c -> sameNumber a c.
Proof.
  intros [->|(s & s' & -> & ->)] H2; [exact H2|].
  destruct H2 as [<-|(t & t' & _ & ->)]; right; eauto.
Qed.

Lemma sameNumber_valueOf (a b : spec_float) :
  sameNumber a b -> valueOf a = valueOf b.
Proof. intros [->|(s & s' & -> & ->)]; reflexivity. Qed.

Lemma sameNumber_finite (a b : spec_float) :
  sameNumber a b -> SFfinite b = true -> SFfinite a = true.
Proof. intros [->|(s & s' & -> & ->)] H; [exact H | reflexivity]. Qed.

(** Two numbers that are at most each other are the same number. *)
Lemma SFleb_antisym (a b : spec_float) :
  SFleb a b = true -> SFleb b a = true -> sameNumber a b.
Proof.
  intros H1 H2.
  destruct a as [sa|sa| |sa ma ea], b as [sb|sb| |sb mb eb];
    try discriminate;
    try (right; eexists _, _; split; reflexivity);
    try (destruct sa; discriminate); try (destruct sb; discriminate).
  - destruct sa, sb; try discriminate; now left.
  - left. unfold SFleb, SFcompare in H1, H2.
    rewrite (Z.compare_antisym ea eb) in H2.
    pose proof (Pos.compare_cont_antisym ma mb Eq) as Hc.
    simpl CompOpp in Hc. rewrite <- Hc in H2.
    destruct sa, sb; try discriminate;
      destruct (ea ?= eb) eqn:Ee; simpl in H1, H2; try discriminate;
      apply Z.compare_eq in Ee; subst eb;
      destruct (Pos.compare_cont Eq ma mb) eqn:Em; simpl in H1, H2;
      try discriminate;
      change (Pos.compare_cont Eq ma mb) with (Pos.compare ma mb) in Em;
      apply Pos.compare_eq in Em; subst mb; reflexivity.
Qed.

(** Rounding depends on the value only, not on how it is written. *)
Lemma binary_normalize_sameValue (u v : Z * Z) :
  valueLe u v -> valueLe v u ->
  sameNumber (binary_normalize prec emax (fst u) (snd u) false)
    (binary_normalize prec emax (fst v) (snd v) false).
Proof.
  intros H1 H2. apply SFleb_antisym; apply binary_normalize_mono; assumption.
Qed.

Lemma represents_sameValue (a : spec_float) (u v : Z * Z) :
  represents a u -> valueLe u v -> valueLe v u -> represents a v.
Proof.
  intros Ha H1 H2. unfold represents in *.
  eapply sameNumber_trans; [exact Ha|].
  apply binary_normalize_sameValue; assumption.
Qed.

(** A value of at most 53 bits at an exponent of the format is a number
    of the format: rounding it changes nothing. *)
Lemma binary_round_exact (m : positive) (e : Z) :
  Zpos m < 2 ^ 53 -> -1074 <= e <= 971 ->
  exists (m' : positive) (e' : Z),
    binary_round prec emax false m e = S754_finite false m' e'
    /\ e' <= e /\ Zpos m' = Zpos m * 2 ^ (e - e').
Proof.
  intros Hm He.
  pose proof (digits2_pos_bounds m) as [Blo Bhi].
  unfold binary_round, shl_align. rewrite fexp64.
  set (d := Zpos (digits2_pos m)) in *.
  assert (Hd : 1 <= d <= 53).
  { split; [unfold d; lia|].
    destruct (Z.leb_spec d 53); [assumption|].
    assert (2 ^ 53 <= 2 ^ (d - 1)) by (apply Z.pow_le_mono_r; lia). lia. }
  set (E := Z.max (d + e - 53) (-1074)).
  assert (HE : -1074 <= E <= e) by (unfold E; lia).
  destruct (E - e) as [|k|k] eqn:Ek; try lia.
  - (* the exponent is that of the format *)
    assert (Ee : E = e) by lia.
    rewrite binary_round_aux_pack. unfold shr_fexp. simpl Zdigits2.
    fold d. rewrite fexp64. fold E. rewrite Ee, Z.sub_diag. simpl.
    rewrite pack_canonical; try lia.
    + exists m, e. rewrite Z.sub_diag. change (2 ^ 0) with 1.
      repeat split; lia.
    + destruct (Z.eqb_spec e (-1074)); [now left | right].
      assert (d = 53) by (unfold E in Ee; lia).
      subst d. replace (Zpos (digits2_pos m) - 1) with 52 in Blo by lia.
      exact Blo.
  - (* the mantissa is shifted to the exponent of the format *)
    assert (HP : Zpos (Pos.iter xO m k) = Zpos m * 2 ^ (e - E)).
    { rewrite iter_xO_pow. f_equal. f_equal. lia. }
    assert (HD : Zdigits2 (Zpos (Pos.iter xO m k)) = d + (e - E)).
    { rewrite HP, Zdigits2_shift by lia. reflexivity. }
    rewrite binary_round_aux_pack. unfold shr_fexp. rewrite HD, fexp64.
    replace (d + (e - E) + E) with (d + e) by lia. fold E.
    rewrite Z.sub_diag. simpl fst. simpl snd.
    cbn [shr shr_record_of_loc shr_m loc_of_shr_record round_nearest_even].
    pose proof (pow2_pos (e - E) ltac:(lia)) as Hp.
    assert (Hlt : Zpos (Pos.iter xO m k) < 2 ^ 53).
    { rewrite HP.
      assert (2 ^ d * 2 ^ (e - E) <= 2 ^ 53).
      { rewrite <- pow2_split by lia. apply Z.pow_le_mono_r; unfold E; lia. }
      nia. }
    rewrite pack_canonical; try lia.
    + exists (Pos.iter xO m k), E. repeat split; try lia.
    + destruct (Z.eqb_spec E (-1074)); [now left | right].
      assert (Ed : E = d + e - 53) by (unfold E in *; lia).
      rewrite HP.
      assert (2 ^ 52 = 2 ^ (d - 1) * 2 ^ (e - E)).
      { rewrite <- pow2_split by lia. f_equal. lia. }
      nia.
Qed.

Lemma binary_normalize_exact (M e : Z) :
  Z.abs M < 2 ^ 53 -> -1074 <= e <= 971 ->
  SFfinite (binary_normalize prec emax M e false) = true
  /\ valueLe (valueOf (binary_normalize prec emax M e false)) (M, e)
  /\ valueLe (M, e) (valueOf (binary_normalize prec emax M e false)).
Proof.
  intros HM He.
  assert (Hval : forall (s : bool) (m m' : positive) (e' : Z),
             e' <= e -> Zpos m' = Zpos m * 2 ^ (e - e') ->
             valueLe (valueOf (S754_finite s m' e')) (cond_Zopp s (Zpos m), e)
             /\ valueLe (cond_Zopp s (Zpos m), e)
                  (valueOf (S754_finite s m' e'))).
  { intros s m m' e' He' Hm'.
    split; apply (valueLe_iff _ _ e'); cbn [valueOf fst snd]; try lia;
      rewrite Z.sub_diag; change (2 ^ 0) with 1;
      destruct s; simpl cond_Zopp; lia. }
  destruct M as [|m|m]; simpl binary_normalize.
  - split; [reflexivity|].
    split; unfold valueLe, leq_val; cbn [valueOf fst snd]; lia.
  - destruct (binary_round_exact m e ltac:(lia) He)
      as (m' & e' & -> & He' & Hm').
    split; [reflexivity|]. exact (Hval false m m' e' He' Hm').
  - rewrite binary_round_sign.
    destruct (binary_round_exact m e ltac:(lia) He)
      as (m' & e' & -> & He' & Hm').
    split; [reflexivity|]. exact (Hval true m m' e' He' Hm').
Qed.

End Exact.

Section Difference.

Lemma SFsub_finite (a b : spec_float) :
  SFfinite (SF64sub a b) = true -> SFfinite b = true.
Proof.
  destruct a as [sa|sa| |sa ma ea], b as [sb|sb| |sb mb eb];
    try reflexivity; try discriminate;
    destruct sa, sb; discriminate.
Qed.

Lemma SFsub_finite_l (a b : spec_float) :
  SFfinite (SF64sub a b) = true -> SFfinite a = true.
Proof.
  destruct a as [sa|sa| |sa ma ea], b as [sb|sb| |sb mb eb];
    try reflexivity; try discriminate;
    destruct sa, sb; discriminate.
Qed.

(** The difference of two numbers of the format is their exact
    difference, rounded. *)
Lemma SFsub_represents (a b : spec_float) :
  SFnumber a -> SFnumber b ->
  exists w,
    valueLe w (addValue (valueOf a) (oppValue (valueOf b)))
    /\ valueLe (addValue (valueOf a) (oppValue (valueOf b))) w
    /\ represents (SF64sub a b) w.
Proof.
  intros Na Nb. pose proof Na as [Fa Va]. pose proof Nb as [Fb Vb].
  destruct a as [sa|sa| |sa ma ea]; try discriminate;
    destruct b as [sb|sb| |sb mb eb]; try discriminate.
  - (* two zeros *)
    exists (0, 0). split; [|split].
    + unfold valueLe, leq_val. simpl. lia.
    + unfold valueLe, leq_val. simpl. lia.
    + right. unfold SF64sub, SFsub. destruct sa, sb; eexists _, _; eauto.
  - (* a zero and a number *)
    exists (valueOf (S754_finite (negb sb) mb eb)).
    assert (E : valueOf (S754_finite (negb sb) mb eb)
                = oppValue (valueOf (S754_finite sb mb eb))).
    { unfold oppValue. cbn [valueOf fst snd]. destruct sb; reflexivity. }
    destruct (addValue_zero_l (valueOf (S754_zero sa))
                (oppValue (valueOf (S754_finite sb mb eb))) eq_refl)
      as [H1 H2].
    rewrite E. split; [exact H1|]. split; [exact H2|]. rewrite <- E.
    apply represents_valueOf. split; [reflexivity | exact Vb].
  - (* a number and a zero *)
    exists (valueOf (S754_finite sa ma ea)).
    destruct (addValue_zero_r (valueOf (S754_finite sa ma ea))
                (oppValue (valueOf (S754_zero sb))) eq_refl) as [H1 H2].
    split; [exact H1|]. split; [exact H2|].
    apply (represents_valueOf _ Na).
  - (* two numbers *)
    exists (addValue (valueOf (S754_finite sa ma ea))
              (oppValue (valueOf (S754_finite sb mb eb)))).
    split; [apply valueLe_refl|]. split; [apply valueLe_refl|].
    left. unfold SF64sub, SFsub, addValue, oppValue. cbn [valueOf fst snd].
    rewrite !shl_align_fst by lia.
    rewrite Z.mul_opp_l, Z.add_opp_r, !cond_Zopp_mul. reflexivity.
Qed.

(** Adding back what was taken away gives the value one started from. *)
Lemma addValue_back (a b d : Z * Z) :
  valueLe d (addValue a (oppValue b)) ->
  valueLe (addValue a (oppValue b)) d ->
  valueLe (addValue b d) a /\ valueLe a (addValue b d).
Proof.
  intros H1 H2.
  set (K := Z.min (snd a) (Z.min (snd b) (snd d))).
  assert (HK : K <= snd a /\ K <= snd b /\ K <= snd d) by (unfold K; lia).
  assert (Hs : snd (addValue a (oppValue b)) = Z.min (snd a) (snd b))
    by reflexivity.
  assert (Hs' : snd (addValue b d) = Z.min (snd b) (snd d)) by reflexivity.
  pose proof (proj1 (valueLe_iff d (addValue a (oppValue b)) K ltac:(lia)
                       ltac:(rewrite Hs; lia)) H1) as H1'.
  pose proof (proj1 (valueLe_iff (addValue a (oppValue b)) d K
                       ltac:(rewrite Hs; lia) ltac:(lia)) H2) as H2'.
  rewrite addValue_scaled in H1', H2' by (cbn [oppValue snd]; lia).
  cbn [oppValue fst snd] in H1', H2'.
  split.
  - apply (valueLe_iff _ _ K); [rewrite Hs'; lia | lia|].
    rewrite addValue_scaled by lia. lia.
  - apply (valueLe_iff _ _ K); [lia | rewrite Hs'; lia|].
    rewrite addValue_scaled by lia. lia.
Qed.

(** [b <= 2 * a], as the code evaluates it, is an order of values. *)
Lemma le_double (a b : number) :
  SFfinite (Prim2SF a) = true -> SFfinite (Prim2SF b) = true ->
  (0 <=? a)%float = true -> (b <=? 2 * a)%float = true ->
  0 <= fst (valueOf (Prim2SF a))
  /\ valueLe (valueOf (Prim2SF b))
       (fst (valueOf (Prim2SF a)), snd (valueOf (Prim2SF a)) + 1).
Proof.
  intros Fa Fb H0 H2. rewrite leb_spec in H0, H2. rewrite mul_spec in H2.
  change (Prim2SF 0) with (S754_zero false) in H0.
  change (Prim2SF 2) with (S754_finite false 4503599627370496 (-51)) in H2.
  pose proof (Prim2SF_number a Fa) as Na.
  pose proof (Prim2SF_number b Fb) as Nb.
  assert (N0 : SFnumber (S754_zero false)) by (split; reflexivity).
  assert (N2 : SFnumber (S754_finite false 4503599627370496 (-51)))
    by (split; reflexivity).
  pose proof (valueLe_zero_l _ (SFleb_valueLe _ _ N0 Na H0)) as Ha0.
  split; [exact Ha0|].
  pose proof (SFmul_represents _ _ N2 Na) as R2.
  set (A := Prim2SF a) in *. set (B := Prim2SF b) in *.
  set (A2 := SF64mul (S754_finite false 4503599627370496 (-51)) A) in *.
  assert (V2 : valid_binary A2 = true).
  { unfold A2, A.
    change (S754_finite false 4503599627370496 (-51)) with (Prim2SF 2).
    rewrite <- mul_spec. apply Prim2SF_valid. }
  (* twice the value, written with the mantissa of [a] *)
  assert (Hsame : valueLe (mulValue (valueOf (Prim2SF 2)) (valueOf A))
                    (fst (valueOf A), snd (valueOf A) + 1)
                  /\ valueLe (fst (valueOf A), snd (valueOf A) + 1)
                       (mulValue (valueOf (Prim2SF 2)) (valueOf A))).
  { change (valueOf (Prim2SF 2)) with (2 ^ 52, -51).
    split; apply (valueLe_iff _ _ (-51 + snd (valueOf A)));
      cbn [mulValue fst snd]; try lia;
      rewrite Z.sub_diag; change (2 ^ 0) with 1;
      replace (snd (valueOf A) + 1 - (-51 + snd (valueOf A))) with 52
        by lia; lia. }
  destruct Hsame as [Hs1 Hs2].
  change (S754_finite false 4503599627370496 (-51)) with (Prim2SF 2) in R2.
  pose proof (represents_sameValue _ _ _ R2 Hs1 Hs2) as R2'.
  destruct (Z.leb_spec (snd (valueOf A) + 1) 971) as [Hsmall|Hbig].
  - (* no overflow: twice the value is a number of the format *)
    assert (Hbits : Z.abs (fst (valueOf A)) < 2 ^ 53
                    /\ -1074 <= snd (valueOf A) + 1).
    { destruct Na as [_ Va]. unfold A in *.
      destruct (Prim2SF a) as [s|s| |s m e]; cbn [valueOf fst snd];
        try (split; [reflexivity | lia]).
      simpl in Va. destruct (bounded_canonical _ _ Va) as (He & Hm & _).
      split; [destruct s; simpl; lia | lia]. }
    destruct (binary_normalize_exact (fst (valueOf A)) (snd (valueOf A) + 1)
                (proj1 Hbits) ltac:(lia)) as (Fr & Hr1 & Hr2).
    unfold represents in R2'. cbn [fst snd] in R2'.
    pose proof (sameNumber_finite _ _ R2' Fr) as F2.
    pose proof (SFleb_valueLe _ _ Nb (conj F2 V2) H2) as Hle.
    rewrite (sameNumber_valueOf _ _ R2') in Hle.
    eapply valueLe_trans; [exact Hle | exact Hr1].
  - (* overflow: the value is at least [2^1024] *)
    destruct Na as [_ Va]. destruct Nb as [_ Vb]. unfold A, B in *.
    destruct (Prim2SF a) as [s|s| |s m e]; cbn [valueOf fst snd] in *;
      try lia.
    simpl in Va. destruct (bounded_canonical _ _ Va) as (He & Hm & Hc).
    assert (Ee : e = 971) by lia. subst e.
    destruct Hc as [?|Hc]; [lia|].
    destruct s; simpl cond_Zopp in *; [lia|].
    destruct (Prim2SF b) as [sb|sb| |sb mb eb]; try discriminate;
      cbn [valueOf fst snd].
    simpl in Vb. destruct (bounded_canonical _ _ Vb) as (Heb & Hmb & _).
    apply (valueLe_iff _ _ eb); cbn [fst snd]; try lia.
    rewrite Z.sub_diag. change (2 ^ 0) with 1.
    assert (2 ^ 1 <= 2 ^ (971 + 1 - eb)) by (apply Z.pow_le_mono_r; lia).
    change (2 ^ 1) with 2 in *.
    destruct sb; simpl cond_Zopp; nia.
Qed.

(** Two numbers that are not negative, neither more than twice the other:
    their difference is exact, and adding it back to the one gives the
    other. *)
Lemma add_sub_back (a b : number) :
  SFfinite (Prim2SF (a - b)) = true ->
  withinFactorTwo a b = true ->
  sameNumber (Prim2SF (b + (a - b))) (Prim2SF a).
Proof.
  intros Fd H. unfold withinFactorTwo in H.
  apply andb_true_iff in H. destruct H as [H Hb2].
  apply andb_true_iff in H. destruct H as [H Hb0].
  apply andb_true_iff in H. destruct H as [Ha0 Ha2].
  pose proof Fd as Fd'. rewrite sub_spec in Fd'.
  pose proof (SFsub_finite_l _ _ Fd') as Fa.
  pose proof (SFsub_finite _ _ Fd') as Fb.
  pose proof (Prim2SF_number a Fa) as Na.
  pose proof (Prim2SF_number b Fb) as Nb.
  pose proof (Prim2SF_number _ Fd) as Nd.
  destruct (le_double a b Fa Fb Ha0 Hb2) as [Pa Lb].
  destruct (le_double b a Fb Fa Hb0 Ha2) as [Pb La].
  destruct (SFsub_represents _ _ Na Nb) as (w & Hw1 & Hw2 & Rd).
  rewrite <- sub_spec in Rd.
  set (va := valueOf (Prim2SF a)) in *. set (vb := valueOf (Prim2SF b)) in *.
  set (k := Z.min (snd va) (snd vb)).
  assert (Hk : k <= snd va /\ k <= snd vb) by (unfold k; lia).
  (* the exact difference has at most 53 bits *)
  assert (Hbits : Z.abs (fst (addValue va (oppValue vb))) < 2 ^ 53
                  /\ -1074 <= k <= 971).
  { apply (valueLe_iff _ _ k) in Lb; cbn [fst snd]; try lia.
    apply (valueLe_iff _ _ k) in La; cbn [fst snd]; try lia.
    cbn [fst snd] in Lb, La.
    replace (snd va + 1 - k) with (1 + (snd va - k)) in Lb by lia.
    replace (snd vb + 1 - k) with (1 + (snd vb - k)) in La by lia.
    rewrite pow2_split in Lb, La by lia. change (2 ^ 1) with 2 in *.
    pose proof (pow2_pos (snd va - k) ltac:(lia)) as Hpa.
    pose proof (pow2_pos (snd vb - k) ltac:(lia)) as Hpb.
    unfold addValue, oppValue. cbn [fst snd]. fold k.
    assert (Hma : 0 <= fst va * 2 ^ (snd va - k)) by nia.
    assert (Hmb : 0 <= fst vb * 2 ^ (snd vb - k)) by nia.
    assert (Hrange : (fst va < 2 ^ 53 /\ -1074 <= snd va <= 971)
                     /\ (fst vb < 2 ^ 53 /\ -1074 <= snd vb <= 971)).
    { destruct Na as [_ Va]. destruct Nb as [_ Vb]. unfold va, vb.
      split.
      - destruct (Prim2SF a) as [s|s| |s m e]; cbn [valueOf fst snd];
          try (split; [reflexivity | lia]). simpl in Va.
        destruct (bounded_canonical _ _ Va) as (He & Hm & _).
        split; [destruct s; simpl; lia | lia].
      - destruct (Prim2SF b) as [s|s| |s m e]; cbn [valueOf fst snd];
          try (split; [reflexivity | lia]). simpl in Vb.
        destruct (bounded_canonical _ _ Vb) as (He & Hm & _).
        split; [destruct s; simpl; lia | lia]. }
    destruct Hrange as [[Ra1 Ra2] [Rb1 Rb2]].
    split; [|unfold k; lia].
    destruct (Z.le_ge_cases (snd va) (snd vb)).
    - replace (snd va - k) with 0 in * by (unfold k; lia).
      change (2 ^ 0) with 1 in *. lia.
    - replace (snd vb - k) with 0 in * by (unfold k; lia).
      change (2 ^ 0) with 1 in *. lia. }
  destruct Hbits as [Hm Hke].
  destruct (binary_normalize_exact _ k Hm Hke) as (Fr & Hr1 & Hr2).
  assert (Rd' : represents (Prim2SF (a - b)) (addValue va (oppValue vb)))
    by (exact (represents_sameValue _ _ _ Rd Hw1 Hw2)).
  unfold represents in Rd'. rewrite addValue_snd in Rd'.
  cbn [oppValue snd] in Rd'. fold k in Rd'.
  (* the value of the difference, as computed, is the exact difference *)
  assert (Hd : valueLe (valueOf (Prim2SF (a - b)))
                 (addValue va (oppValue vb))
               /\ valueLe (addValue va (oppValue vb))
                    (valueOf (Prim2SF (a - b)))).
  { rewrite (sameNumber_valueOf _ _ Rd').
    assert (E : addValue va (oppValue vb)
                = (fst (addValue va (oppValue vb)), k)) by reflexivity.
    rewrite E at 2. rewrite E at 3. split; assumption. }
  destruct Hd as [Hd1 Hd2].
  destruct (addValue_back va vb _ Hd1 Hd2) as [Hb1 Hb2'].
  destruct (SFadd_represents _ _ Nb Nd) as (w2 & Hx1 & Hx2 & Rhi).
  rewrite <- add_spec in Rhi. fold vb in Hx1, Hx2.
  assert (Rhi' : represents (Prim2SF (b + (a - b))) va).
  { apply (represents_sameValue _ _ _ Rhi).
    - eapply valueLe_trans; [exact Hx1 | exact Hb1].
    - eapply valueLe_trans; [exact Hb2' | exact Hx2]. }
  pose proof (represents_valueOf _ Na) as Ra. fold va in Ra.
  exact (sameNumber_trans _ _ _ Rhi' (sameNumber_sym _ _ Ra)).
Qed.

End Difference.

(** * The interpolated coordinates *)

Section Step.

Lemma between_sameNumber (b hi a x : number) :
  sameNumber (Prim2SF hi) (Prim2SF a) ->
  between b hi x = true -> between b a x = true.
Proof.
  intros Hs. unfold between. rewrite !leb_spec.
  pose proof (sameNumber_sym _ _ Hs) as Hs'.
  intros H. apply orb_true_iff in H. apply orb_true_iff.
  destruct H as [H|H]; apply andb_true_iff in H; destruct H as [H1 H2];
    [left | right]; apply andb_true_iff; split; try assumption.
  - exact (SFleb_sameNumber _ _ _ _ (sameNumber_refl _) Hs' H2).
  - exact (SFleb_sameNumber _ _ _ _ Hs' (sameNumber_refl _) H1).
Qed.

(** The coordinate that [interpolateState] computes for a factor between
    0 and 1 is within the step. *)
Lemma lerp_withinStep (b a t : number) :
  (0 <=? t)%float = true -> (t <=? 1)%float = true ->
  withinStep b a (b + (a - b) * t)%float.
Proof.
  intros H0 H1 Hd.
  assert (Hb : SFfinite (Prim2SF b) = true).
  { rewrite sub_spec in Hd. exact (SFsub_finite _ _ Hd). }
  pose proof (lerp_between b (a - b)%float t Hb Hd H0 H1) as H.
  split; [exact H|]. split.
  - intros E. rewrite E in H. exact H.
  - intros H2. exact (between_sameNumber _ _ _ _ (add_sub_back a b Hd H2) H).
Qed.

End Step.

(** C10, amended. For timestamps in the range of [Date.now()] and a render
    time bracketed by the pair: when the timestamps of the pair differ, the
    factor [t] is a number between 0 and 1, and a player of [before] comes
    back as it is, when [after] has no player of its id, or with each
    coordinate, when the step [after - before] is finite, between that of
    [before] and the end of the step as the code computes it,
    [before + (after - before)]. That end is the coordinate of [after] up
    to the rounding of the subtraction and of the addition: it is the
    coordinate of [after], so that the interpolated coordinate is between
    those of [before] and [after], when the two coordinates are not
    negative and neither is more than twice the other. When the timestamps
    are equal, the division is 0 / 0 and [t] is NaN. *)
Theorem interpolation_stays_in_range (renderTime : Z)
  (before after : GameClient.snapshot) :
  0 <= GameClient.timestamp before -> GameClient.timestamp after < 2 ^ 53 ->
  GameClient.timestamp before <= renderTime <= GameClient.timestamp after ->
  let t := GameClient.factor renderTime before after in
  (GameClient.timestamp before < GameClient.timestamp after ->
   (0 <=? t)%float = true /\ (t <=? 1)%float = true
   /\ Forall2 (interpolated after) (GameClient.players before)
        (GameClient.r_players
           (GameClient.interpolate renderTime before after)))
  /\ (GameClient.timestamp before = GameClient.timestamp after ->
      isNaN t = true).
Proof.
  intros Hlo Hhi Hbr t.
  destruct (factor_range renderTime before after Hlo Hhi Hbr) as [Hin Hnan].
  split; [|exact Hnan]. intros Hlt. destruct (Hin Hlt) as [H0 H1].
  split; [exact H0|]. split; [exact H1|].
  unfold GameClient.interpolate. cbn [GameClient.r_players]. fold t.
  induction (GameClient.players before) as [|p ps IH]; simpl map;
    constructor; [|exact IH].
  unfold interpolated, GameClient.interpolatePlayer.
  destruct (GameClient.findPlayer (v_id p) (GameClient.players after))
    as [q|]; [|reflexivity].
  cbn [v_x v_y]. split; apply lerp_withinStep; assumption.
Qed.

(** * Positions of players and coins along a run *)

Section Spawn.

(** A draw of [Math.random()] times a constant of 53 bits is between 0 and
    the constant. *)
Lemma mul_unit (r c : number) (mc : positive) (ec : Z) :
  Prim2SF c = S754_finite false mc ec ->
  2 ^ 52 <= Zpos mc < 2 ^ 53 -> -1074 <= ec <= 0 ->
  inUnit r ->
  (0 <=? r * c)%float = true /\ (r * c <=? c)%float = true.
Proof.
  intros Ec Hmc Hec [H0 H1].
  apply (atMost_leb _ c mc ec Ec).
  apply (mul_atMost r 1%float c 4503599627370496 mc (-52) ec);
    try assumption; try reflexivity; try lia.
  - apply (leq_val_iff _ _ _ _ (-52 + ec)); try lia.
    rewrite Z.sub_diag. replace (ec - (-52 + ec)) with 52 by lia.
    change (Zpos 4503599627370496) with (2 ^ 52). change (2 ^ 0) with 1. lia.
  - apply ltb_leb, H1.
Qed.

Lemma spawn_in_bounds (r : number) :
  inUnit r -> inBounds (r * (MAP_SIZE - PLAYER_SIZE))%float.
Proof.
  intros H. unfold inBounds.
  apply (mul_unit r (MAP_SIZE - PLAYER_SIZE)%float 6772991627100160 (-43));
    [reflexivity | split; [apply Z.leb_le | apply Z.ltb_lt]; reflexivity | lia
    | exact H].
Qed.

Lemma spawn_in_coin_bounds (r : number) :
  inUnit r -> inCoinBounds (r * (MAP_SIZE - COIN_SIZE))%float.
Proof.
  intros H. unfold inCoinBounds.
  apply (mul_unit r (MAP_SIZE - COIN_SIZE)%float 6860952557322240 (-43));
    [reflexivity | split; [apply Z.leb_le | apply Z.ltb_lt]; reflexivity | lia
    | exact H].
Qed.

Lemma update_loop_positions (todo : playerMap) :
  forall done cs,
    Forall (fun kp => positionInBounds (snd kp)) todo ->
    Forall (fun kp => positionInBounds (snd kp)) done ->
    Forall (fun kp => positionInBounds (snd kp))
      (fst (outcome (update_loop todo done cs))).
Proof.
  induction todo as [|[k p] rest IH]; intros done cs Htodo Hdone; simpl.
  - apply Forall_rev, Hdone.
  - rewrite updatePlayer_spec.
    destruct (readFlags (p_inputs p)) as [flags|]; cbv zeta.
    + inversion Htodo as [|? ? [Hx Hy] Hrest]; subst.
      apply IH; [exact Hrest|]. constructor; [|exact Hdone].
      apply (move_in_bounds p flags).
      split; apply inBounds_number; assumption.
    + simpl. rewrite rev_append_rev. apply Forall_app.
      split; [apply Forall_rev, Hdone | exact Htodo].
Qed.

Lemma serverStep_positions (now : Z) (s s' : server) :
  serverStep unitDraw now s s' ->
  Forall (fun kp => positionInBounds (snd kp)) (players s) ->
  Forall (fun kp => positionInBounds (snd kp)) (players s').
Proof.
  intros Hstep Hs.
  destruct Hstep as [|rx ry color cx cy [Hx Hy]|k|G|rx ry|k player v Hget].
  - exact Hs.
  - destruct (register_players now rx ry color cx cy s) as [-> _].
    rewrite Forall_forall in *. intros kp Hin.
    destruct (map_set_In _ _ _ _ Hin) as [H| ->]; [apply Hs, H|].
    split; simpl; apply spawn_in_bounds; assumption.
  - simpl. unfold map_delete. rewrite Forall_forall in *. intros kp Hin.
    apply filter_In in Hin. apply Hs, Hin.
  - unfold update.
    pose proof (update_loop_positions (players s) [] (coins s) Hs
                  (Forall_nil _)) as H.
    destruct (update_loop (players s) [] (coins s)); exact H.
  - unfold onCoinTimer. destruct (_ && _); exact Hs.
  - simpl. rewrite Forall_forall in *. intros kp Hin.
    destruct (map_set_In _ _ _ _ Hin) as [H| ->]; [apply Hs, H|].
    apply (Hs _ (map_get_In _ _ _ Hget)).
Qed.

Lemma run_positions (es : list event) :
  forall w,
    Forall (drawsSatisfy unitDraw) es ->
    Forall (fun kp => positionInBounds (snd kp)) (players (srv w)) ->
    Forall (fun kp => positionInBounds (snd kp))
      (players (srv (outcome (run es w)))).
Proof.
  induction es as [|e es IH]; intros w Hes Hw; simpl; [exact Hw|].
  inversion Hes as [|? ? He Hes']; subst.
  pose proof (serverStep_positions _ _ _ (step_serverStep _ e w He) Hw) as Hw'.
  destruct (step e w) as [w'|err w']; simpl in *; [apply IH|]; assumption.
Qed.

Lemma spawnCoin_inMap (now : Z) (rx ry : number) (s : server) :
  unitDraw rx ry -> Forall coinInMap (coins s) ->
  Forall coinInMap (coins (spawnCoin now rx ry s)).
Proof.
  intros [Hx Hy] Hs. simpl. apply Forall_app. split; [exact Hs|].
  constructor; [|constructor].
  split; simpl; apply spawn_in_coin_bounds; assumption.
Qed.

Lemma step_coinsInMap (e : event) (w : world) :
  coinDrawsSatisfy unitDraw e ->
  Forall coinInMap (coins (srv w)) ->
  Forall coinInMap (coins (srv (outcome (step e w)))).
Proof.
  intros He Hw.
  destruct e as [now rx ry color cx cy|now k message|now k|now|now rx ry|now n];
    simpl in *.
  - unfold register. destruct (_ && _); [|exact Hw].
    apply spawnCoin_inMap; assumption.
  - unfold onMessage. destruct (isOpen k w); exact Hw.
  - unfold onClose.
    destruct (srv_broadcastGameState now
                {| srv := set_players (srv w) (map_delete k (players (srv w)));
                   timers := timers w;
                   openSockets :=
                     filter (fun c => negb (k =? c)) (openSockets w);
                   written := written w |}) as (-> & _).
    exact Hw.
  - unfold onTick. destruct (gameStarted (srv w)); [|exact Hw].
    destruct (update_outcome (srv w)) as (_ & [f Hf] & _).
    assert (Hf' : Forall coinInMap (coins (outcome (update (srv w))))).
    { rewrite Hf. rewrite Forall_forall in *. intros c Hin.
      apply filter_In in Hin. apply Hw, Hin. }
    destruct (update (srv w)) as [s'|err s']; simpl in *; [|exact Hf'].
    destruct (srv_broadcastGameState now (set_srv w s')) as (-> & _).
    exact Hf'.
  - unfold onCoinTimer. destruct (_ && _); [|exact Hw].
    apply spawnCoin_inMap; assumption.
  - unfold onTimeout. destruct (take_nth n (timers w)) as [[t rest]|];
      [|exact Hw].
    destruct (job t) as [conn data|k message]; simpl.
    + destruct (isOpen conn _); exact Hw.
    + destruct (handleMessage_outcome k message (srv w))
        as [->|(player & v & _ & ->)]; exact Hw.
Qed.

Lemma run_coinsInMap (es : list event) :
  forall w,
    Forall (coinDrawsSatisfy unitDraw) es ->
    Forall coinInMap (coins (srv w)) ->
    Forall coinInMap (coins (srv (outcome (run es w)))).
Proof.
  induction es as [|e es IH]; intros w Hes Hw; simpl; [exact Hw|].
  inversion Hes as [|? ? He Hes']; subst.
  pose proof (step_coinsInMap e w He Hw) as Hw'.
  destruct (step e w) as [w'|err w']; simpl in *; [apply IH|]; assumption.
Qed.

End Spawn.

(** X9. No player is ever outside the map: with the numbers that
    [Math.random()] gives, in every state the server reaches, at a tick or
    between two ticks, the position of every player is within
    [0, MAP_SIZE - PLAYER_SIZE] on both axes. *)
Theorem players_never_leave_the_map (now0 : Z) (es : list event) :
  Forall (drawsSatisfy unitDraw) es ->
  Forall (fun kp => positionInBounds (snd kp))
    (players (srv (outcome (run es (boot now0))))).
Proof.
  intros Hes. apply run_positions; [exact Hes | constructor].
Qed.

(** X10. No coin is ever outside the map: with the numbers that
    [Math.random()] gives, every live coin of every state the server
    reaches has its corner within [0, MAP_SIZE - COIN_SIZE] on both axes. *)
Theorem coins_never_leave_the_map (now0 : Z) (es : list event) :
  Forall (coinDrawsSatisfy unitDraw) es ->
  Forall coinInMap (coins (srv (outcome (run es (boot now0))))).
Proof.
  intros Hes. apply run_coinsInMap; [exact Hes | constructor].
Qed.

(** * The range of the buffer *)

Section Range.

Import GameClient.

Lemma findBracket_none_before (renderTime : Z) (states : list snapshot) :
  Forall (fun s => timestamp s < renderTime) states ->
  findBracket renderTime states = None.
Proof.
  induction states as [|a [|b rest] IH]; intros H; try reflexivity.
  inversion H as [|? ? Ha H']; subst. inversion H' as [|? ? Hb _]; subst.
  cbn [findBracket].
  replace (timestamp b >=? renderTime) with false
    by (symmetry; rewrite Z.geb_leb; apply Z.leb_gt; lia).
  rewrite andb_false_r. apply IH, H'.
Qed.

Lemma findBracket_none_after (renderTime : Z) (states : list snapshot) :
  Forall (fun s => renderTime < timestamp s) states ->
  findBracket renderTime states = None.
Proof.
  induction states as [|a [|b rest] IH]; intros H; try reflexivity.
  inversion H as [|? ? Ha H']; subst.
  cbn [findBracket].
  replace (timestamp a <=? renderTime) with false
    by (symmetry; apply Z.leb_gt; lia).
  simpl. apply IH, H'.
Qed.

Lemma nth_error_last {A : Type} (l : list A) (a : A) :
  nth_error (l ++ [a]) (List.length (l ++ [a]) - 1) = Some a.
Proof.
  rewrite length_app. simpl. rewrite Nat.add_sub.
  rewrite nth_error_app2 by lia. now rewrite Nat.sub_diag.
Qed.

(** Without a bracketing pair, the snapshot returned is the one that
    arrived last. *)
Lemma interpolateState_no_bracket (now : Z) (c : client) :
  findBracket (now - INTERPOLATION_DELAY) (serverStates c) = None ->
  interpolateState now c = newest (serverStates c).
Proof.
  intros Hnone. unfold interpolateState, newest. rewrite Hnone.
  destruct (serverStates c) as [|a l] eqn:E using rev_ind; [reflexivity|].
  clear IHl. rewrite rev_app_distr. simpl rev. simpl app.
  rewrite nth_error_last.
  destruct (Nat.ltb_spec (List.length (l ++ [a])) 2) as [Hlt|_];
    [|reflexivity].
  rewrite length_app in Hlt. simpl in Hlt.
  destruct l as [|b l]; [reflexivity | simpl in Hlt; lia].
Qed.

Lemma last_cons_default {A : Type} (l : list A) :
  forall x a b, last (x :: l) a = last (x :: l) b.
Proof.
  induction l as [|y l IH]; intros x a b; [reflexivity|].
  change (last (x :: y :: l) a) with (last (y :: l) a).
  change (last (x :: y :: l) b) with (last (y :: l) b). apply IH.
Qed.

(** A buffer whose first timestamp is at most the render time and whose
    last one is at least the render time has an adjacent pair that brackets
    it. *)
Lemma findBracket_some (renderTime : Z) (rest : list snapshot) :
  forall first,
    rest <> [] ->
    timestamp first <= renderTime <= timestamp (last rest first) ->
    exists pre before after post,
      first :: rest = pre ++ before :: after :: post
      /\ timestamp before <= renderTime <= timestamp after
      /\ findBracket renderTime (first :: rest) = Some (before, after).
Proof.
  induction rest as [|b rest IH]; intros a Hne [Hlo Hhi]; [congruence|].
  cbn [findBracket].
  destruct (Z.leb_spec (timestamp a) renderTime) as [_|]; [|lia].
  destruct (Z.geb_spec (timestamp b) renderTime) as [Hb|Hb]; simpl andb;
    cbv iota.
  - exists [], a, b, rest. repeat split; try reflexivity; lia.
  - destruct rest as [|b' rest'].
    + simpl in Hhi. lia.
    + destruct (IH b) as (pre & before & after & post & E & Hbr & Hf).
      * discriminate.
      * split; [lia|]. rewrite (last_cons_default rest' b' b a). exact Hhi.
      * exists (a :: pre), before, after, post.
        split; [simpl; now rewrite E|]. split; [exact Hbr | exact Hf].
Qed.

(** X11. [interpolateState] interpolates whenever the render time lies between
    the timestamp of the first buffered snapshot and that of the last, in
    whatever order the snapshots in between are: an adjacent pair that
    brackets the render time exists, and the state returned is the
    interpolation of such a pair, not a buffered snapshot. *)
Theorem interpolateState_within_range (now : Z) (c : client)
  (first : snapshot) (rest : list snapshot) :
  let renderTime := now - INTERPOLATION_DELAY in
  serverStates c = first :: rest -> rest <> [] ->
  timestamp first <= renderTime <= timestamp (last rest first) ->
  exists pre before after post,
    serverStates c = pre ++ before :: after :: post
    /\ timestamp before <= renderTime <= timestamp after
    /\ interpolateState now c = interpolate renderTime before after.
Proof.
  intros renderTime Hbuf Hne Hrange.
  destruct (findBracket_some renderTime rest first Hne Hrange)
    as (pre & before & after & post & E & Hbr & Hf).
  exists pre, before, after, post. rewrite Hbuf.
  split; [exact E|]. split; [exact Hbr|].
  unfold interpolateState. rewrite Hbuf. fold renderTime. rewrite Hf.
  destruct rest as [|b rest']; [congruence | reflexivity].
Qed.

(** X12. [interpolateState] never extrapolates: when every buffered snapshot
    is older than the render time, or every one is newer, it returns the
    snapshot that arrived last, as it is (or the empty state when the buffer
    is empty). The first case is that of every snapshot that is at least
    [NETWORK_LATENCY] old when it is sampled, since the interpolation delay
    is the shorter of the two. *)
Theorem interpolateState_outside_range (now : Z) (c : client) :
  let renderTime := now - INTERPOLATION_DELAY in
  (Forall (fun s => timestamp s < renderTime) (serverStates c) ->
   interpolateState now c = newest (serverStates c))
  /\ (Forall (fun s => renderTime < timestamp s) (serverStates c) ->
      interpolateState now c = newest (serverStates c))
  /\ (Forall (fun s => timestamp s + GameServer.NETWORK_LATENCY <= now)
        (serverStates c) ->
      interpolateState now c = newest (serverStates c)).
Proof.
  intros renderTime. repeat split; intros H; apply interpolateState_no_bracket.
  - apply findBracket_none_before, H.
  - apply findBracket_none_after, H.
  - apply findBracket_none_before. eapply Forall_impl; [|exact H].
    unfold GameServer.NETWORK_LATENCY, INTERPOLATION_DELAY. simpl. intros; lia.
Qed.

End Range.

(** * Server and client on one clock *)

Section Session.

Import GameClient.

Lemma handleMessage_stale (now age limit : Z) (f : frame) (c : client) :
  aged age limit (0, f) ->
  Forall (fun s => timestamp s + age <= limit) (serverStates c) ->
  Forall (fun s => timestamp s + age <= limit)
    (serverStates (GameClient.handleMessage now f c)).
Proof.
  intros Hf Hc. destruct f as [playerId pl|ts pls cs]; simpl; [exact Hc|].
  rewrite Forall_forall in *. intros s Hin. apply filter_In in Hin.
  destruct Hin as [Hin _]. apply in_app_iff in Hin.
  destruct Hin as [Hin|[<-|[]]]; [apply Hc, Hin | exact Hf].
Qed.

Lemma deliver_stale (k now age limit : Z) (fs : list (Z * frame)) :
  forall c,
    Forall (aged age limit) fs ->
    Forall (fun s => timestamp s + age <= limit) (serverStates c) ->
    Forall (fun s => timestamp s + age <= limit)
      (serverStates (deliver k now fs c)).
Proof.
  unfold deliver.
  induction fs as [|[conn f] fs IH]; intros c Hfs Hc; simpl; [exact Hc|].
  inversion Hfs as [|? ? Hf Hfs']; subst. apply IH; [exact Hfs'|].
  destruct (conn =? k); [|exact Hc].
  apply (handleMessage_stale _ age); assumption.
Qed.

Lemma newFrames_app (w w' : world) (new : list (Z * frame)) :
  written w' = written w ++ new -> newFrames w w' = new.
Proof.
  intros E. unfold newFrames. rewrite E, skipn_app, Nat.sub_diag.
  rewrite skipn_all2 by lia. reflexivity.
Qed.

Lemma aged_later (age now limit : Z) (cf : Z * frame) :
  now <= limit -> aged age now cf -> aged age limit cf.
Proof.
  unfold aged. destruct (snd cf); [auto | lia].
Qed.

(** Every snapshot in the buffer is at least [NETWORK_LATENCY - slack]
    old by the time the last frame has come in. *)
Lemma session_stale (k transit slack limit : Z) (es : list event) :
  forall w c,
    0 <= transit ->
    Forall (fun e => eventTime e + transit <= limit) es ->
    timely slack es w ->
    orderly w ->
    Forall (fun s => timestamp s + (NETWORK_LATENCY - slack) <= limit)
      (serverStates c) ->
    Forall (fun s => timestamp s + (NETWORK_LATENCY - slack) <= limit)
      (serverStates (session k transit es w c)).
Proof.
  induction es as [|e es IH]; intros w c Ht Hes Hty Hw Hc; simpl;
    [exact Hc|].
  inversion Hes as [|? ? He Hes']; subst. destruct Hty as [Hp Hty].
  pose proof (step_orderly e w Hw) as Hw'.
  destruct Hw as (_ & _ & Htimers & _).
  destruct (step_aged slack e w Htimers Hp) as (new & Hnew & Haged).
  rewrite (newFrames_app _ _ _ Hnew).
  assert (Hc' : Forall
                  (fun s => timestamp s + (NETWORK_LATENCY - slack) <= limit)
                  (serverStates (deliver k (eventTime e + transit) new c))).
  { apply deliver_stale; [|exact Hc].
    eapply Forall_impl; [|exact Haged]. intros cf. apply aged_later. lia. }
  destruct (step e w) as [w'|err w']; simpl in *; [|exact Hc'].
  apply IH; assumption.
Qed.

End Session.

(** X13. With the server and the client on one clock, the client never
    interpolates. A snapshot leaves the server when its timeout runs, due
    [NETWORK_LATENCY] after its timestamp, and the render time is only
    [INTERPOLATION_DELAY] behind the clock: as long as every timeout runs
    less than [NETWORK_LATENCY - INTERPOLATION_DELAY], 80 ms, before it is
    due, whatever the run of the server and whenever the client samples
    after the last frame came in, every buffered snapshot is older than the
    render time and [interpolateState] returns the snapshot that arrived
    last, as it is. *)
Theorem one_clock_session_never_interpolates (now0 k transit slack now : Z)
  (es : list event) :
  0 <= transit ->
  slack < NETWORK_LATENCY - GameClient.INTERPOLATION_DELAY ->
  timely slack es (boot now0) ->
  Forall (fun e => eventTime e + transit <= now) es ->
  let c := session k transit es (boot now0) GameClient.constructor in
  GameClient.interpolateState now c = newest (GameClient.serverStates c).
Proof.
  intros Ht Hslack Hty Hes c. apply interpolateState_no_bracket.
  apply findBracket_none_before.
  pose proof (session_stale k transit slack now es (boot now0)
                GameClient.constructor Ht Hes Hty (boot_orderly now0)
                (Forall_nil _)) as H.
  fold c in H. eapply Forall_impl; [|exact H].
  intros s Hs. cbv beta in Hs. lia.
Qed.

(** * The keys of the client *)

Section Keys.

Import GameClient.

Lemma sendInput_inputs (t : terminal) :
  t_inputs (sendInput t) = t_inputs t
  /\ t_releases (sendInput t) = t_releases t
  /\ t_socketOpen (sendInput t) = t_socketOpen t
  /\ t_exited (sendInput t) = t_exited t.
Proof.
  unfold sendInput. destruct (t_socketOpen t) eqn:E; repeat split; auto.
Qed.

Lemma sendInput_settled (t : terminal) :
  (t_socketOpen t = false -> t_sent t = []) ->
  (t_sent (sendInput t) = []
   \/ last (t_sent (sendInput t)) None = inputMessage (t_inputs (sendInput t)))
  /\ (t_socketOpen (sendInput t) = false -> t_sent (sendInput t) = []).
Proof.
  intros H. unfold sendInput. destruct (t_socketOpen t) eqn:E; simpl.
  - split; [right; apply last_last | congruence].
  - split; [left|]; auto.
Qed.

Lemma clientStep_exited (e : clientEvent) (t : terminal) :
  t_exited t = true -> clientStep e t = t.
Proof. unfold clientStep. now intros ->. Qed.

Lemma clientStep_settled (e : clientEvent) (t : terminal) :
  settled t -> t_exited (clientStep e t) = false -> settled (clientStep e t).
Proof.
  intros (Ha & Hb & Hc) Hx. unfold clientStep in *.
  destruct (t_exited t) eqn:Ex; [congruence|].
  destruct e as [now k|now n| |now message| | |now].
  - unfold keypress in *.
    destruct (k_ctrl k && named k "c"); [discriminate|].
    destruct (named k "q"); [discriminate|].
    set (t0 := with_inputs t (press k (t_inputs t))) in *.
    destruct (sendInput_settled t0 Hc) as [Hb' Hc'].
    destruct (sendInput_inputs t0) as (_ & Hr & _).
    split; [|split; assumption].
    simpl. intros H. destruct (t_releases (sendInput t0)); discriminate.
  - unfold onRelease in *.
    destruct (take_nth n (t_releases t)) as [[due rest]|];
      [|split; [|split]; assumption].
    unfold release.
    set (t0 := with_inputs (with_releases t rest) released) in *.
    destruct (sendInput_settled t0 Hc) as [Hb' Hc'].
    destruct (sendInput_inputs t0) as (Hi & _).
    split; [|split; assumption]. intros _. exact Hi.
  - split; [exact Ha|]. split; [exact Hb | discriminate].
  - split; [|split]; assumption.
  - discriminate.
  - discriminate.
  - unfold onRenderTick in *.
    destruct (GameClient.r_players _); [split; [|split]; assumption|].
    unfold render in *. destruct (negb _); split; try split; assumption.
Qed.

Lemma play_snoc (es : list clientEvent) (e : clientEvent) (t : terminal) :
  play (es ++ [e]) t = clientStep e (play es t).
Proof. unfold play. now rewrite fold_left_app. Qed.

Lemma play_settled (es : list clientEvent) :
  t_exited (play es start) = false -> settled (play es start).
Proof.
  induction es as [|e es IH] using rev_ind; intros Hx.
  - split; [|split]; auto.
  - rewrite play_snoc in *.
    destruct (t_exited (play es start)) eqn:E.
    + rewrite clientStep_exited in Hx by exact E. congruence.
    + apply clientStep_settled; [apply IH; reflexivity | exact Hx].
Qed.

Lemma clientStep_sent (e : clientEvent) (t : terminal) :
  t_sent (clientStep e t) = t_sent t
  \/ exists i, t_sent (clientStep e t) = t_sent t ++ [inputMessage i].
Proof.
  assert (Hs : forall t0, t_sent t0 = t_sent t ->
                 t_sent (sendInput t0) = t_sent t
                 \/ exists i, t_sent (sendInput t0)
                              = t_sent t ++ [inputMessage i]).
  { intros t0 E. unfold sendInput. destruct (t_socketOpen t0); simpl.
    - right. exists (t_inputs t0). now rewrite E.
    - now left. }
  unfold clientStep. destruct (t_exited t); [now left|].
  destruct e as [now k|now n| |now message| | |now]; try (now left).
  - unfold keypress. destruct (k_ctrl k && named k "c"); [now left|].
    destruct (named k "q"); [now left|]. simpl. apply Hs. reflexivity.
  - unfold onRelease.
    destruct (take_nth n (t_releases t)) as [[due rest]|]; [|now left].
    apply Hs. reflexivity.
  - unfold onRenderTick. destruct (GameClient.r_players _); [now left|].
    unfold render. destruct (negb _); now left.
Qed.

Lemma play_sent (es : list clientEvent) :
  Forall (fun m => exists i, m = inputMessage i) (t_sent (play es start)).
Proof.
  induction es as [|e es IH] using rev_ind; [constructor|].
  rewrite play_snoc.
  destruct (clientStep_sent e (play es start)) as [->|[i ->]]; [exact IH|].
  apply Forall_app. split; [exact IH|]. constructor; [now exists i|constructor].
Qed.

End Keys.

(** X14. Keys do not stick: while the client process runs, whenever no
    auto-release timeout is pending every flag of [this.inputs] is clear,
    and the last frame sent to the server, if any was sent, says so. *)
Theorem keys_do_not_stick (es : list GameClient.clientEvent) :
  let t := GameClient.play es GameClient.start in
  GameClient.t_exited t = false -> GameClient.t_releases t = [] ->
  GameClient.t_inputs t = GameClient.released
  /\ (GameClient.t_sent t = []
      \/ last (GameClient.t_sent t) None
         = GameClient.inputMessage GameClient.released).
Proof.
  intros t Hx Hr. destruct (play_settled es Hx) as (Ha & Hb & _).
  fold t in Ha, Hb. specialize (Ha Hr). rewrite Ha in Hb. auto.
Qed.

(** X15. What the client sends is what the tick reads: every frame the client
    sends is an input message built from four booleans, the server stores
    its [inputs] for the player of the socket, and the tick reads back the
    same four flags from what is stored. *)
Theorem sent_inputs_reach_the_tick (es : list GameClient.clientEvent) (m : text)
  (k : Z) (s : server) (player : player) :
  In m (GameClient.t_sent (GameClient.play es GameClient.start)) ->
  map_get k (players s) = Some player ->
  exists i stored,
    m = GameClient.inputMessage i
    /\ handleMessage k m s
       = Normal (set_players s
                   (map_set k (set_inputs player stored) (players s)))
    /\ readFlags stored = Some (flagsOf i).
Proof.
  intros Hin Hget.
  pose proof (play_sent es) as H. rewrite Forall_forall in H.
  destruct (H m Hin) as [i ->].
  exists i. eexists. split; [reflexivity|].
  unfold handleMessage, handleMessage_try. simpl. rewrite Hget.
  split; reflexivity.
Qed.

(** * The picture *)

Section Drawing.

Import GameClient.

Lemma length_assign {A : Type} (n : nat) (v : A) :
  forall l, List.length (assign n v l) = List.length l.
Proof.
  induction n as [|n IH]; intros [|a l]; simpl; auto.
Qed.

Lemma nth_assign {A : Type} (n : nat) (v d : A) :
  forall l j,
    (n < List.length l)%nat ->
    nth j (assign n v l) d = if (n =? j)%nat then v else nth j l d.
Proof.
  induction n as [|n IH]; intros [|a l] j Hn; simpl in Hn; try lia.
  - destruct j; reflexivity.
  - destruct j; simpl; [reflexivity|]. apply IH. lia.
Qed.

Lemma nth_assign_out {A : Type} (n : nat) (v : A) :
  forall l, (List.length l <= n)%nat -> assign n v l = l.
Proof.
  induction n as [|n IH]; intros [|a l] Hn; simpl in *; try reflexivity;
    try lia.
  f_equal. apply IH. lia.
Qed.

Lemma square_nth (n : nat) (m : list (list string)) (r : nat) :
  square n m -> (r < n)%nat -> List.length (nth r m []) = n.
Proof.
  intros [Hl Hr] Hlt. rewrite Forall_forall in Hr. apply Hr, nth_In. lia.
Qed.

Lemma square_plot (n : nat) (x y : number) (ch : string)
  (m : list (list string)) :
  square n m -> square n (plot x y ch m).
Proof.
  intros Hs. unfold plot. destruct (_ && _); [|exact Hs].
  destruct Hs as [Hl Hr]. split; [now rewrite length_assign|].
  destruct (Nat.ltb_spec (index y) (List.length m)) as [Hlt|Hge].
  - rewrite Forall_forall in *. intros row Hin.
    apply In_nth with (d := []) in Hin. destruct Hin as (j & Hj & <-).
    rewrite length_assign in Hj. rewrite nth_assign by exact Hlt.
    destruct (index y =? j)%nat; [|apply Hr, nth_In, Hj].
    rewrite length_assign. apply Hr, nth_In, Hlt.
  - now rewrite nth_assign_out.
Qed.

Lemma cell_plot (n : nat) (x y : number) (ch : string)
  (m : list (list string)) (r c : nat) :
  square n m -> (r < n)%nat -> (c < n)%nat ->
  cell r c (plot x y ch m)
  = if (0 <=? x)%float && (x <? mapSize)%float
       && (0 <=? y)%float && (y <? mapSize)%float
       && (index y =? r)%nat && (index x =? c)%nat
    then ch else cell r c m.
Proof.
  intros Hs Hr Hc. unfold plot, cell.
  destruct (_ && (y <? mapSize)%float); [|reflexivity]. simpl andb.
  destruct (Nat.eqb_spec (index y) r) as [Ey|Ey].
  - subst r. destruct Hs as [Hl Hrows].
    rewrite nth_assign by lia. rewrite Nat.eqb_refl.
    pose proof (square_nth n m (index y) (conj Hl Hrows) Hr) as Hrow.
    destruct (Nat.ltb_spec (index x) n) as [Hlt|Hge].
    + rewrite nth_assign by lia. reflexivity.
    + rewrite nth_assign_out by lia.
      replace (index x =? c)%nat with false; [reflexivity|].
      symmetry. apply Nat.eqb_neq. lia.
  - simpl. destruct (Nat.ltb_spec (index y) (List.length m)) as [Hlt|Hge].
    + rewrite nth_assign by exact Hlt.
      apply Nat.eqb_neq in Ey. now rewrite Ey.
    + now rewrite nth_assign_out.
Qed.

(** After a loop that plots one symbol per element, a cell shows the symbol
    of the last element plotted there. *)
Lemma cell_fold_plot {A : Type} (n : nat) (px py : A -> number)
  (ch : A -> string) (r c : nat) (l : list A) :
  forall m,
    square n m -> (r < n)%nat -> (c < n)%nat ->
    let m' := fold_left (fun m a => plot (px a) (py a) (ch a) m) l m in
    square n m'
    /\ cell r c m'
       = match find (fun a =>
                       (0 <=? px a)%float && (px a <? mapSize)%float
                       && (0 <=? py a)%float && (py a <? mapSize)%float
                       && (index (py a) =? r)%nat && (index (px a) =? c)%nat)
                 (rev l) with
         | Some a => ch a
         | None => cell r c m
         end.
Proof.
  induction l as [|a l IH] using rev_ind; intros m Hs Hr Hc; simpl.
  - split; [exact Hs | reflexivity].
  - rewrite fold_left_app, rev_app_distr. simpl.
    destruct (IH m Hs Hr Hc) as [Hs' Hcell].
    split; [apply square_plot, Hs'|].
    rewrite (cell_plot n) by assumption.
    destruct (_ && (index (px a) =? c)%nat); [reflexivity | exact Hcell].
Qed.

Lemma square_blank : square 40 blank.
Proof.
  split; [reflexivity|]. apply Forall_forall. intros row Hin.
  apply repeat_spec in Hin. subst row. reflexivity.
Qed.

Lemma cell_blank (r c : nat) :
  (r < 40)%nat -> (c < 40)%nat -> cell r c blank = dot.
Proof.
  intros Hr Hc. unfold cell, blank.
  assert (Hrow : nth r (repeat (repeat dot 40) 40) [] = repeat dot 40).
  { apply (repeat_spec 40). apply nth_In. rewrite repeat_length. exact Hr. }
  rewrite Hrow. apply (repeat_spec 40). apply nth_In.
  rewrite repeat_length. exact Hc.
Qed.

Lemma find_snoc {A : Type} (f : A -> bool) (l : list A) (a : A) :
  find f (l ++ [a])
  = match find f l with
    | Some b => Some b
    | None => if f a then Some a else None
    end.
Proof.
  induction l as [|b l IH]; simpl; [reflexivity|].
  destruct (f b); [reflexivity | exact IH].
Qed.

Lemma find_rev_existsb {A : Type} (f : A -> bool) (l : list A) :
  match find f (rev l) with Some _ => true | None => false end = existsb f l.
Proof.
  induction l as [|a l IH]; [reflexivity|]. simpl.
  rewrite find_snoc. destruct (find f (rev l)); simpl in *.
  - rewrite <- IH. symmetry. apply orb_true_r.
  - rewrite <- IH, orb_false_r. destruct (f a); reflexivity.
Qed.

End Drawing.

(** X16. What [render] draws in a cell of the map: the symbol of the last
    player of the list that falls in the cell, [@] when it is the player of
    this client and [P] otherwise; when no player falls there, [$] when a
    coin does; and a dot otherwise. So a player hides a coin, and of two
    players in one cell the later one shows. *)
Theorem picture_cell (me : option Z) (state : GameClient.renderState)
  (r c : nat) :
  (r < 40)%nat -> (c < 40)%nat ->
  cell r c (GameClient.picture me state)
  = match find (fun p => drawnAt (v_x p) (v_y p) r c)
            (rev (GameClient.r_players state)) with
    | Some p => if GameClient.isMe me p then "@"%string else "P"%string
    | None =>
        if existsb (fun k => drawnAt (c_x k) (c_y k) r c)
             (GameClient.r_coins state)
        then "$"%string else GameClient.dot
    end.
Proof.
  intros Hr Hc. unfold GameClient.picture.
  destruct (cell_fold_plot 40
              (fun k => Math_floor (c_x k * GameClient.scale)%float)
              (fun k => Math_floor (c_y k * GameClient.scale)%float)
              (fun _ => "$"%string) r c (GameClient.r_coins state)
              GameClient.blank
              square_blank Hr Hc) as [Hs1 Hc1].
  destruct (cell_fold_plot 40
              (fun p => Math_floor (v_x p * GameClient.scale)%float)
              (fun p => Math_floor (v_y p * GameClient.scale)%float)
              (fun p => if GameClient.isMe me p then "@"%string else "P"%string)
              r c (GameClient.r_players state) _ Hs1 Hr Hc) as [_ Hc2].
  unfold GameClient.drawPlayer, GameClient.drawCoin in *. cbv zeta in Hc1, Hc2.
  rewrite Hc2. unfold drawnAt. cbv zeta.
  destruct (find _ (rev (GameClient.r_players state))); [reflexivity|].
  rewrite Hc1, <- find_rev_existsb.
  destruct (find _ (rev (GameClient.r_coins state)));
    [reflexivity | apply cell_blank; assumption].
Qed.

Section Cells.

Import GameClient.

(** What [render] does with the integers from 0 to 39. *)
Lemma small_index (z : Z) :
  0 <= z <= 39 ->
  (0 <=? number_of_Z z)%float = true
  /\ (number_of_Z z <? mapSize)%float = true
  /\ (index (number_of_Z z) < 40)%nat.
Proof.
  intros Hz.
  assert (H : forallb
                (fun n =>
                   (0 <=? number_of_Z (Z.of_nat n))%float
                   && (number_of_Z (Z.of_nat n) <? mapSize)%float
                   && (index (number_of_Z (Z.of_nat n)) <? 40)%nat)
                (seq 0 40) = true) by (vm_compute; reflexivity).
  rewrite forallb_forall in H. specialize (H (Z.to_nat z)).
  rewrite Z2Nat.id in H by lia.
  assert (Hin : In (Z.to_nat z) (seq 0 40)) by (apply in_seq; lia).
  apply H in Hin. apply andb_true_iff in Hin. destruct Hin as [Hin H3].
  apply andb_true_iff in Hin. destruct Hin as [H1 H2].
  apply Nat.ltb_lt in H3. auto.
Qed.

Lemma floor_cell (a : number) :
  atMost 5559130790035456 (-47) (Prim2SF a) ->
  (0 <=? Math_floor a)%float = true
  /\ (Math_floor a <? mapSize)%float = true
  /\ (index (Math_floor a) < 40)%nat.
Proof.
  intros [E|[E|(m & e & E & Hc & He & Hm)]]; unfold Math_floor, index;
    rewrite ?leb_spec, ?ltb_spec, E.
  - rewrite E. repeat split. simpl. lia.
  - rewrite E. repeat split. simpl. lia.
  - replace (e <? 0) with true by (symmetry; apply Z.ltb_lt; lia).
    rewrite <- leb_spec, <- ltb_spec. fold (index (number_of_Z
      (Z.shiftr (Zpos m) (- e)))).
    apply small_index. rewrite Z.shiftr_div_pow2 by lia.
    pose proof (pow2_pos (- e) ltac:(lia)) as Hp.
    split; [apply Z.div_pos; lia|].
    apply Z.lt_succ_r. apply Z.div_lt_upper_bound; [lia|].
    destruct Hc as [Hlt|[-> Hle]].
    + assert (2 ^ 48 <= 2 ^ (- e)) by (apply Z.pow_le_mono_r; lia).
      change (2 ^ 53) with (32 * 2 ^ 48) in Hm. lia.
    + change (2 ^ (- -47)) with 140737488355328. lia.
Qed.

(** A bound with a larger mantissa at the same exponent is a bound. *)
Lemma SFleb_widen (a : spec_float) (n1 n2 : positive) (e : Z) :
  (n1 <= n2)%positive ->
  SFleb a (S754_finite false n1 e) = true ->
  SFleb a (S754_finite false n2 e) = true.
Proof.
  intros Hn. unfold SFleb, SFcompare.
  destruct a as [s|s| |s m e0]; auto.
  destruct s; [auto|].
  destruct (e0 ?= e); auto.
  change (Pos.compare_cont Eq m n1) with (Pos.compare m n1).
  change (Pos.compare_cont Eq m n2) with (Pos.compare m n2).
  destruct (Pos.compare_spec m n1); destruct (Pos.compare_spec m n2);
    try reflexivity; try discriminate; lia.
Qed.

Lemma leb_770_780 (a : number) :
  (a <=? MAP_SIZE - PLAYER_SIZE)%float = true ->
  (a <=? MAP_SIZE - COIN_SIZE)%float = true.
Proof.
  rewrite !leb_spec.
  change (Prim2SF (MAP_SIZE - PLAYER_SIZE))
    with (S754_finite false 6772991627100160 (-43)).
  change (Prim2SF (MAP_SIZE - COIN_SIZE))
    with (S754_finite false 6860952557322240 (-43)).
  apply SFleb_widen. apply Pos.leb_le. reflexivity.
Qed.

Lemma scaled_cell (a : number) :
  inCoinBounds a ->
  let f := Math_floor (a * scale)%float in
  (0 <=? f)%float = true /\ (f <? mapSize)%float = true
  /\ (index f < 40)%nat.
Proof.
  intros [H0 H1] f. apply floor_cell.
  apply (mul_atMost a (MAP_SIZE - COIN_SIZE)%float scale
           6860952557322240 7205759403792794 (-43) (-57));
    first [ assumption | reflexivity
          | apply Z.leb_le; reflexivity
          | split; [apply Z.leb_le | apply Z.ltb_lt]; reflexivity
          | split; apply Z.leb_le; reflexivity
          | unfold leq_val; apply Z.leb_le; reflexivity ].
Qed.

End Cells.

(** X17. [render] leaves out no player and no coin of the map: an entity
    whose coordinates are within the bounds the server keeps for players,
    or within those it keeps for coins, passes the test
    [x >= 0 && x < mapSize && y >= 0 && y < mapSize] and is plotted in a cell
    of the 40 by 40 map. *)
Theorem entities_of_the_map_are_drawn (x y : number) :
  inBounds x \/ inCoinBounds x -> inBounds y \/ inCoinBounds y ->
  exists r c, (r < 40)%nat /\ (c < 40)%nat /\ drawnAt x y r c = true.
Proof.
  assert (H : forall a, inBounds a \/ inCoinBounds a -> inCoinBounds a).
  { intros a [[H0 H1]|H]; [|exact H]. split; [exact H0|].
    apply leb_770_780, H1. }
  intros Hx Hy. apply H in Hx. apply H in Hy.
  destruct (scaled_cell x Hx) as (X0 & X1 & X2).
  destruct (scaled_cell y Hy) as (Y0 & Y1 & Y2).
  exists (index (Math_floor (y * GameClient.scale)%float)),
         (index (Math_floor (x * GameClient.scale)%float)).
  split; [exact Y2|]. split; [exact X2|].
  unfold drawnAt. cbv zeta. rewrite X0, X1, Y0, Y1, !Nat.eqb_refl.
  reflexivity.
Qed.

Section Picture.

Import GameClient.

Lemma render_lastRender (state : renderState) (t : terminal) :
  t_lastRender (render state t) = output (myPlayerId (t_client t)) state
  /\ t_client (render state t) = t_client t.
Proof.
  unfold render.
  destruct (String.eqb_spec (output (myPlayerId (t_client t)) state)
              (t_lastRender t)) as [E|E]; simpl; auto.
Qed.

Lemma render_twice (state : renderState) (t : terminal) :
  render state (render state t) = render state t.
Proof.
  destruct (render_lastRender state t) as [Hl Hc].
  unfold render at 1. rewrite Hc, Hl, String.eqb_refl. reflexivity.
Qed.

End Picture.

(** X18. The render loop draws a picture once: a frame of the loop that
    samples the same state as the frame before it writes nothing to the
    terminal and leaves the process as it is. *)
Theorem render_loop_draws_once (now now' : Z) (t : GameClient.terminal) :
  GameClient.interpolateState now' (GameClient.t_client t)
  = GameClient.interpolateState now (GameClient.t_client t) ->
  GameClient.onRenderTick now' (GameClient.onRenderTick now t)
  = GameClient.onRenderTick now t.
Proof.
  intros H. unfold GameClient.onRenderTick at 2.
  destruct (GameClient.r_players
              (GameClient.interpolateState now (GameClient.t_client t))) eqn:E.
  - unfold GameClient.onRenderTick. now rewrite H, E.
  - unfold GameClient.onRenderTick.
    destruct (render_lastRender
                (GameClient.interpolateState now (GameClient.t_client t)) t)
      as [_ Hc].
    rewrite Hc, H, E. apply render_twice.
Qed.

(** * Worked examples *)

Section Witnesses.

(** The premises of C1 hold of a player in the corner who keeps pushing out
    of the map: the tick leaves it at (770, 0). *)
Lemma update_keeps_players_in_bounds_witness :
  (forall k p, In (k, p) (players cornerGame) -> positionIsNumber p)
  /\ update cornerGame = Normal cornerGameNext
  /\ positionInBounds (set_position cornerPlayer 770%float 0%float).
Proof.
  assert (H1 : forall k p,
             In (k, p) (players cornerGame) -> positionIsNumber p).
  { intros k p [E|[E|[]]]; injection E as _ <-; split; reflexivity. }
  assert (H2 : update cornerGame = Normal cornerGameNext) by reflexivity.
  split; [exact H1|]. split; [exact H2|].
  apply (update_keeps_players_in_bounds cornerGame cornerGameNext H1 H2 1).
  left. reflexivity.
Defined.

(** The premises of C2 hold of the first tick after two players joined:
    player 1 stands on the coin and scores. *)
Lemma collisions_score_once_witness :
  run [firstJoins; secondJoins] (boot 0) = Normal kickoff
  /\ gameStarted (srv kickoff) = true
  /\ step (Tick 36) kickoff = Normal afterFirstTick
  /\ coins (srv afterFirstTick)
     = filter (unclaimed (players (srv afterFirstTick))) (coins (srv kickoff))
  /\ option_map p_score (map_get 1 (players (srv afterFirstTick))) = Some 1.
Proof.
  assert (H1 : run [firstJoins; secondJoins] (boot 0) = Normal kickoff)
    by reflexivity.
  assert (H2 : gameStarted (srv kickoff) = true) by reflexivity.
  assert (H3 : step (Tick 36) kickoff = Normal afterFirstTick) by reflexivity.
  split; [exact H1|]. split; [exact H2|]. split; [exact H3|].
  split; [|reflexivity].
  exact (proj1 (collisions_score_once 0 36 _ kickoff afterFirstTick H1 H2 H3)).
Defined.

(** The premise of C6 holds of a server with one player: a tick leaves the
    process as it is. *)
Lemma idle_until_second_player_witness :
  run [firstJoins] (boot 0) = Normal lobby
  /\ gameStarted (srv lobby) = false
  /\ step (Tick 27) lobby = Normal lobby.
Proof.
  assert (H1 : run [firstJoins] (boot 0) = Normal lobby) by reflexivity.
  split; [exact H1|]. split; [reflexivity|].
  destruct (idle_until_second_player 0 [firstJoins] lobby H1)
    as (_ & Hidle & _).
  exact (proj1 (Hidle eq_refl 27 0.5%float 0.5%float)).
Defined.

(** The premises of C10 hold of the snapshots at 0 and 100 sampled at 50:
    the factor is between 0 and 1, and player A, at x = 0 and then at
    x = 10, is shown between the two. *)
Lemma interpolation_stays_in_range_witness :
  let before :=
    nth 0 (GameClient.serverStates twoSnapshots) (bareSnapshot 0) in
  let after :=
    nth 1 (GameClient.serverStates twoSnapshots) (bareSnapshot 0) in
  0 <= GameClient.timestamp before
  /\ GameClient.timestamp after < 2 ^ 53
  /\ GameClient.timestamp before <= 50 <= GameClient.timestamp after
  /\ GameClient.timestamp before < GameClient.timestamp after
  /\ (0 <=? GameClient.factor 50 before after)%float = true
  /\ (GameClient.factor 50 before after <=? 1)%float = true
  /\ Forall (fun r => between 0%float 10%float (v_x r) = true)
       (GameClient.r_players (GameClient.interpolate 50 before after)).
Proof.
  intros before after.
  assert (H1 : 0 <= GameClient.timestamp before) by (simpl; lia).
  assert (H2 : GameClient.timestamp after < 2 ^ 53) by (simpl; lia).
  assert (H3 : GameClient.timestamp before <= 50
               <= GameClient.timestamp after) by (simpl; lia).
  assert (H4 : GameClient.timestamp before < GameClient.timestamp after)
    by (simpl; lia).
  split; [exact H1|]. split; [exact H2|]. split; [exact H3|].
  split; [exact H4|].
  destruct (proj1 (interpolation_stays_in_range 50 before after H1 H2 H3) H4)
    as (Hlo & Hhi & Hall).
  split; [exact Hlo|]. split; [exact Hhi|].
  change (GameClient.players before) with [playerA 0%float 0%float 0] in Hall.
  change (GameClient.r_players (GameClient.interpolate 50 before after))
    with [GameClient.interpolatePlayer (GameClient.factor 50 before after)
            after (playerA 0%float 0%float 0)] in *.
  inversion Hall as [|p r ps rs Hp _]; subst. constructor; [|constructor].
  unfold interpolated in Hp.
  change (GameClient.findPlayer (v_id (playerA 0%float 0%float 0))
            (GameClient.players after))
    with (Some (playerA 10%float 0%float 0)) in Hp.
  destruct Hp as [Hx _].
  destruct (Hx eq_refl) as (_ & Hexact & _). exact (Hexact eq_refl).
Defined.

(** C7 on the input of a client that holds the right arrow: the intent is
    stored as sent and the next tick completes. *)
Lemma handleMessage_stores_inputs_witness :
  exists s',
    handleMessage 2 rightInput cornerGame = Normal s'
    /\ option_map p_inputs (map_get 2 (players s'))
       = Some (intent false false false true)
    /\ exists s'', update s' = Normal s''.
Proof.
  destruct (handleMessage_stores_inputs 2 rightInput cornerGame)
    as (s' & Hs' & _ & Hstore & _ & Htick).
  exists s'. split; [exact Hs'|].
  rewrite (Hstore restingPlayer _ _ eq_refl eq_refl eq_refl eq_refl) in *.
  split; [reflexivity|]. apply Htick.
  intros k p [E|[E|[]]]; injection E as _ <-; split; discriminate.
Defined.

(** The premises of C8 hold of a snapshot that arrives in order. *)
Lemma handleMessage_appends_witness :
  let c :=
    {| GameClient.myPlayerId := Some 1;
       GameClient.serverStates := [bareSnapshot 20] |} in
  sortedByTimestamp (GameClient.serverStates c)
  /\ (forall s, In s (GameClient.serverStates c) ->
                 GameClient.timestamp s <= 30)
  /\ sortedByTimestamp
       (GameClient.serverStates
          (GameClient.handleMessage 100 (StateFrame 30 [] []) c)).
Proof.
  intros c.
  assert (H1 : sortedByTimestamp (GameClient.serverStates c))
    by (repeat constructor).
  assert (H2 : forall s, In s (GameClient.serverStates c) ->
                         GameClient.timestamp s <= 30).
  { intros s [<-|[]]. simpl. lia. }
  split; [exact H1|]. split; [exact H2|].
  exact (proj2 (handleMessage_appends 100 30 [] [] c) H1 H2).
Defined.

(** The premise of X4 holds of the run in which two players join. *)
Lemma player_ids_are_sequential_witness :
  run [firstJoins; secondJoins] (boot 0) = Normal kickoff
  /\ nextPlayerId (srv kickoff) = 3
  /\ keys (players (srv kickoff)) = [1; 2].
Proof.
  assert (H : run [firstJoins; secondJoins] (boot 0) = Normal kickoff)
    by reflexivity.
  split; [exact H|]. split; [|reflexivity].
  exact (proj1 (player_ids_are_sequential 0 _ kickoff H)).
Defined.

(** The premise of X7 holds of player 1 after two players joined: once its
    socket has closed, the tick and the timeouts that follow write nothing
    to it. *)
Lemma closed_socket_gets_no_frame_witness :
  1 < nextPlayerId (srv (outcome (run [firstJoins; secondJoins] (boot 0))))
  /\ exists new,
      written
        (outcome
           (run [Close 30 1; Tick 36; TimerFires 190 0; TimerFires 216 1]
              (outcome (run [firstJoins; secondJoins] (boot 0)))))
      = written (outcome (run [firstJoins; secondJoins] (boot 0))) ++ new
      /\ Forall (fun cf => fst cf <> 1) new.
Proof.
  assert (H : 1 < nextPlayerId
                    (srv (outcome (run [firstJoins; secondJoins] (boot 0)))))
    by reflexivity.
  split; [exact H|].
  exact (closed_socket_gets_no_frame 0 30 [firstJoins; secondJoins]
           [Tick 36; TimerFires 190 0; TimerFires 216 1] 1 H).
Defined.

(** The premises of X8 hold of a player that joins alone and leaves: the
    only frame written is its init frame. *)
Lemma no_snapshot_before_the_start_witness :
  closesOpen aloneThenGone (boot 0)
  /\ gameStarted (srv (outcome (run aloneThenGone (boot 0)))) = false
  /\ Forall isInitFrame (written (outcome (run aloneThenGone (boot 0)))).
Proof.
  assert (H1 : closesOpen aloneThenGone (boot 0))
    by (simpl; repeat split; reflexivity).
  assert (H2 : gameStarted (srv (outcome (run aloneThenGone (boot 0)))) = false)
    by reflexivity.
  split; [exact H1|]. split; [exact H2|].
  exact (proj2 (proj2 (no_snapshot_before_the_start 0 aloneThenGone H1 H2))).
Defined.

(** The premise of X9 holds of the run of two connections and a tick. *)
Lemma players_never_leave_the_map_witness :
  Forall (drawsSatisfy unitDraw) [firstJoins; secondJoins; Tick 36]
  /\ Forall (fun kp => positionInBounds (snd kp))
       (players (srv (outcome (run [firstJoins; secondJoins; Tick 36]
                                 (boot 0))))).
Proof.
  assert (H : Forall (drawsSatisfy unitDraw)
                [firstJoins; secondJoins; Tick 36]).
  { repeat constructor; reflexivity. }
  split; [exact H|].
  exact (players_never_leave_the_map 0 _ H).
Defined.

(** The premise of X10 holds of the run in which the game starts and the
    coin timer fires. *)
Lemma coins_never_leave_the_map_witness :
  Forall (coinDrawsSatisfy unitDraw)
    [firstJoins; secondJoins; CoinTimer 3000 0.125%float 0.75%float]
  /\ Forall coinInMap
       (coins (srv (outcome
                      (run [firstJoins; secondJoins;
                            CoinTimer 3000 0.125%float 0.75%float]
                         (boot 0))))).
Proof.
  assert (H : Forall (coinDrawsSatisfy unitDraw)
                [firstJoins; secondJoins;
                 CoinTimer 3000 0.125%float 0.75%float]).
  { repeat constructor; reflexivity. }
  split; [exact H|].
  exact (coins_never_leave_the_map 0 _ H).
Defined.

(** The premises of X11 hold of the three snapshots at 40, 50 and 60
    sampled at render time 50: the state returned is interpolated. *)
Lemma interpolateState_within_range_witness :
  exists first rest,
    GameClient.serverStates threeSnapshots = first :: rest /\ rest <> []
    /\ GameClient.timestamp first <= 150 - GameClient.INTERPOLATION_DELAY
       <= GameClient.timestamp (last rest first)
    /\ GameClient.r_timestamp (GameClient.interpolateState 150 threeSnapshots)
       = None.
Proof.
  eexists _, _.
  assert (H1 : GameClient.serverStates threeSnapshots = _ :: _)
    by reflexivity.
  split; [exact H1|].
  assert (H2 : tl (GameClient.serverStates threeSnapshots) <> [])
    by discriminate.
  split; [exact H2|].
  assert (H3 : GameClient.timestamp
                 (hd (bareSnapshot 0) (GameClient.serverStates threeSnapshots))
               <= 150 - GameClient.INTERPOLATION_DELAY
               <= GameClient.timestamp
                    (last (tl (GameClient.serverStates threeSnapshots))
                       (hd (bareSnapshot 0)
                          (GameClient.serverStates threeSnapshots))))
    by (unfold GameClient.INTERPOLATION_DELAY; simpl; lia).
  split; [exact H3|].
  destruct (interpolateState_within_range 150 threeSnapshots _ _ H1 H2 H3)
    as (pre & before & after & post & _ & _ & ->).
  reflexivity.
Defined.

(** The premise of the last part of X12 holds of the snapshots at 0 and
    100 sampled at 300: the snapshot at 100 is returned. *)
Lemma interpolateState_outside_range_witness :
  Forall (fun s => GameClient.timestamp s + NETWORK_LATENCY <= 300)
    (GameClient.serverStates twoSnapshots)
  /\ GameClient.r_timestamp (GameClient.interpolateState 300 twoSnapshots)
     = Some 100.
Proof.
  assert (H : Forall
                (fun s => GameClient.timestamp s + NETWORK_LATENCY <= 300)
                (GameClient.serverStates twoSnapshots)).
  { repeat constructor; unfold NETWORK_LATENCY; simpl; lia. }
  split; [exact H|].
  rewrite (proj2 (proj2 (interpolateState_outside_range 300 twoSnapshots)) H).
  reflexivity.
Defined.

(** The premise of X6 holds of the timeout that writes the snapshot of
    3000 at 3179, one millisecond early: the frame is 179 ms old. *)
Lemma state_frames_are_aged_witness :
  let w := outcome (run (upToSnapshot ++ [TimerFires 3170 0]) (boot 0)) in
  punctual 1 (TimerFires 3179 0) w
  /\ exists new,
       written (outcome (step (TimerFires 3179 0) w)) = written w ++ new
       /\ Forall (aged (NETWORK_LATENCY - 1) 3179) new.
Proof.
  intros w.
  assert (H : punctual 1 (TimerFires 3179 0) w)
    by (vm_compute; discriminate).
  split; [exact H|].
  exact (state_frames_are_aged 0 1 (upToSnapshot ++ [TimerFires 3170 0])
           (TimerFires 3179 0) H).
Defined.

(** The premises of X13 hold of the run in which the snapshot of 3000 is
    written at 3179, with 5 ms of transit and a sample at 3200: the render
    time is 3100, and the client of socket 1 shows the snapshot of 3000 as
    it is. *)
Lemma one_clock_session_never_interpolates_witness :
  0 <= 5
  /\ 1 < NETWORK_LATENCY - GameClient.INTERPOLATION_DELAY
  /\ timely 1 earlyDelivery (boot 0)
  /\ Forall (fun e => eventTime e + 5 <= 3200) earlyDelivery
  /\ GameClient.r_timestamp
       (GameClient.interpolateState 3200
          (session 1 5 earlyDelivery (boot 0) GameClient.constructor))
     = Some 3000.
Proof.
  assert (H1 : 0 <= 5) by lia.
  assert (H2 : 1 < NETWORK_LATENCY - GameClient.INTERPOLATION_DELAY)
    by (vm_compute; reflexivity).
  assert (H3 : timely 1 earlyDelivery (boot 0))
    by (vm_compute; repeat split; discriminate).
  assert (H4 : Forall (fun e => eventTime e + 5 <= 3200) earlyDelivery).
  { unfold earlyDelivery, upToSnapshot. simpl.
    repeat (constructor; [simpl; lia|]). constructor. }
  split; [exact H1|]. split; [exact H2|]. split; [exact H3|].
  split; [exact H4|].
  rewrite (one_clock_session_never_interpolates 0 1 5 1 3200 earlyDelivery
             H1 H2 H3 H4).
  reflexivity.
Defined.

(** The premises of X14 hold after the up arrow was tapped and its release
    fired: the flags are clear and the last frame sent says so. *)
Lemma keys_do_not_stick_witness :
  GameClient.t_exited (GameClient.play tapUp GameClient.start) = false
  /\ GameClient.t_releases (GameClient.play tapUp GameClient.start) = []
  /\ GameClient.t_inputs (GameClient.play tapUp GameClient.start)
     = GameClient.released
  /\ List.length (GameClient.t_sent (GameClient.play tapUp GameClient.start))
     = 2%nat.
Proof.
  assert (H1 : GameClient.t_exited (GameClient.play tapUp GameClient.start)
               = false) by reflexivity.
  assert (H2 : GameClient.t_releases (GameClient.play tapUp GameClient.start)
               = []) by reflexivity.
  split; [exact H1|]. split; [exact H2|]. split; [|reflexivity].
  exact (proj1 (keys_do_not_stick tapUp H1 H2)).
Defined.

(** The premises of X15 hold of the frame the client sends when the up
    arrow is pressed, handled for player 2 of [cornerGame]. *)
Lemma sent_inputs_reach_the_tick_witness :
  let pressed :=
    {| GameClient.i_up := true; GameClient.i_down := false;
       GameClient.i_left := false; GameClient.i_right := false |} in
  In (GameClient.inputMessage pressed)
    (GameClient.t_sent (GameClient.play tapUp GameClient.start))
  /\ map_get 2 (players cornerGame) = Some restingPlayer
  /\ exists i stored,
      GameClient.inputMessage pressed = GameClient.inputMessage i
      /\ handleMessage 2 (GameClient.inputMessage pressed) cornerGame
         = Normal (set_players cornerGame
                     (map_set 2 (set_inputs restingPlayer stored)
                        (players cornerGame)))
      /\ readFlags stored = Some (flagsOf i).
Proof.
  intros pressed.
  assert (H1 : In (GameClient.inputMessage pressed)
                 (GameClient.t_sent (GameClient.play tapUp GameClient.start)))
    by (left; reflexivity).
  assert (H2 : map_get 2 (players cornerGame) = Some restingPlayer)
    by reflexivity.
  split; [exact H1|]. split; [exact H2|].
  exact (sent_inputs_reach_the_tick tapUp _ 2 cornerGame restingPlayer H1 H2).
Defined.

(** The premises of X16 hold of row 2 and column 1 of the picture of
    [board]: player 1 stands there on a coin, and the cell shows the
    player. *)
Lemma picture_cell_witness :
  (2 < 40)%nat /\ (1 < 40)%nat
  /\ cell 2 1 (GameClient.picture (Some 1) board) = "@"%string.
Proof.
  assert (H1 : (2 < 40)%nat) by lia.
  assert (H2 : (1 < 40)%nat) by lia.
  split; [exact H1|]. split; [exact H2|].
  rewrite (picture_cell (Some 1) board 2 1 H1 H2). reflexivity.
Defined.

(** The premises of X17 hold of a player in the far corner of the map. *)
Lemma entities_of_the_map_are_drawn_witness :
  inBounds 770%float
  /\ exists r c,
      (r < 40)%nat /\ (c < 40)%nat /\ drawnAt 770%float 770%float r c = true.
Proof.
  assert (H : inBounds 770%float) by (split; reflexivity).
  split; [exact H|].
  exact (entities_of_the_map_are_drawn 770%float 770%float
           (or_introl H) (or_introl H)).
Defined.

(** The premise of X18 holds of two frames of the render loop, at 300 and
    at 333, over the same two snapshots. *)
Lemma render_loop_draws_once_witness :
  GameClient.interpolateState 333 (GameClient.t_client watching)
  = GameClient.interpolateState 300 (GameClient.t_client watching)
  /\ GameClient.onRenderTick 333 (GameClient.onRenderTick 300 watching)
     = GameClient.onRenderTick 300 watching.
Proof.
  assert (H : GameClient.interpolateState 333 (GameClient.t_client watching)
              = GameClient.interpolateState 300 (GameClient.t_client watching))
    by reflexivity.
  split; [exact H|].
  exact (render_loop_draws_once 300 333 watching H).
Defined.

End Witnesses.
